(** * go-utils: the [properties] codec and the [getopt] parsers

    A shallow embedding of the Go packages [properties] (escape codec,
    natural-line reader, key/value splitter, serializer, table with a
    defaults chain) and [getopt] (two variants of the option parser),
    followed by the properties established about them.

    Conventions.
    - A Go [byte] is a [Z] in [0, 256); a Go [string] or [[]byte] is a
      [list Z]; a [rune] is a [Z].
    - A run-time panic (slice or index out of range) is the outcome
      [Panic]; loops whose recursion is not structural take a fuel
      argument and yield [OutOfFuel] when it is exhausted.
    - Go maps are stdpp [gmap]s; a [*Table] is a location in a heap of
      tables, so that a shared defaults table is really shared. *)

From Stdlib Require Import ZArith List String Ascii Bool Lia.
From stdpp Require Import base option list gmap.

Open Scope Z_scope.

(** ** Outcomes of a Go call *)

Inductive outcome (A : Type) : Type :=
| Ok (a : A)
| Panic
| OutOfFuel.
Arguments Ok {A} a.
Arguments Panic {A}.
Arguments OutOfFuel {A}.

#[global] Instance outcome_ret : MRet outcome := fun A a => Ok a.
#[global] Instance outcome_bind : MBind outcome := fun A B k m =>
  match m with
  | Ok a => k a
  | Panic => Panic
  | OutOfFuel => OutOfFuel
  end.

(** A [for ... range l] loop whose body may panic, threading the loop
    state [s]. *)
Fixpoint forEach {A S : Type} (body : S -> A -> outcome S) (l : list A) (s : S)
  : outcome S :=
  match l with
  | [] => Ok s
  | x :: l => s ← body s x; forEach body l s
  end.

(** ** Go strings and slices *)

Abbreviation gostring := (list Z).

(** The bytes of a string literal. *)
Definition bytes_of (s : string) : gostring :=
  map (fun a => Z.of_N (N_of_ascii a)) (list_ascii_of_string s).

Definition len {A} (p : list A) : Z := Z.of_nat (length p).

(** [p[i]] once the bounds check has passed. *)
Definition at_ (p : gostring) (i : Z) : Z := nth (Z.to_nat i) p 0.

(** [p[i]] with its bounds check. *)
Definition index {A} (p : list A) (i : Z) : outcome A :=
  if (0 <=? i) && (i <? len p)
  then match nth_error p (Z.to_nat i) with Some x => Ok x | None => Panic end
  else Panic.

(** [p[i:]]: panics unless [0 <= i <= len(p)]. *)
Definition slice_from {A} (p : list A) (i : Z) : outcome (list A) :=
  if (0 <=? i) && (i <=? len p) then Ok (drop (Z.to_nat i) p) else Panic.

(** [p[:i]]: panics unless [0 <= i <= len(p)] (capacity is not modelled). *)
Definition slice_to {A} (p : list A) (i : Z) : outcome (list A) :=
  if (0 <=? i) && (i <=? len p) then Ok (take (Z.to_nat i) p) else Panic.

(** ** The Go standard library functions the packages call *)

Module utf8.

Definition RuneError : Z := 0xFFFD.
Definition MaxRune : Z := 0x10FFFF.

Definition xx : Z := 0xF1.
Definition as_ : Z := 0xF0.
Definition s1 : Z := 0x02.
Definition s2 : Z := 0x13.
Definition s3 : Z := 0x03.
Definition s4 : Z := 0x23.
Definition s5 : Z := 0x34.
Definition s6 : Z := 0x04.
Definition s7 : Z := 0x44.

(** The table [first]: information about the first byte of an encoding. *)
Definition first (p0 : Z) : Z :=
  if p0 <? 0x80 then as_
  else if p0 <? 0xC2 then xx
  else if p0 <? 0xE0 then s1
  else if p0 =? 0xE0 then s2
  else if p0 <? 0xED then s3
  else if p0 =? 0xED then s4
  else if p0 <? 0xF0 then s3
  else if p0 =? 0xF0 then s5
  else if p0 <? 0xF4 then s6
  else if p0 =? 0xF4 then s7
  else xx.

(** The table [acceptRanges], as (lo, hi). *)
Definition acceptRanges (i : Z) : Z * Z :=
  if i =? 1 then (0xA0, 0xBF)
  else if i =? 2 then (0x80, 0x9F)
  else if i =? 3 then (0x90, 0xBF)
  else if i =? 4 then (0x80, 0x8F)
  else (0x80, 0xBF).

Definition locb : Z := 0x80.
Definition hicb : Z := 0xBF.
Definition maskx : Z := 0x3F.
Definition mask2 : Z := 0x1F.
Definition mask3 : Z := 0x0F.
Definition mask4 : Z := 0x07.

(** [utf8.DecodeRune]: the first rune of [p] and its width in bytes. *)
Definition DecodeRune (p : gostring) : Z * Z :=
  let n := len p in
  if n <? 1 then (RuneError, 0) else
  let p0 := at_ p 0 in
  let x := first p0 in
  if as_ <=? x then
    (if x =? as_ then p0 else RuneError, 1)
  else
  let sz := Z.land x 7 in
  let accept := acceptRanges (Z.shiftr x 4) in
  if n <? sz then (RuneError, 1) else
  let b1 := at_ p 1 in
  if (b1 <? fst accept) || (snd accept <? b1) then (RuneError, 1) else
  if sz <=? 2 then
    (Z.lor (Z.shiftl (Z.land p0 mask2) 6) (Z.land b1 maskx), 2)
  else
  let b2 := at_ p 2 in
  if (b2 <? locb) || (hicb <? b2) then (RuneError, 1) else
  if sz <=? 3 then
    (Z.lor (Z.lor (Z.shiftl (Z.land p0 mask3) 12)
                  (Z.shiftl (Z.land b1 maskx) 6))
           (Z.land b2 maskx), 3)
  else
  let b3 := at_ p 3 in
  if (b3 <? locb) || (hicb <? b3) then (RuneError, 1) else
  (Z.lor (Z.lor (Z.lor (Z.shiftl (Z.land p0 mask4) 18)
                       (Z.shiftl (Z.land b1 maskx) 12))
                (Z.shiftl (Z.land b2 maskx) 6))
         (Z.land b3 maskx), 4).

Definition tx : Z := 0x80.
Definition t2 : Z := 0xC0.
Definition t3 : Z := 0xE0.
Definition t4 : Z := 0xF0.

Definition byte_ (r : Z) : Z := Z.land r 0xFF.

(** The three-byte encoding, also used for [RuneError]. *)
Definition encode3 (r : Z) : gostring :=
  [ Z.lor t3 (byte_ (Z.shiftr r 12));
    Z.lor tx (Z.land (byte_ (Z.shiftr r 6)) maskx);
    Z.lor tx (Z.land (byte_ r) maskx) ].

(** [utf8.EncodeRune], returning the bytes written (their number is the
    Go result); [strings.Builder.WriteRune] appends the same bytes. *)
Definition EncodeRune (r : Z) : gostring :=
  let i := r mod 2 ^ 32 in
  if i <=? 0x7F then [byte_ r]
  else if i <=? 0x7FF then
    [ Z.lor t2 (byte_ (Z.shiftr r 6)); Z.lor tx (Z.land (byte_ r) maskx) ]
  else if (MaxRune <? i) || ((0xD800 <=? i) && (i <=? 0xDFFF)) then
    encode3 RuneError
  else if i <=? 0xFFFF then encode3 r
  else
    [ Z.lor t4 (byte_ (Z.shiftr r 18));
      Z.lor tx (Z.land (byte_ (Z.shiftr r 12)) maskx);
      Z.lor tx (Z.land (byte_ (Z.shiftr r 6)) maskx);
      Z.lor tx (Z.land (byte_ r) maskx) ].

(** The runes a [for _, r := range s] loop visits, in order.  Every
    step advances by the width of the decoded rune, which is at least
    one, so [length s] steps are enough. *)
Fixpoint range_aux (fuel : nat) (s : gostring) : list Z :=
  match fuel with
  | O => []
  | S fuel =>
      match s with
      | [] => []
      | _ => let '(r, size) := DecodeRune s in
             r :: range_aux fuel (drop (Z.to_nat size) s)
      end
  end.

Definition range (s : gostring) : list Z := range_aux (length s) s.

(** [utf8.EncodeRune(p, r)] as a buffer update: the buffer after the
    call and the number of bytes written. *)
Definition EncodeRuneTo (p : gostring) (r : Z) : outcome (gostring * Z) :=
  let bs := EncodeRune r in
  if len p <? len bs then Panic
  else Ok (bs ++ drop (length bs) p, len bs).

End utf8.

Module utf16.

Definition surr1 : Z := 0xd800.
Definition surr2 : Z := 0xdc00.
Definition surr3 : Z := 0xe000.
Definition surrSelf : Z := 0x10000.
Definition maxRune : Z := 0x10FFFF.
Definition replacementChar : Z := 0xFFFD.

Definition IsSurrogate (r : Z) : bool := (surr1 <=? r) && (r <? surr3).

Definition DecodeRune (r1 r2 : Z) : Z :=
  if (surr1 <=? r1) && (r1 <? surr2) && (surr2 <=? r2) && (r2 <? surr3)
  then Z.lor (Z.shiftl (r1 - surr1) 10) (r2 - surr2) + surrSelf
  else replacementChar.

Definition EncodeRune (r : Z) : Z * Z :=
  if (r <? surrSelf) || (maxRune <? r) then (replacementChar, replacementChar)
  else
    let r := r - surrSelf in
    (surr1 + Z.land (Z.shiftr r 10) 0x3ff, surr2 + Z.land r 0x3ff).

End utf16.

(** ** Package [properties] *)

Module properties.

Import utf8.

(** *** Escape codec *)

(** [p[i] = b] on a byte buffer. *)
Definition set_at (p : gostring) (i : Z) (b : Z) : outcome gostring :=
  if (0 <=? i) && (i <? len p) then Ok (<[Z.to_nat i := b]> p) else Panic.

(** One round of the digit loop of [escapeRune]: the byte for the low
    nibble of [r]. *)
Definition hexDigit (r : Z) : Z :=
  let b := Z.land 0x0f r in
  if 9 <? b then b + (97 - 10) else b + 48.

(** [for i := 5; i >= 2; i-- { ...; p[i] = b; r >>= 4 }], with [cnt]
    rounds left and [i = cnt + 1]. *)
Fixpoint escapeDigits (cnt : nat) (p : gostring) (r : Z) : outcome gostring :=
  match cnt with
  | O => Ok p
  | S cnt' =>
      p ← set_at p (Z.of_nat cnt + 1) (hexDigit r);
      escapeDigits cnt' p (Z.shiftr r 4)
  end.

(** [escapeRune(p, r)]: the buffer after the call and the number of
    bytes written.  The recursion is on the two surrogates, which are
    below 0x10000, so its depth is at most one. *)
Fixpoint escapeRune_rec (depth : nat) (p : gostring) (r : Z)
  : outcome (gostring * Z) :=
  if 0xffff <? r then
    match depth with
    | O => OutOfFuel
    | S depth =>
        let '(r1, r2) := utf16.EncodeRune r in
        '(p, n1) ← escapeRune_rec depth p r1;
        p6 ← slice_from p 6;
        '(p6, n2) ← escapeRune_rec depth p6 r2;
        Ok (take 6 p ++ p6, n1 + n2)
    end
  else if (0x20 <=? r) && (r <=? 0x7e) then Ok (p, 0)
  else
    let r := if r <? 0 then RuneError else r in
    p ← set_at p 0 92;
    p ← set_at p 1 117;
    p ← escapeDigits 4 p r;
    Ok (p, 6).

Definition escapeRune (p : gostring) (r : Z) : outcome (gostring * Z) :=
  escapeRune_rec 1 p r.

(** The digit loop of [unescapeRune],
    [for i := 2; i < n; i++ { ... }], with at most [cnt] rounds left;
    the result is [(r, n)] after the loop ([n = i] on [break]). *)
Fixpoint unescapeDigits (cnt : nat) (p : gostring) (i n r : Z) : Z * Z :=
  match cnt with
  | O => (r, n)
  | S cnt =>
      if i <? n then
        let b := at_ p i in
        if (48 <=? b) && (b <=? 57) then
          unescapeDigits cnt p (i + 1) n (Z.lor (Z.shiftl r 4) (b - 48))
        else if (97 <=? b) && (b <=? 102) then
          unescapeDigits cnt p (i + 1) n (Z.lor (Z.shiftl r 4) (b - (97 - 10)))
        else if (65 <=? b) && (b <=? 70) then
          unescapeDigits cnt p (i + 1) n (Z.lor (Z.shiftl r 4) (b - (65 - 10)))
        else (r, i)
      else (r, n)
  end.

(** [unescapeRune(p)]: the rune and the number of bytes parsed.  The
    recursive call is on [p[6:]]. *)
Fixpoint unescapeRune (p : gostring) : outcome (Z * Z) :=
  let n := len p in
  if (n <? 1) || negb (at_ p 0 =? 92) then Ok (RuneError, 0) else
  let '(r, size) := DecodeRune (drop 1 p) in
  if r =? 116 then Ok (9, 2) else
  if r =? 110 then Ok (10, 2) else
  if r =? 102 then Ok (12, 2) else
  if r =? 114 then Ok (13, 2) else
  if negb (r =? 117) then Ok (r, size + 1) else
  let n := if 6 <? n then 6 else n in
  let '(r, n) := unescapeDigits 4 p 2 n 0 in
  let r := if n <? 6 then RuneError else r in
  if utf16.IsSurrogate r then
    let q := r in
    match p with
    | _ :: _ :: _ :: _ :: _ :: _ :: p6 =>
        '(r, size) ← unescapeRune p6;
        if negb (size =? 6) || negb (utf16.IsSurrogate r)
        then Ok (RuneError, 6)
        else Ok (utf16.DecodeRune q r, 12)
    | _ => Panic
    end
  else Ok (r, n).

Definition isDelimiter (r : Z) : bool := (r =? 61) || (r =? 58).
Definition isSpace (r : Z) : bool := (r =? 9) || (r =? 12) || (r =? 32).
Definition isCommentPrefix (r : Z) : bool := (r =? 35) || (r =? 33).

(** *** Key/value splitter *)

(** How the inner loop of [unescape] is left: by its [return], or by
    running out of bytes with the loop variables as they then are. *)
Inductive separator_exit : Type :=
| Returned (n : Z)
| FellThrough (p : gostring) (n r size : Z).

(** The inner loop of [unescape], over the separator run. *)
Fixpoint skipSeparator (fuel : nat) (p : gostring) (n r size : Z)
  : outcome separator_exit :=
  match fuel with
  | O => OutOfFuel
  | S fuel =>
      if 0 <? len p then
        let '(r, size) := DecodeRune p in
        if negb (isSpace r || isDelimiter r) then Ok (Returned n)
        else
          p ← slice_from p size;
          skipSeparator fuel p (n + size) r size
      else Ok (FellThrough p n r size)
  end.

(** The outer loop of [unescape]; [b] is the builder's content. *)
Fixpoint unescape_loop (fuel : nat) (p : gostring) (split : bool)
    (b : gostring) (n : Z) : outcome (gostring * Z) :=
  match fuel with
  | O => OutOfFuel
  | S fuel =>
      if 0 <? len p then
        '(r, size) ← unescapeRune p;
        st ← (if size =? 0 then
                let '(r, size) := DecodeRune p in
                if split && (isSpace r || isDelimiter r) then
                  p ← slice_from p size;
                  skipSeparator fuel p (n + size) r size
                else Ok (FellThrough p n r size)
              else Ok (FellThrough p n r size));
        match st with
        | Returned n => Ok (b, n)
        | FellThrough p n r size =>
            let b := b ++ EncodeRune r in
            p ← slice_from p size;
            unescape_loop fuel p split b (n + size)
        end
      else Ok (b, n)
  end.

(** Every round of either loop removes at least one byte. *)
Definition unescape (p : gostring) (split : bool) : outcome (gostring * Z) :=
  unescape_loop (S (length p)) p split [] 0.

(** *** Natural-line reader *)

(** [io.EOF] and the one other error a [bufio.Reader] can report to
    [loadBytes]. *)
Inductive error : Type := EOF | ErrInvalidUnreadByte.

Definition is_EOF (e : error) : bool :=
  match e with EOF => true | _ => false end.

(** A [bufio.Reader] over an in-memory string: the bytes still to be
    read.  [UnreadByte] directly after a successful [ReadByte] puts the
    byte back and reports no error. *)
Definition Reader : Type := gostring.

Definition ReadByte (r : Reader) : Z * option error * Reader :=
  match r with
  | [] => (0, Some EOF, [])
  | x :: r => (x, None, r)
  end.

Definition UnreadByte (x : Z) (r : Reader) : option error * Reader :=
  (None, x :: r).

(** [for x == '\t' || x == '\f' || x == ' ' { x, e = r.ReadByte(); ... }] *)
Fixpoint skipBlanks (x : Z) (r : Reader) : Z * option error * Reader :=
  if (x =? 9) || (x =? 12) || (x =? 32) then
    match r with
    | [] => (0, Some EOF, [])
    | y :: r => skipBlanks y r
    end
  else (x, None, r).

(** [for x != '\n' && x != '\r' { ...; b = append(b, x); x, e = r.ReadByte(); ... }] *)
Fixpoint copyLine (x : Z) (esc : bool) (b : gostring) (r : Reader)
  : Z * bool * gostring * option error * Reader :=
  if negb (x =? 10) && negb (x =? 13) then
    let esc := if x =? 92 then negb esc else false in
    let b := b ++ [x] in
    match r with
    | [] => (0, esc, b, Some EOF, [])
    | y :: r => copyLine y esc b r
    end
  else (x, esc, b, None, r).

(** [if x == '\r' { x, e = r.ReadByte(); ...; if x != '\n' { e = r.UnreadByte(); ... } }] *)
Definition afterLine (x : Z) (r : Reader) : option error * Reader :=
  if x =? 13 then
    match ReadByte r with
    | (_, Some e, r) => (Some e, r)
    | (y, None, r) => if negb (y =? 10) then UnreadByte y r else (None, r)
    end
  else (None, r).

(** The loop [for !done] of [loadBytes], entered with [done = false]
    and [b] accumulated so far. *)
Fixpoint loadBytes_loop (fuel : nat) (b : gostring) (r : Reader)
  : outcome (gostring * option error * Reader) :=
  match fuel with
  | O => OutOfFuel
  | S fuel =>
      match ReadByte r with
      | (_, Some e, r) => Ok (b, Some e, r)
      | (x, None, r) =>
      match skipBlanks x r with
      | (_, Some e, r) => Ok (b, Some e, r)
      | (x, None, r) =>
      let done := ((x =? 35) || (x =? 33)) && (len b =? 0) in
      match copyLine x false b r with
      | (_, _, b, Some e, r) => Ok (b, Some e, r)
      | (x, esc, b, None, r) =>
      match afterLine x r with
      | (Some e, r) => Ok (b, Some e, r)
      | (None, r) =>
          if negb done then
            if esc then
              b ← slice_to b (len b - 1);
              loadBytes_loop fuel b r
            else Ok (b, None, r)
          else Ok (b, None, r)
      end end end end
  end.

(** Every round of the loop reads at least one byte. *)
Definition loadBytes (r : Reader) : outcome (gostring * option error * Reader) :=
  loadBytes_loop (S (length r)) [] r.

(** *** Tables *)

Definition loc : Type := positive.

Record Table : Type := mkTable {
  data : option (gmap gostring gostring);  (* [None] is the nil map *)
  defaults : option loc;                   (* [None] is the nil pointer *)
}.

(** The zero value [var p Table]. *)
Definition zeroTable : Table := mkTable None None.

(** The tables allocated so far; a [*Table] is a key of this map. *)
Abbreviation heap := (gmap loc Table).

Definition deref (h : heap) (p : loc) : outcome Table :=
  match h !! p with Some t => Ok t | None => Panic end.

(** The content of a map value, the nil map reading as empty. *)
Definition entries (t : Table) : gmap gostring gostring :=
  match data t with Some d => d | None => ∅ end.

(** The loop [for !done] of [Load]. *)
Fixpoint Load_loop (fuel : nat) (d : gmap gostring gostring) (count : Z)
    (reader : Reader) : outcome (gmap gostring gostring * Z * option error) :=
  match fuel with
  | O => OutOfFuel
  | S fuel =>
      '(b, e, reader) ← loadBytes reader;
      '(d, count) ←
        (if (0 <? len b) && negb (at_ b 0 =? 35) && negb (at_ b 0 =? 33) then
           '(key, i) ← unescape b true;
           bi ← slice_from b i;
           '(value, _) ← unescape bi false;
           Ok (<[key := value]> d, count + 1)
         else Ok (d, count));
      match e with
      | Some e =>
          if negb (is_EOF e) then Ok (d, count, Some e)
          else Ok (d, count, None)
      | None => Load_loop fuel d count reader
      end
  end.

(** [p.Load(r)]: every call of [loadBytes] that does not end the loop
    has read at least one byte. *)
Definition Table_Load (h : heap) (p : loc) (r : Reader)
  : outcome (heap * Z * option error) :=
  t ← deref h p;
  '(d, count, e) ← Load_loop (S (length r)) (entries t) 0 r;
  Ok (<[p := mkTable (Some d) (defaults t)]> h, count, e).

Definition Table_LoadString (h : heap) (p : loc) (s : gostring)
  : outcome (heap * Z * option error) :=
  Table_Load h p s.

(** *** Serializer *)

(** The body of the loop [for _, r = range key] of [escape]; the state
    is the output [b] and the scratch [buffer]. *)
Definition escapeKeyRune (ascii : bool) (st : gostring * gostring) (r : Z)
  : outcome (gostring * gostring) :=
  let '(b, buffer) := st in
  '(buffer, size) ← (if ascii then escapeRune buffer r else Ok (buffer, 0));
  if size =? 0 then
    if r =? 10 then Ok (b ++ [92; 110], buffer)
    else if r =? 13 then Ok (b ++ [92; 114], buffer)
    else
      let b := if isSpace r || isDelimiter r || isCommentPrefix r
               then b ++ [92] else b in
      '(buffer, size) ← EncodeRuneTo buffer r;
      w ← slice_to buffer size;
      Ok (b ++ w, buffer)
  else
    w ← slice_to buffer size;
    Ok (b ++ w, buffer).

(** The body of the loop [for _, r = range value] of [escape]. *)
Definition escapeValueRune (ascii : bool) (st : gostring * gostring) (r : Z)
  : outcome (gostring * gostring) :=
  let '(b, buffer) := st in
  '(buffer, size) ← (if ascii then escapeRune buffer r else Ok (buffer, 0));
  if size =? 0 then
    if r =? 10 then Ok (b ++ [92; 110], buffer)
    else if r =? 13 then Ok (b ++ [92; 114], buffer)
    else
      let b := if isCommentPrefix r then b ++ [92] else b in
      '(buffer, size) ← EncodeRuneTo buffer r;
      w ← slice_to buffer size;
      Ok (b ++ w, buffer)
  else
    w ← slice_to buffer size;
    Ok (b ++ w, buffer).

Definition escape (key value : gostring) (ascii : bool) : outcome gostring :=
  let buffer := replicate 12 0 in
  '(b, buffer) ← forEach (escapeKeyRune ascii) (range key) ([], buffer);
  let b := b ++ EncodeRune 61 in
  let '(r, _) := DecodeRune value in
  let b := if isSpace r || isDelimiter r then b ++ [92] else b in
  '(b, _) ← forEach (escapeValueRune ascii) (range value) (b, buffer);
  Ok b.

(** The body of the loop of [escapeComment]; the state is the output
    [b], the scratch [buffer] and [last]. *)
Definition escapeCommentRune (ascii : bool) (st : gostring * gostring * Z)
    (r : Z) : outcome (gostring * gostring * Z) :=
  let '(b, buffer, last) := st in
  if (r =? 10) || (r =? 13) then Ok (b ++ EncodeRune r, buffer, r)
  else
    let b := if ((last =? 10) || (last =? 13)) && negb (isCommentPrefix r)
             then b ++ [35] else b in
    '(buffer, size) ← (if ascii then escapeRune buffer r else Ok (buffer, 0));
    '(buffer, size) ← (if size =? 0 then EncodeRuneTo buffer r
                       else Ok (buffer, size));
    w ← slice_to buffer size;
    Ok (b ++ w, buffer, r).

Definition escapeComment (text : gostring) (ascii : bool) : outcome gostring :=
  '(b, _, _) ← forEach (escapeCommentRune ascii) (range text)
                 ([], replicate 12 0, 10);
  Ok b.

(** The body of the loop of [Store] over the pairs of the map; the
    writer [w] is an in-memory buffer, whose [Write] never fails. *)
Definition storePair (ascii : bool) (st : gostring * Z)
    (kv : gostring * gostring) : outcome (gostring * Z) :=
  let '(w, count) := st in
  line ← escape kv.1 kv.2 ascii;
  Ok (w ++ line ++ [10], count + 1).

(** [p.Store(w, ascii)].  Go leaves the order in which a map is ranged
    over unspecified; [map_to_list] is one such order. *)
Definition Table_Store (h : heap) (p : loc) (w : gostring) (ascii : bool)
  : outcome (gostring * Z * option error) :=
  t ← deref h p;
  '(w, count) ← forEach (storePair ascii) (map_to_list (entries t)) (w, 0);
  Ok (w, count, None).

Definition Table_Save (h : heap) (p : loc) (w : gostring)
    (comments : gostring) (ascii : bool)
  : outcome (gostring * Z * option error) :=
  c ← escapeComment comments ascii;
  Table_Store h p (w ++ c ++ [10]) ascii.

Definition Table_SaveString (h : heap) (p : loc) (comments : gostring)
    (ascii : bool) : outcome (gostring * option error) :=
  '(b, _, e) ← Table_Save h p [] comments ascii;
  Ok (b, e).

Definition Table_String (h : heap) (p : loc) : outcome gostring :=
  t ← deref h p;
  forEach (fun b kv => line ← escape kv.1 kv.2 false; Ok (b ++ line ++ [10]))
          (map_to_list (entries t)) [].

(** *** Table operations *)

(** [&Table{...}]: a table at a location not yet in use. *)
Definition alloc (h : heap) (t : Table) : heap * loc :=
  let p := fresh (dom h) in (<[p := t]> h, p).

Definition NewTableDefaults (h : heap) (defaults : option loc) : heap * loc :=
  alloc h (mkTable (Some ∅) defaults).

(** [NewTable(data)]: the new table holds the pairs of [data].  In Go
    it keeps the caller's map itself, which by the function's contract
    the caller does not use any more; a map shared between two tables
    is not modelled. *)
Definition NewTable (h : heap) (data : option (gmap gostring gostring))
  : heap * loc :=
  alloc h (mkTable data None).

(** [p.Lookup(key)]; the recursion follows the [defaults] pointers and
    does not end on a cyclic chain. *)
Fixpoint Lookup_rec (fuel : nat) (h : heap) (p : loc) (key : gostring)
  : outcome (gostring * bool) :=
  match fuel with
  | O => OutOfFuel
  | S fuel =>
      t ← deref h p;
      match entries t !! key with
      | Some value => Ok (value, true)
      | None =>
          match defaults t with
          | Some d =>
              '(value, found) ← Lookup_rec fuel h d key;
              if (found : bool) then Ok (value, true) else Ok ([], false)
          | None => Ok ([], false)
          end
      end
  end.

(** An acyclic chain visits every table at most once. *)
Definition Table_Lookup (h : heap) (p : loc) (key : gostring)
  : outcome (gostring * bool) :=
  Lookup_rec (S (size h)) h p key.

Definition Table_Get (h : heap) (p : loc) (key : gostring) : outcome gostring :=
  '(value, _) ← Table_Lookup h p key;
  Ok value.

Definition Table_Set (h : heap) (p : loc) (key value : gostring)
  : outcome heap :=
  t ← deref h p;
  Ok (<[p := mkTable (Some (<[key := value]> (entries t))) (defaults t)]> h).

(** [delete] on a nil map is a no-op. *)
Definition Table_Delete (h : heap) (p : loc) (key : gostring) : outcome heap :=
  t ← deref h p;
  Ok (<[p := mkTable (delete key <$> data t) (defaults t)]> h).

Definition Table_Clear (h : heap) (p : loc) : outcome heap :=
  t ← deref h p;
  Ok (<[p := mkTable (Some ∅) (defaults t)]> h).

Fixpoint ClearAll_rec (fuel : nat) (h : heap) (p : loc) : outcome heap :=
  match fuel with
  | O => OutOfFuel
  | S fuel =>
      h ← Table_Clear h p;
      t ← deref h p;
      match defaults t with
      | Some d => ClearAll_rec fuel h d
      | None => Ok h
      end
  end.

Definition Table_ClearAll (h : heap) (p : loc) : outcome heap :=
  ClearAll_rec (S (size h)) h p.

(** The loop [for p != nil] of [Keys], collecting into the set [t]. *)
Fixpoint Keys_loop (fuel : nat) (h : heap) (p : option loc)
    (t : gset gostring) : outcome (gset gostring) :=
  match fuel with
  | O => OutOfFuel
  | S fuel =>
      match p with
      | Some p =>
          tb ← deref h p;
          Keys_loop fuel h (defaults tb) (t ∪ dom (entries tb))
      | None => Ok t
      end
  end.

(** [p.Keys()], in one of the orders the final range loop may take. *)
Definition Table_Keys (h : heap) (p : loc) : outcome (list gostring) :=
  t ← Keys_loop (S (S (size h))) h (Some p) ∅;
  Ok (elements t).

(** The tables down the defaults chain of [p], nearest first, as far as
    [fuel] steps reach. *)
Fixpoint chain (fuel : nat) (h : heap) (p : loc) : list loc :=
  match fuel with
  | O => []
  | S fuel =>
      match h !! p with
      | Some t =>
          match defaults t with
          | Some d => d :: chain fuel h d
          | None => []
          end
      | None => []
      end
  end.

End properties.

(** ** Package [getopt] *)

(** [strings.IndexByte(s, c)]: the index of the first [c] in [s], or -1. *)
Fixpoint IndexByte (s : gostring) (c : Z) : Z :=
  match s with
  | [] => -1
  | x :: s => if x =? c then 0
              else let i := IndexByte s c in if i <? 0 then -1 else i + 1
  end.

(** The two error values both variants of the package declare. *)
Inductive getopt_error : Type := ErrOption | ErrNoArg.

Definition EndOption : Z := -1.

(** What a caller sees of one call: the rune, the error, and what
    [Args()] returns right after it. *)
Definition observation : Type :=
  Z * option getopt_error * outcome (list gostring).

(** [src/getopt/getopt.go]: the parser with [Next]. *)
Module getopt_next.

Record Parser : Type := mkParser {
  args : list gostring;
  optIndex : Z;
  optPos : Z;
  opts : gostring;
  hasArg : bool;
}.

Definition Args (p : Parser) : outcome (list gostring) :=
  let i := optIndex p in
  let i := if hasArg p then i + 1 else i in
  slice_from (args p) i.

(** [Next] from [b := p.args[p.optIndex][p.optPos]] to its end. *)
Definition Next_option (p : Parser) : outcome (Z * option getopt_error * Parser) :=
  s ← index (args p) (optIndex p);
  b ← index s (optPos p);
  let p := mkParser (args p) (optIndex p) (optPos p + 1) (opts p) (hasArg p) in
  let p := if len s <=? optPos p
           then mkParser (args p) (optIndex p + 1) 0 (opts p) (hasArg p)
           else p in
  if (b <=? 0x20) || (b =? 58) || (b =? 45) || (0x7f <=? b)
  then Ok (b, Some ErrOption, p)
  else
    let i := IndexByte (opts p) b in
    if i <? 0 then Ok (b, Some ErrOption, p)
    else
      let i := i + 1 in
      if (i <? len (opts p)) && (at_ (opts p) i =? 58) then
        if len (args p) <=? optIndex p then Ok (b, Some ErrNoArg, p)
        else Ok (b, None,
                 mkParser (args p) (optIndex p) (optPos p) (opts p) true)
      else Ok (b, None, p).

Definition Next (p : Parser) : outcome (Z * option getopt_error * Parser) :=
  let p := if hasArg p
           then mkParser (args p) (optIndex p + 1) 0 (opts p) false
           else p in
  if len (args p) <=? optIndex p then Ok (EndOption, None, p)
  else if optPos p =? 0 then
    s ← index (args p) (optIndex p);
    if (len s <=? 1) || negb (at_ s 0 =? 45) then Ok (EndOption, None, p)
    else if (len s =? 2) && (at_ s 1 =? 45) then
      Ok (EndOption, None,
          mkParser (args p) (optIndex p + 1) (optPos p) (opts p) (hasArg p))
    else Next_option (mkParser (args p) (optIndex p) 1 (opts p) (hasArg p))
  else Next_option p.

Definition NewParser (args : list gostring) (opts : gostring) : Parser :=
  mkParser args 1 0 opts false.

Definition OptArg (p : Parser) : outcome gostring :=
  if negb (hasArg p) then Ok []
  else s ← index (args p) (optIndex p); slice_from s (optPos p).

(** [k] successive calls of [Next], each followed by [Args()]; a panic
    ends the run. *)
Fixpoint run (k : nat) (p : Parser) : list (outcome observation) :=
  match k with
  | O => []
  | S k =>
      match Next p with
      | Ok (r, e, p) => Ok (r, e, Args p) :: run k p
      | Panic => [Panic]
      | OutOfFuel => [OutOfFuel]
      end
  end.

End getopt_next.

(** The second variant of the package: the parser with [Option] and the
    [done] flag. *)
Module getopt_option.

Record Parser : Type := mkParser {
  args : list gostring;
  optIndex : Z;
  optPos : Z;
  opts : gostring;
  hasArg : bool;
  done : bool;
}.

Definition Args (p : Parser) : outcome (list gostring) :=
  let i := optIndex p in
  let i := if hasArg p then i + 1 else i in
  slice_from (args p) i.

(** [Option] from [b := p.args[p.optIndex][p.optPos]] to its end. *)
Definition Option_option (p : Parser) : outcome (Z * option getopt_error * Parser) :=
  s ← index (args p) (optIndex p);
  b ← index s (optPos p);
  let p := mkParser (args p) (optIndex p) (optPos p + 1) (opts p) (hasArg p)
                    (done p) in
  let p := if len s <=? optPos p
           then mkParser (args p) (optIndex p + 1) 0 (opts p) (hasArg p) (done p)
           else p in
  if (b <=? 0x20) || (b =? 58) || (b =? 45) || (0x7f <=? b)
  then Ok (b, Some ErrOption, p)
  else
    let i := IndexByte (opts p) b in
    if i <? 0 then Ok (b, Some ErrOption, p)
    else
      let i := i + 1 in
      if (i <? len (opts p)) && (at_ (opts p) i =? 58) then
        if len (args p) <=? optIndex p then Ok (b, Some ErrNoArg, p)
        else Ok (b, None,
                 mkParser (args p) (optIndex p) (optPos p) (opts p) true (done p))
      else Ok (b, None, p).

Definition Option (p : Parser) : outcome (Z * option getopt_error * Parser) :=
  if done p then Ok (EndOption, None, p)
  else
  let p := if hasArg p
           then mkParser (args p) (optIndex p + 1) 0 (opts p) false (done p)
           else p in
  if len (args p) <=? optIndex p then
    Ok (EndOption, None,
        mkParser (args p) (optIndex p) (optPos p) (opts p) (hasArg p) true)
  else if optPos p =? 0 then
    s ← index (args p) (optIndex p);
    if (len s <=? 1) || negb (at_ s 0 =? 45) then
      Ok (EndOption, None,
          mkParser (args p) (optIndex p) (optPos p) (opts p) (hasArg p) true)
    else if (len s =? 2) && (at_ s 1 =? 45) then
      Ok (EndOption, None,
          mkParser (args p) (optIndex p + 1) (optPos p) (opts p) (hasArg p) true)
    else Option_option
           (mkParser (args p) (optIndex p) 1 (opts p) (hasArg p) (done p))
  else Option_option p.

Definition NewParser (args : list gostring) (opts : gostring) : Parser :=
  mkParser args 1 0 opts false false.

Definition OptArg (p : Parser) : outcome gostring :=
  if negb (hasArg p) then Ok []
  else s ← index (args p) (optIndex p); slice_from s (optPos p).

(** [k] successive calls of [Option], each followed by [Args()]; a
    panic ends the run. *)
Fixpoint run (k : nat) (p : Parser) : list (outcome observation) :=
  match k with
  | O => []
  | S k =>
      match Option p with
      | Ok (r, e, p) => Ok (r, e, Args p) :: run k p
      | Panic => [Panic]
      | OutOfFuel => [OutOfFuel]
      end
  end.

End getopt_option.

(** A run up to and including the first call that returns [EndOption]
    (or that panics). *)
Fixpoint until_end (t : list (outcome observation)) : list (outcome observation) :=
  match t with
  | [] => []
  | Ok (r, e, a) :: t =>
      if r =? EndOption then [Ok (r, e, a)] else Ok (r, e, a) :: until_end t
  | o :: _ => [o]
  end.

(** The parser with [Next] that a parser with [Option] carries inside. *)
Definition forget (q : getopt_option.Parser) : getopt_next.Parser :=
  getopt_next.mkParser (getopt_option.args q) (getopt_option.optIndex q)
    (getopt_option.optPos q) (getopt_option.opts q) (getopt_option.hasArg q).

Definition forget_result
    (o : outcome (Z * option getopt_error * getopt_option.Parser))
  : outcome (Z * option getopt_error * getopt_next.Parser) :=
  '(r, e, q) ← o; Ok (r, e, forget q).

(** [var p Table]: a heap holding one zero-valued table, at location 1. *)
Definition fresh_heap : properties.heap := {[ 1%positive := properties.zeroTable ]}.

(** The heap holding, at location 1, a table with the one pair
    [key -> value] and no defaults. *)
Definition single (key value : gostring) : properties.heap :=
  {[ 1%positive := properties.mkTable (Some {[ key := value ]}) None ]}.

(** *** Natural lines, as the specification describes them *)

(** A byte that is not part of an end-of-line sequence. *)
Definition not_eol (x : Z) : bool := negb (x =? 10) && negb (x =? 13).

(** The length of the run of backslashes at the start of [l]. *)
Fixpoint leading_backslashes (l : gostring) : nat :=
  match l with
  | x :: l => if x =? 92 then S (leading_backslashes l) else O
  | [] => O
  end.

(** The length of the run of backslashes at the end of a natural line. *)
Definition trailing_backslashes (l : gostring) : nat :=
  leading_backslashes (rev l).

(** The natural line starts with a blank. *)
Definition starts_blank (l : gostring) : bool :=
  match l with x :: _ => properties.isSpace x | [] => false end.

(** The natural line is a comment: no byte of the logical line has been
    accumulated and its first byte is [#] or [!]. *)
Definition comment_start (b l : gostring) : bool :=
  match l with
  | x :: _ => ((x =? 35) || (x =? 33)) && (len b =? 0)
  | [] => false
  end.

(** [eol] is an end-of-line sequence in front of [rest]: a line feed, a
    carriage return and a line feed, or a carriage return that another
    byte, not a line feed, follows. *)
Definition eol_before (eol rest : gostring) : bool :=
  match eol with
  | [e] =>
      (e =? 10) ||
      ((e =? 13) && match rest with y :: _ => negb (y =? 10) | [] => false end)
  | [e1; e2] => (e1 =? 13) && (e2 =? 10)
  | _ => false
  end.

(** The parity flag [esc] of [loadBytes] after the bytes [l]. *)
Definition esc_after (esc : bool) (l : gostring) : bool :=
  fold_left (fun esc x => if x =? 92 then negb esc else false) l esc.

(** *** Comment blocks, as the specification describes them *)

(** An end-of-line scalar. *)
Definition is_eol (r : Z) : bool := (r =? 10) || (r =? 13).

(** One [\uXXXX] escape: lowercase, zero-padded. *)
Definition hexEscape (r : Z) : gostring :=
  [ 92; 117;
    properties.hexDigit (Z.shiftr (Z.shiftr (Z.shiftr r 4) 4) 4);
    properties.hexDigit (Z.shiftr (Z.shiftr r 4) 4);
    properties.hexDigit (Z.shiftr r 4);
    properties.hexDigit r ].

(** Printable ASCII. *)
Definition printable (r : Z) : bool := (0x20 <=? r) && (r <=? 0x7e).

(** The ASCII-safe form of a scalar outside printable ASCII: one escape,
    or the escapes of the two surrogates above U+FFFF. *)
Definition asciiEscape (r : Z) : gostring :=
  if 0xffff <? r then
    hexEscape (utf16.EncodeRune r).1 ++ hexEscape (utf16.EncodeRune r).2
  else if printable r then []
  else hexEscape (if r <? 0 then utf8.RuneError else r).

(** The content bytes of one scalar of a comment: escaped in ASCII-safe
    mode when it is not printable ASCII, UTF-8 otherwise. *)
Definition commentRune (ascii : bool) (r : Z) : gostring :=
  if ascii && negb (printable r) then asciiEscape r else utf8.EncodeRune r.

(** The scalars of a text split into lines, each with the end-of-line
    scalar that closes it (none for the last). *)
Fixpoint split_lines (rs : list Z) : list (list Z * option Z) :=
  match rs with
  | [] => [([], None)]
  | r :: rs =>
      if is_eol r then ([], Some r) :: split_lines rs
      else match split_lines rs with
           | (l, t) :: ls => (r :: l, t) :: ls
           | [] => [([r], None)]
           end
  end.

(** The content of a line: its scalars, one after the other. *)
Definition comment_content (ascii : bool) (l : list Z) : gostring :=
  flat_map (commentRune ascii) l.

(** A line as a comment line: [#] in front unless the line is empty or
    starts with a comment prefix already. *)
Definition comment_line (ascii : bool) (l : list Z) : gostring :=
  match l with
  | [] => []
  | r :: _ =>
      (if properties.isCommentPrefix r then [] else [35])
      ++ comment_content ascii l
  end.

Definition terminator (t : option Z) : gostring :=
  match t with Some e => [e] | None => [] end.

(** The comment block as the code writes it: every line as a comment
    line, every end-of-line scalar as it is. *)
Definition comment_block (ascii : bool) (text : gostring) : gostring :=
  flat_map (fun lt => comment_line ascii lt.1 ++ terminator lt.2)
           (split_lines (utf8.range text)).

(** The comment block as the specification words it: as above, but with
    every end-of-line sequence ([\n], [\r] or [\r\n]) written as one
    [\n]. *)
Fixpoint normalize_eol (l : gostring) : gostring :=
  match l with
  | [] => []
  | x :: l' =>
      if x =? 13 then
        match l' with
        | y :: l'' => if y =? 10 then 10 :: normalize_eol l''
                      else 10 :: normalize_eol l'
        | [] => [10]
        end
      else x :: normalize_eol l'
  end.

Definition comment_block_normalized (ascii : bool) (text : gostring) : gostring :=
  normalize_eol (comment_block ascii text).

(** The rest of a comment block from the middle of a line on, or from
    the start of one. *)
Definition render_from (ascii at_start : bool) (ls : list (list Z * option Z))
  : gostring :=
  match ls with
  | [] => []
  | lt :: ls =>
      (if at_start then comment_line ascii lt.1 else comment_content ascii lt.1)
      ++ terminator lt.2
      ++ flat_map (fun lt => comment_line ascii lt.1 ++ terminator lt.2) ls
  end.

(** *** Escapes and keys, as the specification describes them *)

(** A valid hexadecimal digit, either case. *)
Definition isHexDigit (b : Z) : bool :=
  ((48 <=? b) && (b <=? 57)) || ((97 <=? b) && (b <=? 102))
  || ((65 <=? b) && (b <=? 70)).

(** The number of valid hexadecimal digits [l] starts with. *)
Fixpoint hex_run (l : gostring) : nat :=
  match l with
  | b :: l => if isHexDigit b then S (hex_run l) else O
  | [] => O
  end.

(** A scalar of the Basic Multilingual Plane that ASCII-safe mode
    escapes: not printable ASCII and, being a scalar, not a surrogate. *)
Definition bmp_escaped (r : Z) : bool :=
  (0 <=? r) && (r <=? 0xffff) && negb (printable r)
  && negb (utf16.IsSurrogate r).

(** [f] holds of the [k] integers from [z] on. *)
Fixpoint forall_from (k : nat) (z : Z) (f : Z -> bool) : bool :=
  match k with
  | O => true
  | S k => f z && forall_from k (z + 1) f
  end.

(** One escape reads back as the scalar it was written for. *)
Definition reads_back (r : Z) : bool :=
  match properties.unescapeRune (hexEscape r) with
  | Ok (r', n) => (r' =? r) && (n =? 6)
  | _ => false
  end.

(** A separator byte: a blank or a delimiter. *)
Definition isSeparator (c : Z) : bool :=
  properties.isSpace c || properties.isDelimiter c.

(** The bytes of a key as they stand in a line: a byte written as it is,
    or a byte behind a backslash. *)
Inductive key_byte : Type :=
| Plain (c : Z)
| Escaped (c : Z).

(** What may stand as it is: ASCII other than a backslash and the
    separators; and what may stand behind a backslash: ASCII other than
    the letters of the recognized escapes. *)
Definition key_byte_ok (k : key_byte) : bool :=
  match k with
  | Plain c =>
      (0 <=? c) && (c <? 128) && negb (c =? 92) && negb (isSeparator c)
  | Escaped c =>
      (0 <=? c) && (c <? 128) &&
      negb ((c =? 116) || (c =? 110) || (c =? 102) || (c =? 114) || (c =? 117))
  end.

Definition key_text (k : key_byte) : gostring :=
  match k with
  | Plain c => [c]
  | Escaped c => [92; c]
  end.

Definition key_value (k : key_byte) : Z :=
  match k with Plain c => c | Escaped c => c end.

(** *** Stored lines, as the serializer writes them *)

(** A printable ASCII byte other than the backslash. *)
Definition safe (c : Z) : bool :=
  (0x20 <=? c) && (c <=? 0x7e) && negb (c =? 92).

(** A byte of a key as [escape] writes it. *)
Definition stored_key_byte (c : Z) : key_byte :=
  if properties.isSpace c || properties.isDelimiter c
     || properties.isCommentPrefix c
  then Escaped c else Plain c.

(** A byte of a value as [escape] writes it, the first byte apart. *)
Definition stored_value_byte (c : Z) : key_byte :=
  if properties.isCommentPrefix c then Escaped c else Plain c.

(** The line [escape] writes for a pair of safe strings. *)
Definition stored_line (key value : gostring) : gostring :=
  flat_map key_text (map stored_key_byte key) ++ [61]
  ++ (match value with
      | c :: _ =>
          if properties.isSpace c || properties.isDelimiter c then [92] else []
      | [] => []
      end)
  ++ flat_map key_text (map stored_value_byte value).

(** What may stand in a value as it is when the splitter is off: ASCII
    other than a backslash. *)
Definition value_byte_ok (k : key_byte) : bool :=
  match k with
  | Plain c => (0 <=? c) && (c <? 128) && negb (c =? 92)
  | Escaped c => key_byte_ok (Escaped c)
  end.

(** The bytes of a value as [escape] writes them, the leading backslash
    included. *)
Definition stored_value (value : gostring) : list key_byte :=
  match value with
  | c :: vs =>
      (if properties.isSpace c || properties.isDelimiter c
       then Escaped c else stored_value_byte c)
      :: map stored_value_byte vs
  | [] => []
  end.

(** *** Lines that [Load] reads and [Store] writes, as the code treats them *)

(** A natural line that [Load] passes over: an empty one, or one whose
    first byte is a comment prefix. *)
Definition ignored (line : gostring) : bool :=
  match line with
  | [] => true
  | c :: _ => properties.isCommentPrefix c
  end.

(** A pair that [escape] writes so that [Load] reads it back: safe
    strings, the value not empty. *)
Definition storable (kv : gostring * gostring) : bool :=
  forallb safe kv.1 && forallb safe kv.2
  && match kv.2 with [] => false | _ :: _ => true end.

(** The lines [Store] writes for a list of such pairs. *)
Definition stored_lines (l : list (gostring * gostring)) : gostring :=
  flat_map (fun kv => stored_line kv.1 kv.2 ++ [10]) l.

(** The map after the assignments [d[key] = value], first to last. *)
Definition assign_all (d : gmap gostring gostring)
    (l : list (gostring * gostring)) : gmap gostring gostring :=
  foldl (fun d kv => <[kv.1 := kv.2]> d) d l.

(** What [escape] writes for one scalar of a key ([in_key]) or of a
    value: its escapes in ASCII-safe mode when it is not printable
    ASCII; otherwise [\n] or [\r] for an end-of-line scalar, and else
    its UTF-8 encoding, behind a backslash when it is a comment prefix
    or, in a key, a blank or a delimiter. *)
Definition escapedRune (ascii in_key : bool) (r : Z) : gostring :=
  if ascii && negb (printable r) then asciiEscape r
  else if r =? 10 then [92; 110]
  else if r =? 13 then [92; 114]
  else (if (in_key && (properties.isSpace r || properties.isDelimiter r))
           || properties.isCommentPrefix r
        then [92] else [])
       ++ utf8.EncodeRune r.

(** The line [escape] writes for a pair, scalar by scalar. *)
Definition escapedLine (key value : gostring) (ascii : bool) : gostring :=
  flat_map (escapedRune ascii true) (utf8.range key) ++ [61]
  ++ (let '(r, _) := utf8.DecodeRune value in
      if properties.isSpace r || properties.isDelimiter r then [92] else [])
  ++ flat_map (escapedRune ascii false) (utf8.range value).

(** A byte, as Go has it. *)
Definition is_byte (b : Z) : bool := (0 <=? b) && (b <? 256).

(** *** Defaults chains that end *)

(** The defaults chain of [p] is allocated and ends: [p] is a table, and
    so is every table down its chain, the last of which, at most [n]
    steps away, has no defaults. *)
Fixpoint chain_ok (n : nat) (h : properties.heap) (p : properties.loc) : bool :=
  match h !! p with
  | Some t =>
      match properties.defaults t with
      | None => true
      | Some d => match n with
                  | O => false
                  | S n => chain_ok n h d
                  end
      end
  | None => false
  end.

(** The table [Clear] leaves behind: no pairs, the same defaults. *)
Definition cleared (t : properties.Table) : properties.Table :=
  properties.mkTable (Some ∅) (properties.defaults t).

(** Two tables: the first, at 1, holds [a -> 1] and has the second, at
    2, which holds [a -> 0] and [b -> 2], as its defaults. *)
Definition two_tables : properties.heap :=
  {[ 1%positive :=
       properties.mkTable (Some {[bytes_of "a" := bytes_of "1"]})
                          (Some 2%positive);
     2%positive :=
       properties.mkTable (Some (<[bytes_of "a" := bytes_of "0"]>
                                   {[bytes_of "b" := bytes_of "2"]})) None ]}.

(** *** The state of an option parser *)

(** The state [Next] keeps between calls: the index is not negative;
    inside an argument the position is a valid index of it, past the
    dash; and an option argument that is to be skipped is there. *)
Definition parser_ok (p : getopt_next.Parser) : bool :=
  (0 <=? getopt_next.optIndex p)
  && ((getopt_next.optPos p =? 0)
      || match nth_error (getopt_next.args p)
                 (Z.to_nat (getopt_next.optIndex p)) with
         | Some s => (0 <? getopt_next.optPos p)
                     && (getopt_next.optPos p <? len s)
         | None => false
         end)
  && implb (getopt_next.hasArg p)
           (getopt_next.optIndex p <? len (getopt_next.args p)).

(** Whether the definition string [o] declares [b] as an option that
    takes an argument: the first [b] of [o] is followed by a colon. *)
Definition takes_argument (o : gostring) (b : Z) : bool :=
  let i := IndexByte o b in
  (0 <=? i) && (i + 1 <? len o) && (at_ o (i + 1) =? 58).

(** Whether the definition string [o] declares [b] as an option
    without argument. *)
Definition is_flag (o : gostring) (b : Z) : bool :=
  (0x20 <? b) && (b <? 0x7f) && negb (b =? 58) && negb (b =? 45)
  && (0 <=? IndexByte o b) && negb (takes_argument o b).

(** What a caller sees while [Next] goes through the flags [fl] of one
    argument: each flag with a nil error; [Args()] still starts at the
    argument [cur] until its last flag is returned, and then at what
    follows it. *)
Fixpoint flags_seen (cur : gostring) (more : list gostring) (fl : list Z)
  : list (outcome observation) :=
  match fl with
  | [] => []
  | b :: fl' =>
      Ok (b, None, Ok (match fl' with [] => more | _ :: _ => cur :: more end))
      :: flags_seen cur more fl'
  end.

(** *** Escapes read back, and runs held at their end *)

(** The value of a lowercase hexadecimal digit, if [b] is one. *)
Definition hexValue (b : Z) : option Z :=
  if (48 <=? b) && (b <=? 57) then Some (b - 48)
  else if (97 <=? b) && (b <=? 102) then Some (b - 97 + 10)
  else None.

(** The number that six bytes [\uXXXX], the digits lowercase, stand
    for. *)
Definition escapeValue (w : gostring) : option Z :=
  match w with
  | [b; u; d1; d2; d3; d4] =>
      if (b =? 92) && (u =? 117) then
        match hexValue d1, hexValue d2, hexValue d3, hexValue d4 with
        | Some v1, Some v2, Some v3, Some v4 =>
            Some (((v1 * 16 + v2) * 16 + v3) * 16 + v4)
        | _, _, _, _ => None
        end
      else None
  | _ => None
  end.

(** A result that says the options are over: [EndOption] with a nil
    error. *)
Definition is_end (r : Z) (e : option getopt_error) : bool :=
  (r =? EndOption) && match e with None => true | Some _ => false end.

(** A run in which the first result that says the options are over is
    repeated from then on, with the same remaining arguments. *)
Fixpoint hold_end (t : list (outcome observation))
  : list (outcome observation) :=
  match t with
  | [] => []
  | Ok (r, e, a) :: t' =>
      Ok (r, e, a)
      :: (if is_end r e then map (fun _ => Ok (r, e, a)) t' else hold_end t')
  | o :: _ => [o]
  end.

(** * Properties *)

(** ** Slices and loops *)

Lemma len_nil {A} : len (@nil A) = 0.
Proof. reflexivity. Qed.

Lemma len_cons {A} (x : A) (l : list A) : len (x :: l) = len l + 1.
Proof. unfold len. simpl length. lia. Qed.

Lemma len_app {A} (l k : list A) : len (l ++ k) = len l + len k.
Proof. unfold len. rewrite length_app. lia. Qed.

Lemma len_nonneg {A} (l : list A) : 0 <= len l.
Proof. unfold len. lia. Qed.

Lemma len_insert p i (v : Z) : len (<[i := v]> p) = len p.
Proof. unfold len. now rewrite length_insert. Qed.

Lemma len_pos {A} (p : list A) : (0 <? len p) = true -> p <> [].
Proof. intros H ->. discriminate. Qed.

Lemma len_zero {A} (p : list A) : (0 <? len p) = false -> p = [].
Proof.
  intros H. apply Z.ltb_ge in H. destruct p; [reflexivity|].
  rewrite len_cons in H. pose proof (len_nonneg p). lia.
Qed.

Lemma index_cases {A} (p : list A) i :
  index p i = Panic \/ exists x, index p i = Ok x.
Proof.
  unfold index. destruct ((0 <=? i) && (i <? len p)); [|now left].
  destruct (nth_error p (Z.to_nat i)); [right; eauto|now left].
Qed.

Lemma slice_to_app {A} (l k : list A) : slice_to (l ++ k) (len l) = Ok l.
Proof.
  unfold slice_to. rewrite len_app.
  pose proof (len_nonneg l). pose proof (len_nonneg k).
  replace ((0 <=? len l) && (len l <=? len l + len k)) with true
    by (symmetry; apply andb_true_iff; split; lia).
  f_equal. unfold len. rewrite Nat2Z.id. apply take_app_length.
Qed.

Lemma slice_from_app {A} (l k : list A) : slice_from (l ++ k) (len l) = Ok k.
Proof.
  unfold slice_from. rewrite len_app.
  pose proof (len_nonneg l). pose proof (len_nonneg k).
  replace ((0 <=? len l) && (len l <=? len l + len k)) with true
    by (symmetry; apply andb_true_iff; split; lia).
  f_equal. unfold len. rewrite Nat2Z.id. apply drop_app_length.
Qed.

Lemma slice_from_cons {A} (x : A) l : slice_from (x :: l) 1 = Ok l.
Proof. apply (slice_from_app [x] l). Qed.

Lemma slice_from_ok {A} (p : list A) i :
  0 <= i <= len p -> slice_from p i = Ok (drop (Z.to_nat i) p).
Proof.
  intros H. unfold slice_from.
  now replace ((0 <=? i) && (i <=? len p)) with true
    by (symmetry; apply andb_true_iff; split; lia).
Qed.

Lemma slice_from_nil {A} i : 1 <= i -> slice_from (@nil A) i = Panic.
Proof.
  intros H. unfold slice_from. change (len (@nil A)) with 0.
  replace (i <=? 0) with false by (symmetry; apply Z.leb_gt; lia).
  now rewrite andb_false_r.
Qed.

Lemma length_drop_Z {A} (p : list A) i :
  1 <= i <= len p -> (length (drop (Z.to_nat i) p) < length p)%nat.
Proof. intros H. rewrite length_drop. unfold len in H. lia. Qed.

Lemma at_app pre b l : at_ (pre ++ b :: l) (len pre) = b.
Proof.
  unfold at_, len. rewrite Nat2Z.id.
  rewrite app_nth2 by lia. now rewrite Nat.sub_diag.
Qed.

Lemma bind_Ok {A B} (a : A) (k : A -> outcome B) : (Ok a ≫= k) = k a.
Proof. reflexivity. Qed.

Lemma forEach_cons {A S} (body : S -> A -> outcome S) x l s :
  forEach body (x :: l) s = (s ← body s x; forEach body l s).
Proof. reflexivity. Qed.

Lemma forall_from_spec k : forall z f,
  forall_from k z f = true ->
  forall x, z <= x < z + Z.of_nat k -> f x = true.
Proof.
  induction k as [|k IH]; intros z f H x Hx; [lia|].
  simpl in H. apply andb_true_iff in H as [Hz Hk].
  destruct (Z.eq_dec x z) as [->|Hne]; [exact Hz|].
  apply (IH (z + 1) f Hk). lia.
Qed.

(** ** UTF-8 *)

Lemma DecodeRune_nil : utf8.DecodeRune [] = (utf8.RuneError, 0).
Proof. reflexivity. Qed.

Lemma DecodeRune_ascii c rest :
  0 <= c < 128 -> utf8.DecodeRune (c :: rest) = (c, 1).
Proof.
  intros Hc. unfold utf8.DecodeRune.
  rewrite len_cons. pose proof (len_nonneg rest).
  replace (len rest + 1 <? 1) with false by (symmetry; apply Z.ltb_ge; lia).
  change (at_ (c :: rest) 0) with c. unfold utf8.first.
  replace (c <? 128) with true by (symmetry; apply Z.ltb_lt; lia).
  reflexivity.
Qed.

(** The width [DecodeRune] reports: at least one byte of a non-empty
    input, at most four, and never more than there are. *)
Lemma DecodeRune_size p :
  p <> [] ->
  1 <= (utf8.DecodeRune p).2 <= 4 /\ (utf8.DecodeRune p).2 <= len p.
Proof.
  intros Hp. destruct p as [|p0 p]; [contradiction|].
  unfold utf8.DecodeRune. rewrite len_cons. pose proof (len_nonneg p).
  replace (len p + 1 <? 1) with false by (symmetry; apply Z.ltb_ge; lia).
  change (at_ (p0 :: p) 0) with p0. unfold utf8.first.
  repeat match goal with
         | |- context [if ?c then _ else _] =>
             lazymatch c with
             | context [if _ then _ else _] => fail
             | _ => destruct c eqn:?
             end; cbn -[len at_ Z.lor Z.shiftl Z.land]
         end;
    repeat match goal with H : (_ <? _) = false |- _ => apply Z.ltb_ge in H end;
    repeat match goal with
           | H : context [Z.land ?a 7] |- _ =>
               let v := eval vm_compute in (Z.land a 7) in
               change (Z.land a 7) with v in H
           end;
    simpl; lia.
Qed.

Lemma EncodeRune_length r : (length (utf8.EncodeRune r) <= 4)%nat.
Proof.
  unfold utf8.EncodeRune, utf8.encode3.
  repeat match goal with |- context [if ?c then _ else _] => destruct c end;
    simpl; lia.
Qed.

Lemma EncodeRune_ascii c : 0 <= c < 128 -> utf8.EncodeRune c = [c].
Proof.
  intros Hc. unfold utf8.EncodeRune, utf8.byte_.
  rewrite Z.mod_small by lia.
  replace (c <=? 127) with true by (symmetry; apply Z.leb_le; lia).
  change 255 with (Z.ones 8). rewrite Z.land_ones by lia.
  now rewrite Z.mod_small by lia.
Qed.

Lemma EncodeRuneTo_ok buffer r :
  length buffer = 12%nat ->
  exists buffer', utf8.EncodeRuneTo buffer r = Ok (buffer', len (utf8.EncodeRune r)) /\
                  length buffer' = 12%nat /\
                  slice_to buffer' (len (utf8.EncodeRune r)) = Ok (utf8.EncodeRune r).
Proof.
  intros Hlen. unfold utf8.EncodeRuneTo.
  pose proof (EncodeRune_length r) as H4.
  replace (len buffer <? len (utf8.EncodeRune r)) with false
    by (symmetry; apply Z.ltb_ge; unfold len; lia).
  eexists. split; [reflexivity|]. split.
  - rewrite length_app, length_drop. lia.
  - apply slice_to_app.
Qed.

(** ** The escape codec: writing *)

Section Escape.

Import properties.

#[local] Arguments hexDigit : simpl never.
#[local] Arguments Z.shiftr : simpl never.

Lemma set_at_insert p i v :
  0 <= i < len p -> set_at p i v = Ok (<[Z.to_nat i := v]> p).
Proof.
  intros H. unfold set_at.
  now replace ((0 <=? i) && (i <? len p)) with true
    by (symmetry; apply andb_true_iff; split; lia).
Qed.

(** Writing one escape into a buffer of at least six bytes. *)
Lemma escape_unit p r :
  (6 <= length p)%nat ->
  (p0 ← set_at p 0 92; p1 ← set_at p0 1 117; p2 ← escapeDigits 4 p1 r; Ok (p2, 6))
  = Ok (hexEscape r ++ drop 6 p, 6).
Proof.
  intros H. unfold escapeDigits.
  repeat (rewrite set_at_insert
            by (rewrite ?len_insert; unfold len; simpl; lia);
          simpl mbind; unfold mbind, outcome_bind).
  destruct p as [|b0 [|b1 [|b2 [|b3 [|b4 [|b5 p]]]]]]; simpl in H; try lia.
  reflexivity.
Qed.

Lemma hexEscape_length r : length (hexEscape r) = 6%nat.
Proof. reflexivity. Qed.

Lemma surrogates_range r :
  let r1 := (utf16.EncodeRune r).1 in
  let r2 := (utf16.EncodeRune r).2 in
  (r1 <=? 0xffff) = true /\ (r2 <=? 0xffff) = true /\
  printable r1 = false /\ printable r2 = false /\
  (r1 <? 0) = false /\ (r2 <? 0) = false.
Proof.
  unfold utf16.EncodeRune, printable.
  destruct ((r <? utf16.surrSelf) || (utf16.maxRune <? r)); simpl.
  - repeat split.
  - change 1023 with (Z.ones 10). rewrite !Z.land_ones by lia.
    pose proof (Z.mod_pos_bound (Z.shiftr (r - utf16.surrSelf) 10) (2 ^ 10)).
    pose proof (Z.mod_pos_bound (r - utf16.surrSelf) (2 ^ 10)).
    unfold utf16.surr1, utf16.surr2.
    repeat split; try (apply Z.leb_le; lia); try (apply Z.ltb_ge; lia);
      apply andb_false_iff; right; apply Z.leb_gt; lia.
Qed.

Lemma escapeRune_rec_eq depth p r :
  escapeRune_rec depth p r
  = if 0xffff <? r then
      match depth with
      | O => OutOfFuel
      | S depth =>
          let '(r1, r2) := utf16.EncodeRune r in
          '(p, n1) ← escapeRune_rec depth p r1;
          p6 ← slice_from p 6;
          '(p6, n2) ← escapeRune_rec depth p6 r2;
          Ok (take 6 p ++ p6, n1 + n2)
      end
    else if (0x20 <=? r) && (r <=? 0x7e) then Ok (p, 0)
    else
      let r := if r <? 0 then utf8.RuneError else r in
      p ← set_at p 0 92;
      p ← set_at p 1 117;
      p ← escapeDigits 4 p r;
      Ok (p, 6).
Proof. destruct depth; reflexivity. Qed.

Lemma escapeRune_rec_unit p r :
  (6 <= length p)%nat ->
  (r <=? 0xffff) = true -> printable r = false -> (r <? 0) = false ->
  escapeRune_rec 0 p r = Ok (hexEscape r ++ drop 6 p, 6).
Proof.
  intros Hp H1 H2 H3. rewrite escapeRune_rec_eq.
  apply Z.leb_le in H1. replace (65535 <? r) with false
    by (symmetry; apply Z.ltb_ge; lia).
  unfold printable in H2. rewrite H2, H3. now apply escape_unit.
Qed.

(** [escapeRune] on the scratch buffer: it writes the ASCII-safe form of
    [r] at the front and leaves the buffer twelve bytes long. *)
Lemma escapeRune_ok buffer r :
  length buffer = 12%nat ->
  exists buffer', escapeRune buffer r = Ok (buffer', len (asciiEscape r)) /\
                  length buffer' = 12%nat /\
                  slice_to buffer' (len (asciiEscape r)) = Ok (asciiEscape r).
Proof.
  intros Hlen. unfold escapeRune, asciiEscape.
  rewrite escapeRune_rec_eq.
  destruct (65535 <? r) eqn:Hbig.
  - destruct (surrogates_range r) as (H1 & H2 & H3 & H4 & H5 & H6).
    destruct (utf16.EncodeRune r) as [r1 r2]. cbn [fst snd] in *.
    rewrite escapeRune_rec_unit by (try assumption; lia).
    rewrite bind_Ok. cbv beta iota zeta.
    change 6 with (len (hexEscape r1)) at 1.
    rewrite slice_from_app, bind_Ok.
    rewrite escapeRune_rec_unit by (try assumption; rewrite length_drop; lia).
    rewrite bind_Ok. cbv beta iota zeta.
    rewrite (take_app_length' (hexEscape r1)) by reflexivity.
    eexists. split; [reflexivity|]. split.
    + rewrite !length_app, !length_drop. simpl. lia.
    + rewrite app_assoc. apply slice_to_app.
  - fold (printable r). destruct (printable r) eqn:Hp.
    + exists buffer. split; [reflexivity|]. split; [assumption|].
      apply (slice_to_app [] buffer).
    + rewrite escape_unit by lia.
      eexists. split; [reflexivity|]. split.
      * rewrite length_app, length_drop. simpl. lia.
      * apply slice_to_app.
Qed.

Lemma asciiEscape_nonempty r : printable r = false -> (len (asciiEscape r) =? 0) = false.
Proof.
  intros Hp. unfold asciiEscape. rewrite Hp.
  destruct (65535 <? r); reflexivity.
Qed.

Lemma asciiEscape_printable r : printable r = true -> asciiEscape r = [].
Proof.
  intros Hp. unfold asciiEscape. rewrite Hp.
  unfold printable in Hp. apply andb_true_iff in Hp as [_ Hp].
  apply Z.leb_le in Hp.
  now replace (65535 <? r) with false by (symmetry; apply Z.ltb_ge; lia).
Qed.

End Escape.

(** ** The escape codec: reading *)

Section Unescape.

Import properties.

Lemma unescapeRune_eq p :
  unescapeRune p
  = let n := len p in
    if (n <? 1) || negb (at_ p 0 =? 92) then Ok (utf8.RuneError, 0) else
    let '(r, size) := utf8.DecodeRune (drop 1 p) in
    if r =? 116 then Ok (9, 2) else
    if r =? 110 then Ok (10, 2) else
    if r =? 102 then Ok (12, 2) else
    if r =? 114 then Ok (13, 2) else
    if negb (r =? 117) then Ok (r, size + 1) else
    let n := if 6 <? n then 6 else n in
    let '(r, n) := unescapeDigits 4 p 2 n 0 in
    let r := if n <? 6 then utf8.RuneError else r in
    if utf16.IsSurrogate r then
      let q := r in
      match p with
      | _ :: _ :: _ :: _ :: _ :: _ :: p6 =>
          '(r, size) ← unescapeRune p6;
          if negb (size =? 6) || negb (utf16.IsSurrogate r)
          then Ok (utf8.RuneError, 6)
          else Ok (utf16.DecodeRune q r, 12)
      | _ => Panic
      end
    else Ok (r, n).
Proof. destruct p; reflexivity. Qed.

Lemma unescapeDigits_bounds cnt : forall p i n r,
  i <= n -> i <= (unescapeDigits cnt p i n r).2 <= n.
Proof.
  induction cnt as [|cnt IH]; intros p i n r Hin; simpl; [lia|].
  destruct (i <? n) eqn:Hlt; [|simpl; lia].
  apply Z.ltb_lt in Hlt.
  repeat match goal with
         | |- context [if ?c then _ else _] => destruct c
         end;
    try (specialize (IH p (i + 1) n); 
         match goal with
         | |- context [unescapeDigits cnt p (i + 1) n ?r'] =>
             specialize (IH r' ltac:(lia)); lia
         end);
    simpl; lia.
Qed.

(** [unescapeRune] always returns; it consumes at most six bytes, never
    more than there are, and with six bytes it never returns a
    surrogate: the branch that combines a surrogate pair and reports
    twelve bytes is dead. *)
Lemma unescapeRune_total p :
  exists r n, unescapeRune p = Ok (r, n) /\
              0 <= n <= 6 /\ n <= len p /\
              (n = 6 -> utf16.IsSurrogate r = false) /\
              (n = 0 -> p = [] \/ at_ p 0 <> 92).
Proof.
  remember (length p) as k eqn:Hk. revert p Hk.
  induction k as [k IH] using lt_wf_ind. intros p Hk.
  rewrite unescapeRune_eq. cbv zeta.
  pose proof (len_nonneg p) as Hlen0.
  destruct ((len p <? 1) || negb (at_ p 0 =? 92)) eqn:H0.
  { exists utf8.RuneError, 0. repeat split; try lia. intros _.
    apply orb_true_iff in H0 as [H0|H0].
    - left. apply Z.ltb_lt in H0. destruct p; [reflexivity|].
      rewrite len_cons in H0. pose proof (len_nonneg p). lia.
    - right. apply negb_true_iff, Z.eqb_neq in H0. exact H0. }
  apply orb_false_iff in H0 as [Hlen1 _]. apply Z.ltb_ge in Hlen1.
  destruct p as [|p0 p1]; [rewrite len_nil in Hlen1; lia|].
  rewrite len_cons in *. change (drop 1 (p0 :: p1)) with p1.
  assert (Hdec : (p1 = [] /\ utf8.DecodeRune p1 = (utf8.RuneError, 0)) \/
                 (1 <= (utf8.DecodeRune p1).2 <= 4 /\
                  (utf8.DecodeRune p1).2 <= len p1)).
  { destruct p1 as [|p1' p1'']; [left; split; reflexivity|].
    right. apply DecodeRune_size. discriminate. }
  destruct (utf8.DecodeRune p1) as [r size] eqn:Hd. simpl in Hdec.
  assert (Hr2 : r <> utf8.RuneError -> 1 <= size <= 4 /\ size <= len p1).
  { intros Hne. destruct Hdec as [[_ Heq]|Hdec]; [|exact Hdec].
    injection Heq as Hr _. congruence. }
  assert (Hsz : 0 <= size <= 4 /\ size <= len p1).
  { destruct Hdec as [[_ Heq]|Hdec]; [|lia].
    injection Heq as _ Hs. pose proof (len_nonneg p1). lia. }
  destruct (r =? 116) eqn:E1.
  { apply Z.eqb_eq in E1. subst r. exists 9, 2.
    destruct Hr2; [discriminate|]. repeat split; lia. }
  destruct (r =? 110) eqn:E2.
  { apply Z.eqb_eq in E2. subst r. exists 10, 2.
    destruct Hr2; [discriminate|]. repeat split; lia. }
  destruct (r =? 102) eqn:E3.
  { apply Z.eqb_eq in E3. subst r. exists 12, 2.
    destruct Hr2; [discriminate|]. repeat split; lia. }
  destruct (r =? 114) eqn:E4.
  { apply Z.eqb_eq in E4. subst r. exists 13, 2.
    destruct Hr2; [discriminate|]. repeat split; lia. }
  destruct (r =? 117) eqn:E5; simpl negb; cbv iota.
  2:{ exists r, (size + 1). repeat split; lia. }
  apply Z.eqb_eq in E5. subst r. destruct Hr2 as [Hs1 Hs2]; [discriminate|].
  set (n0 := if 6 <? len p1 + 1 then 6 else len p1 + 1).
  assert (Hn0 : 2 <= n0 <= 6 /\ n0 <= len p1 + 1).
  { subst n0. destruct (6 <? len p1 + 1) eqn:H6;
      [apply Z.ltb_lt in H6|apply Z.ltb_ge in H6]; lia. }
  pose proof (unescapeDigits_bounds 4 (p0 :: p1) 2 n0 0 ltac:(lia)) as Hb.
  destruct (unescapeDigits 4 (p0 :: p1) 2 n0 0) as [r' n']. simpl in Hb.
  destruct (n' <? 6) eqn:Hn6.
  { change (utf16.IsSurrogate utf8.RuneError) with false. cbv iota.
    apply Z.ltb_lt in Hn6. exists utf8.RuneError, n'. repeat split; lia. }
  apply Z.ltb_ge in Hn6.
  destruct (utf16.IsSurrogate r') eqn:Hsur.
  2:{ exists r', n'. repeat split; try lia. intros _. exact Hsur. }
  destruct p1 as [|? [|? [|? [|? [|? p6]]]]];
    try (repeat rewrite len_cons in Hn0; rewrite ?len_nil in Hn0; lia).
  destruct (IH (length p6) ltac:(subst k; simpl; lia) p6 eq_refl)
    as (r6 & n6 & -> & _ & _ & H66 & _).
  rewrite bind_Ok. cbv beta iota zeta.
  exists utf8.RuneError, 6.
  replace (negb (n6 =? 6) || negb (utf16.IsSurrogate r6)) with true.
  - repeat rewrite len_cons. pose proof (len_nonneg p6).
    repeat split; try lia.
  - symmetry. destruct (n6 =? 6) eqn:E6; [|reflexivity].
    apply Z.eqb_eq in E6. rewrite (H66 E6). reflexivity.
Qed.

(** No input makes [unescapeRune] consume twelve bytes, so no scalar
    above U+FFFF is ever read back from its two escapes. *)
Lemma unescapeRune_never_twelve p r : unescapeRune p <> Ok (r, 12).
Proof.
  destruct (unescapeRune_total p) as (r' & n & -> & Hn & _).
  intros [= _ ->]. lia.
Qed.

(** The digit loop stops at the first byte that is not a digit. *)
Lemma unescapeDigits_run cnt : forall pre l (m : nat) r,
  (m <= length l)%nat -> (m <= cnt)%nat ->
  (unescapeDigits cnt (pre ++ l) (len pre) (len pre + Z.of_nat m) r).2
  = len pre + Z.of_nat (hex_run (take m l)).
Proof.
  induction cnt as [|cnt IH]; intros pre l m r Hl Hc.
  - assert (m = 0%nat) as -> by lia. simpl. lia.
  - simpl unescapeDigits. destruct m as [|m].
    + replace (len pre <? len pre + Z.of_nat 0) with false
        by (symmetry; apply Z.ltb_ge; lia). simpl. lia.
    + replace (len pre <? len pre + Z.of_nat (S m)) with true
        by (symmetry; apply Z.ltb_lt; lia).
      destruct l as [|b l]; [simpl in Hl; lia|].
      rewrite at_app. simpl take. simpl hex_run. unfold isHexDigit.
      assert (Hnext : forall r',
                (unescapeDigits cnt (pre ++ b :: l) (len pre + 1)
                   (len pre + Z.of_nat (S m)) r').2
                = len pre + Z.of_nat (S (hex_run (take m l)))).
      { intros r'.
        replace (pre ++ b :: l) with ((pre ++ [b]) ++ l)
          by (now rewrite <- app_assoc).
        replace (len pre + 1) with (len (pre ++ [b]))
          by (rewrite len_app; reflexivity).
        replace (len pre + Z.of_nat (S m)) with (len (pre ++ [b]) + Z.of_nat m)
          by (rewrite len_app; change (len [b]) with 1; lia).
        rewrite IH by (simpl in Hl; lia).
        rewrite len_app. change (len [b]) with 1. lia. }
      destruct ((48 <=? b) && (b <=? 57)); [apply Hnext|].
      destruct ((97 <=? b) && (b <=? 102)); [apply Hnext|].
      destruct ((65 <=? b) && (b <=? 70)); [apply Hnext|].
      simpl. lia.
Qed.

(** C3, as it holds by design: for every byte sequence that begins with
    backslash [u] followed by fewer than four valid hexadecimal digits,
    [unescapeRune] returns the replacement scalar and reports the bytes
    it parsed, two for [\u] and one for each valid digit, so between two
    and five and never six. *)
Theorem unescapeRune_short rest :
  (hex_run (take 4 rest) < 4)%nat ->
  unescapeRune (92 :: 117 :: rest)
  = Ok (utf8.RuneError, 2 + Z.of_nat (hex_run (take 4 rest))).
Proof.
  intros Hshort. rewrite unescapeRune_eq. cbv zeta.
  rewrite !len_cons. pose proof (len_nonneg rest) as Hrest.
  replace (len rest + 1 + 1 <? 1) with false by (symmetry; apply Z.ltb_ge; lia).
  change (at_ (92 :: 117 :: rest) 0) with 92. simpl orb. cbv iota.
  change (drop 1 (92 :: 117 :: rest)) with (117 :: rest).
  rewrite DecodeRune_ascii by lia. simpl Z.eqb. simpl negb. cbv iota.
  set (n0 := if 6 <? len rest + 1 + 1 then 6 else len rest + 1 + 1).
  set (m := Nat.min 4 (length rest)).
  assert (Hn0 : n0 = len [92; 117] + Z.of_nat m).
  { subst n0 m. change (len [92; 117]) with 2. unfold len in *.
    destruct (6 <? Z.of_nat (length rest) + 1 + 1) eqn:H6;
      [apply Z.ltb_lt in H6|apply Z.ltb_ge in H6]; lia. }
  pose proof (unescapeDigits_run 4 [92; 117] rest m 0 ltac:(lia) ltac:(lia)) as Hrun.
  rewrite <- Hn0 in Hrun. change (len [92; 117]) with 2 in Hrun.
  change ([92; 117] ++ rest) with (92 :: 117 :: rest) in Hrun.
  assert (Htake : take m rest = take 4 rest).
  { subst m. destruct (Nat.le_ge_cases 4 (length rest)).
    - now rewrite Nat.min_l.
    - rewrite Nat.min_r by lia. now rewrite !take_ge by lia. }
  rewrite Htake in Hrun.
  destruct (unescapeDigits 4 (92 :: 117 :: rest) 2 n0 0) as [r n]. simpl in Hrun.
  subst n.
  replace (2 + Z.of_nat (hex_run (take 4 rest)) <? 6) with true
    by (symmetry; apply Z.ltb_lt; lia).
  reflexivity.
Qed.

Lemma unescapeRune_plain c rest :
  c <> 92 -> unescapeRune (c :: rest) = Ok (utf8.RuneError, 0).
Proof.
  intros Hc. rewrite unescapeRune_eq. cbv zeta.
  change (at_ (c :: rest) 0) with c.
  replace (c =? 92) with false by (symmetry; now apply Z.eqb_neq).
  now rewrite orb_true_r.
Qed.

Lemma unescapeRune_escaped c rest :
  key_byte_ok (Escaped c) = true ->
  unescapeRune (92 :: c :: rest) = Ok (c, 2).
Proof.
  intros Hc. simpl in Hc.
  apply andb_true_iff in Hc as [Hc Hl]. apply andb_true_iff in Hc as [H0 H1].
  apply Z.leb_le in H0. apply Z.ltb_lt in H1.
  apply negb_true_iff in Hl.
  repeat (apply orb_false_iff in Hl as [Hl ?]).
  rewrite unescapeRune_eq. cbv zeta.
  rewrite !len_cons. pose proof (len_nonneg rest).
  replace (len rest + 1 + 1 <? 1) with false by (symmetry; apply Z.ltb_ge; lia).
  change (at_ (92 :: c :: rest) 0) with 92. simpl orb. cbv iota.
  change (drop 1 (92 :: c :: rest)) with (c :: rest).
  rewrite DecodeRune_ascii by lia.
  repeat match goal with H : (c =? _) = false |- _ => rewrite H; clear H end.
  reflexivity.
Qed.

Lemma reads_back_all :
  forall_from (Z.to_nat 65536) 0
    (fun r => implb (bmp_escaped r) (reads_back r)) = true.
Proof. vm_compute. reflexivity. Qed.

(** X3. Every escaped scalar of the Basic Multilingual Plane makes the round
    trip: [escapeRune] writes its one escape, and [unescapeRune] reads
    the scalar back with the six bytes consumed. *)
Lemma escapeRune_unescapeRune_bmp r :
  bmp_escaped r = true ->
  escapeRune (replicate 12 0) r = Ok (hexEscape r ++ replicate 6 0, 6) /\
  unescapeRune (hexEscape r) = Ok (r, 6).
Proof.
  intros Hr. split.
  - unfold bmp_escaped in Hr.
    apply andb_true_iff in Hr as [Hr _]. apply andb_true_iff in Hr as [Hr Hp].
    apply andb_true_iff in Hr as [H0 H1]. apply negb_true_iff in Hp.
    unfold escapeRune. rewrite escapeRune_rec_eq.
    apply Z.leb_le in H0, H1.
    replace (65535 <? r) with false by (symmetry; apply Z.ltb_ge; lia).
    unfold printable in Hp. rewrite Hp.
    replace (r <? 0) with false by (symmetry; apply Z.ltb_ge; lia).
    reflexivity.
  - assert (Hrange : 0 <= r < 0 + Z.of_nat (Z.to_nat 65536)).
    { unfold bmp_escaped in Hr.
      apply andb_true_iff in Hr as [Hr _]. apply andb_true_iff in Hr as [Hr _].
      apply andb_true_iff in Hr as [H0 H1]. apply Z.leb_le in H0, H1. lia. }
    pose proof (forall_from_spec _ _ _ reads_back_all r Hrange) as H.
    cbv beta in H. rewrite Hr in H. simpl in H. unfold reads_back in H.
    destruct (unescapeRune (hexEscape r)) as [[r' n]| |]; try discriminate.
    apply andb_true_iff in H as [Hr' Hn].
    apply Z.eqb_eq in Hr', Hn. now subst.
Qed.

End Unescape.

(** The escape [\u12zz]: two valid digits, four bytes consumed. *)
Lemma unescapeRune_short_witness :
  (hex_run (take 4 (bytes_of "12zz")) < 4)%nat /\
  properties.unescapeRune (92 :: 117 :: bytes_of "12zz")
  = Ok (utf8.RuneError, 2 + Z.of_nat (hex_run (take 4 (bytes_of "12zz")))).
Proof.
  assert (H : (hex_run (take 4 (bytes_of "12zz")) < 4)%nat) by (vm_compute; lia).
  split; [exact H|]. exact (unescapeRune_short (bytes_of "12zz") H).
Defined.

(** C3 as stated fails: with two valid digits after [\u] the replacement
    scalar comes with four bytes consumed, not six. *)
Lemma unescapeRune_short_escape :
  properties.unescapeRune (bytes_of "\u12zz") = Ok (utf8.RuneError, 4) /\
  properties.unescapeRune (bytes_of "\u12zz") <> Ok (utf8.RuneError, 6).
Proof. split; [vm_compute; reflexivity|vm_compute; discriminate]. Qed.

(** C4 fails on the code: the recursive call on the low surrogate takes
    the surrogate branch itself and reports a replacement scalar, so the
    pair is never combined. *)
Theorem unescapeRune_surrogate_pair :
  properties.unescapeRune (bytes_of "\ud83d\ude00") = Ok (utf8.RuneError, 6).
Proof. vm_compute; reflexivity. Qed.

(** C8 fails on the code for scalars above U+FFFF: U+1F600 is written as
    the two escapes [\ud83d\ude00], and reading them back gives a
    replacement scalar with six bytes consumed.  The euro sign does make
    the round trip. *)
Theorem escapeRune_unescapeRune_grin :
  properties.escapeRune (replicate 12 0) 0x1F600
  = Ok (bytes_of "\ud83d\ude00", 12) /\
  properties.unescapeRune (bytes_of "\ud83d\ude00") = Ok (utf8.RuneError, 6) /\
  properties.escapeRune (replicate 12 0) 0x20AC
  = Ok (bytes_of "\u20ac" ++ replicate 6 0, 6) /\
  properties.unescapeRune (bytes_of "\u20ac") = Ok (0x20AC, 6).
Proof. repeat split; vm_compute; reflexivity. Qed.

(** ** The key/value splitter *)

Section Splitter.

Import properties.

Lemma skipSeparator_eq fuel p n r size :
  skipSeparator (S fuel) p n r size
  = if 0 <? len p then
      let '(r, size) := utf8.DecodeRune p in
      if negb (isSpace r || isDelimiter r) then Ok (Returned n)
      else
        p ← slice_from p size;
        skipSeparator fuel p (n + size) r size
    else Ok (FellThrough p n r size).
Proof. reflexivity. Qed.

Lemma unescape_loop_eq fuel p split b n :
  unescape_loop (S fuel) p split b n
  = if 0 <? len p then
      '(r, size) ← unescapeRune p;
      st ← (if size =? 0 then
              let '(r, size) := utf8.DecodeRune p in
              if split && (isSpace r || isDelimiter r) then
                p ← slice_from p size;
                skipSeparator fuel p (n + size) r size
              else Ok (FellThrough p n r size)
            else Ok (FellThrough p n r size));
      match st with
      | Returned n => Ok (b, n)
      | FellThrough p n r size =>
          let b := b ++ utf8.EncodeRune r in
          p ← slice_from p size;
          unescape_loop fuel p split b (n + size)
      end
    else Ok (b, n).
Proof. reflexivity. Qed.

(** The separator loop returns, or runs off the end of the input with a
    width of at least one byte in hand. *)
Lemma skipSeparator_ok fuel : forall p n r size,
  (length p < fuel)%nat -> 1 <= size ->
  exists res, skipSeparator fuel p n r size = Ok res /\
              match res with
              | Returned _ => True
              | FellThrough p' _ _ size' => p' = [] /\ 1 <= size'
              end.
Proof.
  induction fuel as [|fuel IH]; intros p n r size Hfuel Hsize; [lia|].
  rewrite skipSeparator_eq. destruct (0 <? len p) eqn:Hp.
  - apply len_pos in Hp. pose proof (DecodeRune_size p Hp) as Hd.
    destruct (utf8.DecodeRune p) as [r' size']. simpl in Hd.
    destruct (negb (isSpace r' || isDelimiter r'));
      [eexists; split; [reflexivity|exact I]|].
    rewrite slice_from_ok by lia. rewrite bind_Ok.
    apply IH; [|lia]. pose proof (length_drop_Z p size' ltac:(lia)). lia.
  - apply len_zero in Hp. subst p. eexists. split; [reflexivity|].
    split; [reflexivity|exact Hsize].
Qed.

(** The splitter never runs out of fuel, and it panics only when it is
    asked to split. *)
Lemma unescape_loop_ok fuel : forall p split b n,
  (length p < fuel)%nat ->
  match unescape_loop fuel p split b n with
  | Ok _ => True
  | Panic => split = true
  | OutOfFuel => False
  end.
Proof.
  induction fuel as [|fuel IH]; intros p split b n Hfuel; [lia|].
  rewrite unescape_loop_eq. destruct (0 <? len p) eqn:Hp; [|exact I].
  apply len_pos in Hp.
  destruct (unescapeRune_total p) as (r & size & -> & Hs6 & Hsl & _ & _).
  rewrite bind_Ok. cbv beta iota zeta.
  assert (Hstep : forall size b, 1 <= size <= len p ->
            match (p0 ← slice_from p size;
                   unescape_loop fuel p0 split b (n + size)) with
            | Ok _ => True | Panic => split = true | OutOfFuel => False
            end).
  { intros size0 b0 Hs. rewrite slice_from_ok by lia. rewrite bind_Ok.
    apply IH. pose proof (length_drop_Z p size0 Hs). lia. }
  destruct (size =? 0) eqn:Hz.
  - pose proof (DecodeRune_size p Hp) as Hd.
    destruct (utf8.DecodeRune p) as [r' size']. simpl in Hd.
    destruct (split && (isSpace r' || isDelimiter r')) eqn:Hsplit.
    + apply andb_true_iff in Hsplit as [-> _].
      rewrite slice_from_ok by lia. rewrite bind_Ok.
      destruct (skipSeparator_ok fuel (drop (Z.to_nat size') p) (n + size')
                  r' size') as (res & -> & Hres).
      { pose proof (length_drop_Z p size' ltac:(lia)). lia. }
      { lia. }
      rewrite bind_Ok. destruct res as [n'|p' n' r'' size'']; [exact I|].
      destruct Hres as [-> Hs'']. rewrite slice_from_nil by exact Hs''.
      reflexivity.
    + rewrite bind_Ok. apply Hstep. lia.
  - rewrite bind_Ok. apply Z.eqb_neq in Hz. apply Hstep. lia.
Qed.

Lemma unescape_ok p split :
  match unescape p split with
  | Ok _ => True
  | Panic => split = true
  | OutOfFuel => False
  end.
Proof. apply unescape_loop_ok. lia. Qed.

Lemma isSeparator_ascii c : isSeparator c = true -> 0 <= c < 128 /\ c <> 92.
Proof.
  unfold isSeparator, isSpace, isDelimiter. intros H.
  repeat (apply orb_true_iff in H as [H|H]); apply Z.eqb_eq in H; lia.
Qed.

(** A byte of the key, plain or escaped, goes to the key as it is. *)
Lemma unescape_loop_key_byte fuel k rest split b n :
  key_byte_ok k = true ->
  unescape_loop (S fuel) (key_text k ++ rest) split b n
  = unescape_loop fuel rest split (b ++ [key_value k]) (n + len (key_text k)).
Proof.
  intros Hk. rewrite unescape_loop_eq. destruct k as [c|c]; simpl key_text.
  - simpl in Hk.
    apply andb_true_iff in Hk as [Hk Hsep]. apply andb_true_iff in Hk as [Hk H92].
    apply andb_true_iff in Hk as [H0 H1].
    apply Z.leb_le in H0. apply Z.ltb_lt in H1.
    apply negb_true_iff, Z.eqb_neq in H92. apply negb_true_iff in Hsep.
    change ([c] ++ rest) with (c :: rest).
    rewrite len_cons. pose proof (len_nonneg rest).
    replace (0 <? len rest + 1) with true by (symmetry; apply Z.ltb_lt; lia).
    rewrite unescapeRune_plain by exact H92. rewrite bind_Ok.
    cbv beta iota zeta. change (0 =? 0) with true. cbv iota.
    rewrite DecodeRune_ascii by lia. fold (isSeparator c). rewrite Hsep.
    rewrite andb_false_r, bind_Ok. cbv beta iota zeta.
    rewrite slice_from_cons, bind_Ok, EncodeRune_ascii by lia. reflexivity.
  - change ([92; c] ++ rest) with (92 :: c :: rest).
    rewrite !len_cons. pose proof (len_nonneg rest).
    replace (0 <? len rest + 1 + 1) with true by (symmetry; apply Z.ltb_lt; lia).
    rewrite unescapeRune_escaped by exact Hk. rewrite bind_Ok.
    cbv beta iota zeta. change (2 =? 0) with false. cbv iota.
    rewrite bind_Ok. cbv beta iota zeta.
    change 2 with (len [92; c]) at 1.
    change (92 :: c :: rest) with ([92; c] ++ rest).
    rewrite slice_from_app, bind_Ok.
    simpl in Hk. apply andb_true_iff in Hk as [Hk _].
    apply andb_true_iff in Hk as [H0 H1].
    apply Z.leb_le in H0. apply Z.ltb_lt in H1.
    rewrite EncodeRune_ascii by lia. reflexivity.
Qed.

Lemma unescape_loop_key fuel ks : forall rest split b n,
  forallb key_byte_ok ks = true ->
  unescape_loop (length ks + fuel) (flat_map key_text ks ++ rest) split b n
  = unescape_loop fuel rest split (b ++ map key_value ks)
      (n + len (flat_map key_text ks)).
Proof.
  induction ks as [|k ks IH]; intros rest split b n Hks.
  - simpl. rewrite app_nil_r. f_equal. change (len []) with 0. lia.
  - simpl in Hks. apply andb_true_iff in Hks as [Hk Hks].
    simpl length. simpl flat_map. rewrite <- app_assoc.
    change (S (length ks) + fuel)%nat with (S (length ks + fuel)).
    rewrite unescape_loop_key_byte by exact Hk.
    rewrite IH by exact Hks. simpl map.
    rewrite <- app_assoc, len_app. f_equal. lia.
Qed.

Lemma flat_map_key_text_length ks :
  (length ks <= length (flat_map key_text ks))%nat.
Proof.
  induction ks as [|[c|c] ks IH]; simpl; lia.
Qed.

Lemma skipSeparator_step fuel s rest n r size :
  isSeparator s = true ->
  skipSeparator (S fuel) (s :: rest) n r size
  = skipSeparator fuel rest (n + 1) s 1.
Proof.
  intros Hs. rewrite skipSeparator_eq.
  rewrite len_cons. pose proof (len_nonneg rest).
  replace (0 <? len rest + 1) with true by (symmetry; apply Z.ltb_lt; lia).
  destruct (isSeparator_ascii s Hs) as [Ha _].
  rewrite DecodeRune_ascii by lia. fold (isSeparator s). rewrite Hs.
  simpl negb. cbv iota. now rewrite slice_from_cons, bind_Ok.
Qed.

(** The separator loop stops in front of the first byte that is not a
    separator. *)
Lemma skipSeparator_stop seps : forall fuel c tail n r size,
  forallb isSeparator seps = true ->
  0 <= c < 128 -> isSeparator c = false ->
  skipSeparator (length seps + S fuel) (seps ++ c :: tail) n r size
  = Ok (Returned (n + len seps)).
Proof.
  induction seps as [|s seps IH]; intros fuel c tail n r size Hseps Hc Hsep.
  - simpl app. simpl plus. rewrite skipSeparator_eq.
    rewrite len_cons. pose proof (len_nonneg tail).
    replace (0 <? len tail + 1) with true by (symmetry; apply Z.ltb_lt; lia).
    rewrite DecodeRune_ascii by lia. fold (isSeparator c). rewrite Hsep.
    simpl. f_equal. f_equal. change (len []) with 0. lia.
  - simpl in Hseps. apply andb_true_iff in Hseps as [Hs Hseps].
    simpl app. simpl length.
    change (S (length seps) + S fuel)%nat with (S (length seps + S fuel)).
    rewrite skipSeparator_step by exact Hs.
    rewrite IH by assumption. rewrite len_cons. f_equal. f_equal. lia.
Qed.

(** At the end of the line the separator loop falls through, with the
    width of the last separator in hand. *)
Lemma skipSeparator_end seps : forall fuel n r size,
  forallb isSeparator seps = true -> 1 <= size ->
  exists n' r' size',
    skipSeparator (length seps + S fuel) seps n r size
    = Ok (FellThrough [] n' r' size') /\ 1 <= size'.
Proof.
  induction seps as [|s seps IH]; intros fuel n r size Hseps Hsize.
  - exists n, r, size. split; [reflexivity|exact Hsize].
  - simpl in Hseps. apply andb_true_iff in Hseps as [Hs Hseps].
    simpl length.
    change (S (length seps) + S fuel)%nat with (S (length seps + S fuel)).
    rewrite skipSeparator_step by exact Hs.
    apply IH; [exact Hseps|lia].
Qed.

(** The first separator after the key. *)
Lemma unescape_loop_separator fuel s rest b n :
  isSeparator s = true ->
  unescape_loop (S fuel) (s :: rest) true b n
  = (st ← skipSeparator fuel rest (n + 1) s 1;
     match st with
     | Returned n => Ok (b, n)
     | FellThrough p n r size =>
         let b := b ++ utf8.EncodeRune r in
         p ← slice_from p size;
         unescape_loop fuel p true b (n + size)
     end).
Proof.
  intros Hs. rewrite unescape_loop_eq.
  rewrite len_cons. pose proof (len_nonneg rest).
  replace (0 <? len rest + 1) with true by (symmetry; apply Z.ltb_lt; lia).
  destruct (isSeparator_ascii s Hs) as [Ha H92].
  rewrite unescapeRune_plain by exact H92. rewrite bind_Ok.
  cbv beta iota zeta. change (0 =? 0) with true. cbv iota.
  rewrite DecodeRune_ascii by lia. fold (isSeparator s). rewrite Hs.
  simpl andb. cbv iota. now rewrite slice_from_cons, bind_Ok.
Qed.

(** The splitter in general: the key is made of the plain and the
    escaped bytes up to the first unescaped separator; that separator
    and the separators after it are dropped, and the offset is that of
    the first byte after them. *)
Lemma unescape_split ks s seps c tail :
  forallb key_byte_ok ks = true ->
  isSeparator s = true -> forallb isSeparator seps = true ->
  0 <= c < 128 -> isSeparator c = false ->
  unescape (flat_map key_text ks ++ s :: seps ++ c :: tail) true
  = Ok (map key_value ks, len (flat_map key_text ks) + 1 + len seps).
Proof.
  intros Hks Hs Hseps Hc Hsep. unfold unescape.
  pose proof (flat_map_key_text_length ks) as Hlen.
  rewrite !length_app. simpl length. rewrite length_app. simpl length.
  set (f := (length (flat_map key_text ks) - length ks
             + S (length tail))%nat).
  replace (S (length (flat_map key_text ks)
              + S (length seps + S (length tail))))
    with (length ks + S (length seps + S f))%nat by (subst f; lia).
  rewrite unescape_loop_key by exact Hks.
  rewrite unescape_loop_separator by exact Hs.
  rewrite skipSeparator_stop by assumption.
  rewrite bind_Ok. reflexivity.
Qed.

(** A line that ends within the separator run after its key makes the
    splitter panic. *)
Lemma unescape_split_panics ks s seps :
  forallb key_byte_ok ks = true ->
  isSeparator s = true -> forallb isSeparator seps = true ->
  unescape (flat_map key_text ks ++ s :: seps) true = Panic.
Proof.
  intros Hks Hs Hseps. unfold unescape.
  pose proof (flat_map_key_text_length ks) as Hlen.
  rewrite !length_app. simpl length.
  set (f := (length (flat_map key_text ks) - length ks)%nat).
  replace (S (length (flat_map key_text ks) + S (length seps)))
    with (length ks + S (length seps + S f))%nat by (subst f; lia).
  rewrite unescape_loop_key by exact Hks.
  rewrite unescape_loop_separator by exact Hs.
  destruct (skipSeparator_end seps f (0 + len (flat_map key_text ks) + 1) s 1
              Hseps ltac:(lia)) as (n' & r' & size' & -> & Hsize).
  rewrite bind_Ok. cbv beta iota zeta.
  now rewrite slice_from_nil by exact Hsize.
Qed.

End Splitter.

(** ** The natural-line reader *)

Section Reader.

Import properties.

Lemma trailing_backslashes_snoc l x :
  trailing_backslashes (l ++ [x])
  = if x =? 92 then S (trailing_backslashes l) else O.
Proof. unfold trailing_backslashes. now rewrite rev_app_distr. Qed.

(** The flag the reader keeps is the parity of the trailing run. *)
Lemma esc_after_parity l :
  esc_after false l = Nat.odd (trailing_backslashes l).
Proof.
  induction l as [|x l IH] using rev_ind; [reflexivity|].
  unfold esc_after in *. rewrite fold_left_app. simpl.
  rewrite trailing_backslashes_snoc, IH.
  destruct (x =? 92); [|reflexivity].
  now rewrite Nat.odd_succ, <- Nat.negb_odd.
Qed.

(** An odd run is not empty, so the line has a last byte. *)
Lemma odd_run_nonempty l :
  Nat.odd (trailing_backslashes l) = true -> l <> [].
Proof. intros H ->. discriminate. Qed.

Lemma skipBlanks_run ws : forall y x r,
  forallb isSpace (y :: ws) = true -> isSpace x = false ->
  skipBlanks y (ws ++ x :: r) = (x, None, r).
Proof.
  induction ws as [|w ws IH]; intros y x r Hws Hx; simpl in Hws.
  - apply andb_true_iff in Hws as [Hy _]. unfold isSpace in Hy, Hx.
    simpl. rewrite Hy. destruct r; simpl; now rewrite Hx.
  - apply andb_true_iff in Hws as [Hy Hws]. unfold isSpace in Hy.
    simpl. rewrite Hy. apply IH; [exact Hws|exact Hx].
Qed.

(** Reading the first byte and skipping the blanks in front of [x]. *)
Lemma read_skip ws x r :
  forallb isSpace ws = true -> isSpace x = false ->
  match ReadByte (ws ++ x :: r) with
  | (_, Some _, _) => False
  | (y, None, r1) => skipBlanks y r1 = (x, None, r)
  end.
Proof.
  intros Hws Hx. destruct ws as [|w ws]; simpl.
  - unfold isSpace in Hx. destruct r; simpl; now rewrite Hx.
  - now apply skipBlanks_run.
Qed.

Lemma copyLine_run l : forall x esc b e r,
  forallb not_eol (x :: l) = true -> not_eol e = false ->
  copyLine x esc b (l ++ e :: r)
  = (e, esc_after esc (x :: l), b ++ x :: l, None, r).
Proof.
  induction l as [|y l IH]; intros x esc b e r Hl He; simpl in Hl.
  - apply andb_true_iff in Hl as [Hx _]. unfold not_eol in Hx, He.
    simpl. rewrite Hx. destruct r; simpl; now rewrite He.
  - apply andb_true_iff in Hl as [Hx Hl]. unfold not_eol in Hx.
    simpl. rewrite Hx. rewrite (IH y _ _ e r Hl He).
    unfold esc_after. simpl. now rewrite <- app_assoc.
Qed.

(** Copying a whole natural line [l] up to the first byte [e] of its
    end-of-line sequence. *)
Lemma copyLine_line l e r b :
  forallb not_eol l = true -> not_eol e = false ->
  match l ++ e :: r with
  | x :: r1 => copyLine x false b r1 = (e, esc_after false l, b ++ l, None, r)
  | [] => False
  end.
Proof.
  intros Hl He. destruct l as [|x l]; simpl.
  - unfold not_eol in He. destruct r; simpl; rewrite He;
      now rewrite app_nil_r.
  - now apply copyLine_run.
Qed.

(** An end-of-line sequence starts with an end-of-line byte, and
    [afterLine] steps over the rest of it. *)
Lemma eol_before_split eol rest :
  eol_before eol rest = true ->
  exists e eol', eol = e :: eol' /\ not_eol e = false /\ isSpace e = false /\
                 ((e =? 35) || (e =? 33)) = false /\
                 afterLine e (eol' ++ rest) = (None, rest).
Proof.
  unfold eol_before, afterLine, not_eol, isSpace.
  destruct eol as [|e [|e2 [|? ?]]]; try discriminate; intros H.
  - exists e, []. split; [reflexivity|].
    destruct (e =? 10) eqn:H10.
    + apply Z.eqb_eq in H10 as ->. repeat split.
    + simpl in H. apply andb_true_iff in H as [H13 Hy].
      apply Z.eqb_eq in H13 as ->. repeat split. simpl.
      destruct rest as [|y rest]; [discriminate|]. simpl. now rewrite Hy.
  - apply andb_true_iff in H as [H13 H10].
    apply Z.eqb_eq in H13 as ->. apply Z.eqb_eq in H10 as ->.
    exists 13, [10]. repeat split.
Qed.

(** One natural line of a key-value record. *)
Lemma loadBytes_natural_line fuel b ws body eol rest :
  forallb isSpace ws = true ->
  forallb not_eol body = true ->
  starts_blank body = false ->
  comment_start b body = false ->
  eol_before eol rest = true ->
  loadBytes_loop (S fuel) b (ws ++ body ++ eol ++ rest)
  = if Nat.odd (trailing_backslashes body)
    then loadBytes_loop fuel (b ++ removelast body) rest
    else Ok (b ++ body, None, rest).
Proof.
  intros Hws Hbody Hblank Hcomment Heol.
  destruct (eol_before_split eol rest Heol)
    as (e & eol' & -> & He & Hes & Hec & Hafter).
  assert (Hfirst : exists x r, body ++ (e :: eol') ++ rest = x :: r /\
                     isSpace x = false /\
                     ((x =? 35) || (x =? 33)) && (len b =? 0) = false).
  { destruct body as [|x body']; simpl.
    - exists e, (eol' ++ rest). now rewrite Hec.
    - exists x, (body' ++ e :: eol' ++ rest). auto. }
  destruct Hfirst as (x & r & Hxr & Hx & Hdone).
  rewrite Hxr. simpl loadBytes_loop.
  pose proof (read_skip ws x r Hws Hx) as Hread.
  destruct (ReadByte (ws ++ x :: r)) as [[y [err|]] r1]; [contradiction|].
  rewrite Hread, Hdone. clear Hread.
  pose proof (copyLine_line body e (eol' ++ rest) b Hbody He) as Hcopy.
  simpl in Hxr.
  rewrite Hxr in Hcopy. rewrite Hcopy, Hafter, esc_after_parity.
  simpl negb. cbv iota.
  destruct (Nat.odd (trailing_backslashes body)) eqn:Hodd; [|reflexivity].
  apply odd_run_nonempty in Hodd.
  unfold slice_to.
  assert (Hlen : 1 <= len (b ++ body)).
  { rewrite len_app. pose proof (len_nonneg b).
    destruct body; [contradiction|]. rewrite len_cons.
    pose proof (len_nonneg body). lia. }
  replace ((0 <=? len (b ++ body) - 1) && (len (b ++ body) - 1 <=? len (b ++ body)))
    with true by (symmetry; apply andb_true_iff; split; lia).
  simpl mbind. unfold mbind, outcome_bind.
  replace (take (Z.to_nat (len (b ++ body) - 1)) (b ++ body))
    with (b ++ removelast body); [reflexivity|].
  rewrite <- removelast_app by exact Hodd.
  rewrite removelast_firstn_len. f_equal. unfold len. lia.
Qed.

Lemma skipBlanks_ok r : forall x,
  exists x' e r', skipBlanks x r = (x', e, r') /\
                  (length r' <= length r)%nat /\
                  (forall err, e = Some err -> err = EOF).
Proof.
  induction r as [|y r IH]; intros x; simpl.
  - destruct ((x =? 9) || (x =? 12) || (x =? 32));
      eexists _, _, _; (split; [reflexivity|]); split; auto; congruence.
  - destruct ((x =? 9) || (x =? 12) || (x =? 32)).
    + destruct (IH y) as (x' & e & r' & -> & Hlen & He).
      eexists _, _, _. split; [reflexivity|]. split; [lia|exact He].
    + eexists _, _, _. split; [reflexivity|]. split; [simpl; lia|congruence].
Qed.

Lemma copyLine_ok r : forall x esc b,
  exists x' esc' b' e r', copyLine x esc b r = (x', esc', b', e, r') /\
                          (length r' <= length r)%nat /\
                          (forall err, e = Some err -> err = EOF) /\
                          (esc' = true -> esc = true /\ b' = b \/ b' <> []).
Proof.
  induction r as [|y r IH]; intros x esc b; simpl.
  - destruct (negb (x =? 10) && negb (x =? 13)).
    + eexists _, _, _, _, _. split; [reflexivity|]. split; [reflexivity|].
      split; [congruence|]. intros _. right. now destruct b.
    + eexists _, _, _, _, _. split; [reflexivity|]. split; [reflexivity|].
      split; [congruence|]. auto.
  - destruct (negb (x =? 10) && negb (x =? 13)).
    + destruct (IH y (if x =? 92 then negb esc else false) (b ++ [x]))
        as (x' & esc' & b' & e & r' & Heq & Hlen & He & Hesc).
      rewrite Heq. eexists _, _, _, _, _. split; [reflexivity|].
      split; [lia|]. split; [exact He|].
      intros H. right. destruct (Hesc H) as [[_ ->]|Hb]; [|exact Hb].
      now destruct b.
    + eexists _, _, _, _, _. split; [reflexivity|].
      split; [simpl; lia|]. split; [congruence|]. auto.
Qed.

Lemma afterLine_ok x r :
  exists e r', afterLine x r = (e, r') /\ (length r' <= length r)%nat /\
               (forall err, e = Some err -> err = EOF).
Proof.
  unfold afterLine, ReadByte, UnreadByte.
  destruct (x =? 13); [|eexists _, _; split; [reflexivity|]; split; [lia|congruence]].
  destruct r as [|y r].
  - eexists _, _. split; [reflexivity|]. split; [lia|congruence].
  - destruct (negb (y =? 10));
      eexists _, _; (split; [reflexivity|]); split; simpl; try lia; congruence.
Qed.

Lemma loadBytes_loop_eq fuel b r :
  loadBytes_loop (S fuel) b r
  = match ReadByte r with
    | (_, Some e, r) => Ok (b, Some e, r)
    | (x, None, r) =>
    match skipBlanks x r with
    | (_, Some e, r) => Ok (b, Some e, r)
    | (x, None, r) =>
    let done := ((x =? 35) || (x =? 33)) && (len b =? 0) in
    match copyLine x false b r with
    | (_, _, b, Some e, r) => Ok (b, Some e, r)
    | (x, esc, b, None, r) =>
    match afterLine x r with
    | (Some e, r) => Ok (b, Some e, r)
    | (None, r) =>
        if negb done then
          if esc then
            b ← slice_to b (len b - 1);
            loadBytes_loop fuel b r
          else Ok (b, None, r)
        else Ok (b, None, r)
    end end end end.
Proof. reflexivity. Qed.

(** The reader always returns a logical line; the only error it reports
    is the end of the input, and a call that reports none has read at
    least one byte. *)
Lemma loadBytes_loop_ok fuel : forall b r,
  (length r < fuel)%nat ->
  exists b' e r', loadBytes_loop fuel b r = Ok (b', e, r') /\
                  (e = None -> (length r' < length r)%nat) /\
                  (forall err, e = Some err -> err = EOF).
Proof.
  induction fuel as [|fuel IH]; intros b r Hfuel; [lia|].
  rewrite loadBytes_loop_eq. cbv zeta.
  destruct r as [|x0 r0]; simpl ReadByte; cbv iota.
  { eexists _, _, _. split; [reflexivity|]. split; congruence. }
  destruct (skipBlanks_ok r0 x0) as (x1 & e1 & r1 & -> & Hl1 & He1).
  destruct e1 as [err|].
  { eexists _, _, _. split; [reflexivity|]. split; [congruence|].
    intros ? [= <-]. now apply He1. }
  destruct (copyLine_ok r1 x1 false b) as (x2 & esc & b2 & e2 & r2 & -> & Hl2 & He2 & Hesc).
  destruct e2 as [err|].
  { eexists _, _, _. split; [reflexivity|]. split; [congruence|].
    intros ? [= <-]. now apply He2. }
  destruct (afterLine_ok x2 r2) as (e3 & r3 & -> & Hl3 & He3).
  destruct e3 as [err|].
  { eexists _, _, _. split; [reflexivity|]. split; [congruence|].
    intros ? [= <-]. now apply He3. }
  simpl in Hl1, Hfuel |- *.
  destruct (negb (((x1 =? 35) || (x1 =? 33)) && (len b =? 0))).
  2:{ eexists _, _, _. split; [reflexivity|]. split; [intros _; simpl; lia|congruence]. }
  destruct esc.
  2:{ eexists _, _, _. split; [reflexivity|]. split; [intros _; simpl; lia|congruence]. }
  destruct (Hesc eq_refl) as [[? _]|Hb2]; [discriminate|].
  unfold slice_to.
  assert (1 <= len b2).
  { destruct b2; [contradiction|]. rewrite len_cons. pose proof (len_nonneg b2). lia. }
  replace ((0 <=? len b2 - 1) && (len b2 - 1 <=? len b2)) with true
    by (symmetry; apply andb_true_iff; split; lia).
  rewrite bind_Ok.
  destruct (IH (take (Z.to_nat (len b2 - 1)) b2) r3 ltac:(lia))
    as (b' & e & r' & -> & Hl & He).
  eexists _, _, _. split; [reflexivity|]. split; [|exact He].
  intros Hn. specialize (Hl Hn). simpl. lia.
Qed.

Lemma loadBytes_ok r :
  exists b e r', loadBytes r = Ok (b, e, r') /\
                 (e = None -> (length r' < length r)%nat) /\
                 (forall err, e = Some err -> err = EOF).
Proof. apply loadBytes_loop_ok. lia. Qed.

End Reader.

(** X26. Continuation of natural lines: for every natural line that is
    not a comment line and whose end-of-line sequence is a line feed, a
    carriage return and a line feed, or a carriage return that another
    byte follows, the reader skips the leading blanks, and then: if the
    line ends with an odd run of backslashes it drops exactly the final
    backslash and the end-of-line bytes and goes on with the following
    natural line, appending to the same logical line; if the run is even
    (or empty) the logical line ends there with the backslashes kept.  In
    particular [key value1 \], a line feed and [    value2] load to the
    value ["value1 value2"]. *)
Theorem loadBytes_continuation :
  (forall (fuel : nat) (b ws body eol rest : gostring),
      forallb properties.isSpace ws = true ->
      forallb not_eol body = true ->
      starts_blank body = false ->
      comment_start b body = false ->
      eol_before eol rest = true ->
      properties.loadBytes_loop (S fuel) b (ws ++ body ++ eol ++ rest)
      = if Nat.odd (trailing_backslashes body)
        then properties.loadBytes_loop fuel (b ++ removelast body) rest
        else Ok (b ++ body, None, rest)) /\
  properties.Table_LoadString fresh_heap 1%positive
    (bytes_of "key value1 \" ++ [10] ++ bytes_of "    value2")
  = Ok (single (bytes_of "key") (bytes_of "value1 value2"), 1, None).
Proof.
  split.
  - exact loadBytes_natural_line.
  - vm_compute. reflexivity.
Qed.

(** The first natural line of the example: an odd run, so the reader
    goes on with the second line, the backslash dropped. *)
Lemma loadBytes_continuation_witness :
  let body := bytes_of "key value1 \" in
  let rest := bytes_of "    value2" in
  forallb properties.isSpace [32; 9] = true /\
  forallb not_eol body = true /\
  starts_blank body = false /\
  comment_start [] body = false /\
  eol_before [10] rest = true /\
  properties.loadBytes_loop 11 [] ([32; 9] ++ body ++ [10] ++ rest)
  = properties.loadBytes_loop 10 (bytes_of "key value1 ") rest.
Proof.
  intros body rest.
  repeat (split; [reflexivity|]).
  exact (proj1 loadBytes_continuation 10%nat [] [32; 9] body [10] rest
           eq_refl eq_refl eq_refl eq_refl eq_refl).
Defined.

(** A comment line is not continued: [#c\] ends with an odd run of
    backslashes, yet the reader keeps the backslash, ends the logical
    line there and leaves the following natural line unread. *)
Lemma comment_line_not_continued :
  let line := bytes_of "#c\" in
  let input := line ++ [10] ++ bytes_of "k=v" in
  Nat.odd (trailing_backslashes line) = true /\
  properties.loadBytes input = Ok (line, None, bytes_of "k=v") /\
  properties.loadBytes input
  <> Ok (removelast line ++ bytes_of "k=v", Some properties.EOF, []).
Proof.
  cbv zeta. split; [reflexivity|]. split; [vm_compute; reflexivity|].
  vm_compute. discriminate.
Qed.

(** A natural line that a lone carriage return ends at the very end of
    the input: the reader meets the end of the input while it looks for
    a line feed, and returns what it has copied, the last backslash
    included, before it looks at the parity. *)
Lemma loadBytes_lone_cr fuel b ws body :
  forallb properties.isSpace ws = true ->
  forallb not_eol body = true ->
  starts_blank body = false ->
  properties.loadBytes_loop (S fuel) b (ws ++ body ++ [13])
  = Ok (b ++ body, Some properties.EOF, []).
Proof.
  intros Hws Hbody Hblank.
  assert (Hfirst : exists x r, body ++ [13] = x :: r /\
                               properties.isSpace x = false).
  { destruct body as [|x body']; simpl.
    - exists 13, []. auto.
    - exists x, (body' ++ [13]). auto. }
  destruct Hfirst as (x & r & Hxr & Hx).
  rewrite Hxr. simpl properties.loadBytes_loop.
  pose proof (read_skip ws x r Hws Hx) as Hread.
  destruct (properties.ReadByte (ws ++ x :: r)) as [[y [err|]] r1];
    [contradiction|].
  rewrite Hread. clear Hread.
  pose proof (copyLine_line body 13 [] b Hbody eq_refl) as Hcopy.
  rewrite Hxr in Hcopy. rewrite Hcopy. reflexivity.
Qed.

(** C6 fails on the code.  A natural line that ends with an odd run of
    backslashes and is not a comment line loses its last backslash
    when a line feed or a carriage return and a line feed end it, also
    at the very end of the input; when a lone carriage return ends it
    there, the backslash stays.  So [k=v\] before a lone carriage
    return loads as the value [v] followed by U+FFFD, which is what
    the splitter makes of the backslash, where the two other
    end-of-line sequences give [v]. *)
Theorem loadBytes_lone_cr_keeps_backslash :
  (forall (fuel : nat) (b ws body : gostring),
      forallb properties.isSpace ws = true ->
      forallb not_eol body = true ->
      starts_blank body = false ->
      comment_start b body = false ->
      Nat.odd (trailing_backslashes body) = true ->
      properties.loadBytes_loop (S (S fuel)) b (ws ++ body ++ [10])
      = Ok (b ++ removelast body, Some properties.EOF, []) /\
      properties.loadBytes_loop (S (S fuel)) b (ws ++ body ++ [13; 10])
      = Ok (b ++ removelast body, Some properties.EOF, []) /\
      properties.loadBytes_loop (S (S fuel)) b (ws ++ body ++ [13])
      = Ok (b ++ body, Some properties.EOF, [])) /\
  properties.loadBytes (bytes_of "k=v\" ++ [13])
  = Ok (bytes_of "k=v\", Some properties.EOF, []) /\
  properties.Table_LoadString fresh_heap 1%positive (bytes_of "k=v\" ++ [13])
  = Ok (single (bytes_of "k") (bytes_of "v" ++ [239; 191; 189]), 1, None) /\
  properties.Table_LoadString fresh_heap 1%positive (bytes_of "k=v\" ++ [10])
  = Ok (single (bytes_of "k") (bytes_of "v"), 1, None) /\
  properties.Table_LoadString fresh_heap 1%positive
    (bytes_of "k=v\" ++ [13; 10])
  = Ok (single (bytes_of "k") (bytes_of "v"), 1, None).
Proof.
  split; [|repeat split; vm_compute; reflexivity].
  intros fuel b ws body Hws Hbody Hblank Hcomment Hodd. split; [|split].
  - pose proof (loadBytes_natural_line (S fuel) b ws body [10] []
                  Hws Hbody Hblank Hcomment eq_refl) as H.
    rewrite Hodd, app_nil_r in H. rewrite H. reflexivity.
  - pose proof (loadBytes_natural_line (S fuel) b ws body [13; 10] []
                  Hws Hbody Hblank Hcomment eq_refl) as H.
    rewrite Hodd, app_nil_r in H. rewrite H. reflexivity.
  - now apply loadBytes_lone_cr.
Qed.

(** ** Loading *)

Section Loading.

Import properties.

Lemma Load_loop_eq fuel d count reader :
  Load_loop (S fuel) d count reader
  = ('(b, e, reader) ← loadBytes reader;
     '(d, count) ←
       (if (0 <? len b) && negb (at_ b 0 =? 35) && negb (at_ b 0 =? 33) then
          '(key, i) ← unescape b true;
          bi ← slice_from b i;
          '(value, _) ← unescape bi false;
          Ok (<[key := value]> d, count + 1)
        else Ok (d, count));
     match e with
     | Some e =>
         if negb (is_EOF e) then Ok (d, count, Some e)
         else Ok (d, count, None)
     | None => Load_loop fuel d count reader
     end).
Proof. reflexivity. Qed.

(** [Load] from memory never runs out of fuel and never returns an
    error: it returns with a nil error, or it panics. *)
Lemma Load_loop_ok fuel : forall d count r,
  (length r < fuel)%nat ->
  match Load_loop fuel d count r with
  | Ok (_, _, e) => e = None
  | Panic => True
  | OutOfFuel => False
  end.
Proof.
  induction fuel as [|fuel IH]; intros d count r Hfuel; [lia|].
  rewrite Load_loop_eq.
  destruct (loadBytes_ok r) as (b & e & r' & -> & Hl & He).
  rewrite bind_Ok. cbv beta iota zeta.
  match goal with
  | |- context [mbind _ ?m] =>
      assert (Hm : m = Panic \/ exists d' c', m = Ok (d', c'))
  end.
  { destruct ((0 <? len b) && negb (at_ b 0 =? 35) && negb (at_ b 0 =? 33));
      [|right; eauto].
    pose proof (unescape_ok b true) as Hk.
    destruct (unescape b true) as [[key i]| |]; [|now left|contradiction].
    rewrite bind_Ok. cbv beta iota zeta.
    unfold slice_from. destruct ((0 <=? i) && (i <=? len b)); [|now left].
    rewrite bind_Ok.
    pose proof (unescape_ok (drop (Z.to_nat i) b) false) as Hv.
    destruct (unescape (drop (Z.to_nat i) b) false) as [[value n]| |];
      [|discriminate|contradiction].
    rewrite bind_Ok. right. eauto. }
  destruct Hm as [->|(d' & c' & ->)]; [exact I|].
  rewrite bind_Ok. cbv beta iota zeta.
  destruct e as [err|].
  - rewrite (He err eq_refl). reflexivity.
  - apply IH. specialize (Hl eq_refl). lia.
Qed.

(** X6. [LoadString] on any input and any table: it returns with a nil
    error, or it panics in the splitter; there is no third outcome. *)
Lemma Load_total h p s :
  match Table_LoadString h p s with
  | Ok (_, _, e) => e = None
  | Panic => True
  | OutOfFuel => False
  end.
Proof.
  unfold Table_LoadString, Table_Load, deref.
  destruct (h !! p) as [t|]; [|exact I].
  rewrite bind_Ok.
  pose proof (Load_loop_ok (S (length s)) (entries t) 0 s ltac:(lia)) as H.
  destruct (Load_loop _ _ _ _) as [[[d c] e]| |]; [|exact I|contradiction].
  rewrite bind_Ok. exact H.
Qed.

End Loading.

(** C7: loading the single line [fourth\ key\ : \ fourth value] into an
    empty table yields exactly one pair, with key ["fourth key "] and
    value [" fourth value"].  In general the bytes behind a backslash,
    blanks and delimiters among them, go to the key; the first unescaped
    blank or delimiter ends it, and that byte and the blanks and
    delimiters after it are dropped, the value starting at the offset
    returned. *)
Theorem Load_fourth_key :
  properties.Table_LoadString fresh_heap 1%positive
    (bytes_of "fourth\ key\ : \ fourth value")
  = Ok (single (bytes_of "fourth key ") (bytes_of " fourth value"), 1, None) /\
  (forall (ks : list key_byte) (s : Z) (seps : gostring) (c : Z)
          (tail : gostring),
      forallb key_byte_ok ks = true ->
      isSeparator s = true -> forallb isSeparator seps = true ->
      0 <= c < 128 -> isSeparator c = false ->
      properties.unescape (flat_map key_text ks ++ s :: seps ++ c :: tail) true
      = Ok (map key_value ks, len (flat_map key_text ks) + 1 + len seps)).
Proof.
  split.
  - vm_compute. reflexivity.
  - exact unescape_split.
Qed.

(** The line of the example, byte by byte: the key with its two escaped
    spaces, the separator run [": "], and the value that starts with a
    backslash. *)
Lemma Load_fourth_key_witness :
  let ks := [Plain 102; Plain 111; Plain 117; Plain 114; Plain 116; Plain 104;
             Escaped 32; Plain 107; Plain 101; Plain 121; Escaped 32] in
  let tail := bytes_of " fourth value" in
  forallb key_byte_ok ks = true /\
  isSeparator 58 = true /\ forallb isSeparator [32] = true /\
  0 <= 92 < 128 /\ isSeparator 92 = false /\
  flat_map key_text ks ++ 58 :: [32] ++ 92 :: tail
  = bytes_of "fourth\ key\ : \ fourth value" /\
  properties.unescape (flat_map key_text ks ++ 58 :: [32] ++ 92 :: tail) true
  = Ok (map key_value ks, len (flat_map key_text ks) + 1 + len [32]).
Proof.
  intros ks tail.
  assert (H92 : 0 <= 92 < 128) by lia.
  repeat (split; [reflexivity || exact H92|]).
  exact (proj2 Load_fourth_key ks 58 [32] 92 tail
           eq_refl eq_refl eq_refl H92 eq_refl).
Defined.

(** C1 fails on the code: on the line [key=] the splitter runs off the
    end of the separator run, falls through to [p = p[size:]] with [p]
    empty, and panics; so does [Load]. *)
Theorem Load_key_without_value_panics :
  properties.unescape (bytes_of "key=") true = Panic /\
  properties.Table_LoadString fresh_heap 1%positive (bytes_of "key=") = Panic.
Proof. split; vm_compute; reflexivity. Qed.

(** ** The serializer *)

Section Comments.

Import properties.

(** One round of the loop on an end-of-line scalar. *)
Lemma escapeCommentRune_eol ascii b buffer last r :
  is_eol r = true ->
  escapeCommentRune ascii (b, buffer, last) r = Ok (b ++ [r], buffer, r).
Proof.
  unfold is_eol, escapeCommentRune. intros H. rewrite H.
  apply orb_true_iff in H as [H|H]; apply Z.eqb_eq in H; subst r; reflexivity.
Qed.

(** One round of the loop on any other scalar. *)
Lemma escapeCommentRune_content ascii b buffer last r :
  is_eol r = false -> length buffer = 12%nat ->
  exists buffer',
    escapeCommentRune ascii (b, buffer, last) r
    = Ok (b ++ (if is_eol last && negb (isCommentPrefix r) then [35] else [])
            ++ commentRune ascii r, buffer', r) /\
    length buffer' = 12%nat.
Proof.
  intros Heol Hlen. unfold escapeCommentRune. unfold is_eol in Heol.
  rewrite Heol. fold (is_eol last).
  set (b' := if is_eol last && negb (isCommentPrefix r) then b ++ [35] else b).
  assert (Hb' : b' = b ++ (if is_eol last && negb (isCommentPrefix r)
                           then [35] else [])).
  { subst b'. destruct (is_eol last && negb (isCommentPrefix r));
      [reflexivity|now rewrite app_nil_r]. }
  assert (Hraw : forall buf, length buf = 12%nat ->
            exists buffer',
              ('(buffer0, size) ← utf8.EncodeRuneTo buf r;
               w ← slice_to buffer0 size; Ok (b' ++ w, buffer0, r))
              = Ok (b' ++ utf8.EncodeRune r, buffer', r) /\
              length buffer' = 12%nat).
  { intros buf Hbuf.
    destruct (EncodeRuneTo_ok buf r Hbuf) as (buffer' & -> & Hlen' & Hslice).
    rewrite bind_Ok. cbv beta iota zeta. rewrite Hslice, bind_Ok. eauto. }
  unfold commentRune. destruct ascii; simpl andb.
  - destruct (escapeRune_ok buffer r Hlen) as (buffer1 & -> & Hlen1 & Hslice1).
    rewrite bind_Ok. cbv beta iota zeta.
    destruct (printable r) eqn:Hp; simpl negb; cbv iota.
    + rewrite (asciiEscape_printable r Hp). change (len [] =? 0) with true.
      cbv iota. destruct (Hraw buffer1 Hlen1) as (buffer' & Heq & Hlen').
      exists buffer'. rewrite Heq, Hb', <- app_assoc. auto.
    + rewrite (asciiEscape_nonempty r Hp), bind_Ok. cbv beta iota zeta.
      rewrite Hslice1, bind_Ok. exists buffer1. rewrite Hb', <- app_assoc. auto.
  - rewrite bind_Ok. cbv beta iota zeta. change (0 =? 0) with true. cbv iota.
    destruct (Hraw buffer Hlen) as (buffer' & Heq & Hlen').
    exists buffer'. rewrite Heq, Hb', <- app_assoc. auto.
Qed.

Lemma split_lines_cons rs : exists lt ls, split_lines rs = lt :: ls.
Proof.
  destruct rs as [|r rs]; simpl; [eauto|].
  destruct (is_eol r); [eauto|].
  destruct (split_lines rs) as [|[l t] ls]; eauto.
Qed.

Lemma split_lines_eq r rs :
  split_lines (r :: rs)
  = if is_eol r then ([], Some r) :: split_lines rs
    else match split_lines rs with
         | (l, t) :: ls => (r :: l, t) :: ls
         | [] => [([r], None)]
         end.
Proof. reflexivity. Qed.

Lemma forEach_comment ascii rs : forall b buffer last,
  length buffer = 12%nat ->
  exists buffer' last',
    forEach (escapeCommentRune ascii) rs (b, buffer, last)
    = Ok (b ++ render_from ascii (is_eol last) (split_lines rs), buffer', last').
Proof.
  induction rs as [|r rs IH]; intros b buffer last Hlen.
  - exists buffer, last. simpl.
    destruct (is_eol last); simpl; now rewrite app_nil_r.
  - rewrite forEach_cons, split_lines_eq. destruct (is_eol r) eqn:Hr.
    + rewrite escapeCommentRune_eol by exact Hr. rewrite bind_Ok.
      destruct (IH (b ++ [r]) buffer r Hlen) as (buffer' & last' & ->).
      exists buffer', last'. rewrite Hr. f_equal. f_equal. f_equal.
      rewrite <- app_assoc. f_equal.
      destruct (split_lines_cons rs) as (lt & ls & ->).
      simpl. destruct (is_eol last); simpl; now rewrite <- app_assoc.
    + destruct (escapeCommentRune_content ascii b buffer last r Hr Hlen)
        as (buffer1 & -> & Hlen1).
      rewrite bind_Ok.
      destruct (IH (b ++ (if is_eol last && negb (isCommentPrefix r)
                          then [35] else []) ++ commentRune ascii r)
                  buffer1 r Hlen1) as (buffer' & last' & ->).
      exists buffer', last'. rewrite Hr. f_equal. f_equal. f_equal.
      destruct (split_lines_cons rs) as ([l t] & ls & ->).
      simpl. rewrite <- !app_assoc. f_equal.
      destruct (is_eol last); simpl.
      * destruct (isCommentPrefix r); simpl; now rewrite <- !app_assoc.
      * now rewrite <- !app_assoc.
Qed.

End Comments.

(** C5, as it holds by the code and its test: for every comments string
    and either mode, [escapeComment] writes every end-of-line scalar
    ([\n] or [\r]) as it is, so that [\r\n] stays [\r\n], and writes each
    line between them, unless it is empty, with [#] in front when its
    first scalar is neither [#] nor [!]. *)
Theorem escapeComment_lines :
  forall (text : gostring) (ascii : bool),
    properties.escapeComment text ascii = Ok (comment_block ascii text).
Proof.
  intros text ascii. unfold properties.escapeComment.
  destruct (forEach_comment ascii (utf8.range text) [] (replicate 12 0) 10
              eq_refl) as (buffer' & last' & ->).
  rewrite bind_Ok. cbv beta iota zeta. f_equal. unfold comment_block.
  destruct (split_lines_cons (utf8.range text)) as (lt & ls & ->).
  simpl. now rewrite <- app_assoc.
Qed.

(** C5 as stated fails: the comment of the package's own test keeps its
    carriage return, where the normalized block has a single line feed. *)
Lemma escapeComment_keeps_carriage_return :
  let text := bytes_of "The first" ++ [13; 10] ++ bytes_of "properties entry" in
  properties.escapeComment text false
  = Ok (bytes_of "#The first" ++ [13; 10] ++ bytes_of "#properties entry") /\
  comment_block_normalized false text
  = bytes_of "#The first" ++ [10] ++ bytes_of "#properties entry" /\
  properties.escapeComment text false
  <> Ok (comment_block_normalized false text).
Proof.
  cbv zeta. split; [vm_compute; reflexivity|]. split; [vm_compute; reflexivity|].
  vm_compute. discriminate.
Qed.

(** C2 fails on the code: [escape] writes a backslash as it is, so the
    pair [k -> a\b] is stored as the line [k=a\b] and loads back as
    [k -> ab]. *)
Theorem Store_Load_loses_backslash :
  properties.Table_Store (single (bytes_of "k") (bytes_of "a\b")) 1%positive
    [] false
  = Ok (bytes_of "k=a\b" ++ [10], 1, None) /\
  properties.Table_LoadString fresh_heap 1%positive (bytes_of "k=a\b" ++ [10])
  = Ok (single (bytes_of "k") (bytes_of "ab"), 1, None).
Proof. split; vm_compute; reflexivity. Qed.

(** Two more ways in which a stored ASCII table does not load back: an
    empty value is stored as [k=], on which [Load] panics, and in ascii
    mode a value that starts with a tab is stored as [k=\\u0009] and
    loads back as the six characters [\u0009]. *)
Lemma Store_Load_other_failures :
  (properties.Table_Store (single (bytes_of "k") []) 1%positive [] false
   = Ok (bytes_of "k=" ++ [10], 1, None) /\
   properties.Table_LoadString fresh_heap 1%positive (bytes_of "k=" ++ [10])
   = Panic) /\
  (properties.Table_Store (single (bytes_of "k") [9]) 1%positive [] true
   = Ok (bytes_of "k=\\u0009" ++ [10], 1, None) /\
   properties.Table_LoadString fresh_heap 1%positive
     (bytes_of "k=\\u0009" ++ [10])
   = Ok (single (bytes_of "k") (bytes_of "\u0009"), 1, None)).
Proof. repeat split; vm_compute; reflexivity. Qed.

(** ** Storing and loading back *)

Section RoundTrip.

Import properties.

Lemma safe_range c : safe c = true -> 32 <= c <= 126 /\ c <> 92.
Proof.
  unfold safe. intros H. apply andb_true_iff in H as [H H92].
  apply andb_true_iff in H as [H0 H1].
  apply Z.leb_le in H0, H1. apply negb_true_iff, Z.eqb_neq in H92. lia.
Qed.

Lemma range_aux_safe s : forall fuel,
  (length s <= fuel)%nat -> forallb safe s = true -> utf8.range_aux fuel s = s.
Proof.
  induction s as [|c s IH]; intros fuel Hfuel Hs.
  - destruct fuel; reflexivity.
  - simpl in Hs. apply andb_true_iff in Hs as [Hc Hs].
    destruct fuel as [|fuel]; [simpl in Hfuel; lia|].
    destruct (safe_range c Hc).
    simpl utf8.range_aux. rewrite DecodeRune_ascii by lia.
    change (drop (Z.to_nat 1) (c :: s)) with s.
    rewrite IH; [reflexivity|simpl in Hfuel; lia|exact Hs].
Qed.

Lemma range_safe s : forallb safe s = true -> utf8.range s = s.
Proof. intros H. apply range_aux_safe; [lia|exact H]. Qed.

Lemma safe_printable c : safe c = true -> printable c = true.
Proof.
  intros H. destruct (safe_range c H). unfold printable.
  apply andb_true_iff. split; apply Z.leb_le; lia.
Qed.

(** In either mode the scratch buffer yields no escape for a safe byte. *)
Lemma escape_size_safe (ascii : bool) buffer c :
  safe c = true -> length buffer = 12%nat ->
  exists buffer', (if ascii then escapeRune buffer c else Ok (buffer, 0))
                  = Ok (buffer', 0) /\ length buffer' = 12%nat.
Proof.
  intros Hc Hlen. destruct ascii; [|eauto].
  destruct (escapeRune_ok buffer c Hlen) as (buffer' & Heq & Hlen' & _).
  rewrite (asciiEscape_printable c (safe_printable c Hc)) in Heq.
  eauto.
Qed.

Lemma write_raw_safe (b buffer : gostring) c :
  safe c = true -> length buffer = 12%nat ->
  exists buffer',
    ('(buffer0, size) ← utf8.EncodeRuneTo buffer c;
     w ← slice_to buffer0 size; Ok (b ++ w, buffer0))
    = Ok (b ++ [c], buffer') /\ length buffer' = 12%nat.
Proof.
  intros Hc Hlen. destruct (safe_range c Hc).
  destruct (EncodeRuneTo_ok buffer c Hlen) as (buffer' & -> & Hlen' & Hslice).
  rewrite bind_Ok. cbv beta iota zeta. rewrite Hslice, bind_Ok.
  rewrite EncodeRune_ascii by lia. eauto.
Qed.

Lemma escapeKeyRune_safe ascii b buffer c :
  safe c = true -> length buffer = 12%nat ->
  exists buffer',
    escapeKeyRune ascii (b, buffer) c
    = Ok (b ++ key_text (stored_key_byte c), buffer') /\
    length buffer' = 12%nat.
Proof.
  intros Hc Hlen. unfold escapeKeyRune.
  destruct (escape_size_safe ascii buffer c Hc Hlen) as (buffer1 & -> & Hlen1).
  rewrite bind_Ok. cbv beta iota zeta. change (0 =? 0) with true. cbv iota.
  destruct (safe_range c Hc).
  replace (c =? 10) with false by (symmetry; apply Z.eqb_neq; lia).
  replace (c =? 13) with false by (symmetry; apply Z.eqb_neq; lia).
  unfold stored_key_byte.
  destruct (isSpace c || isDelimiter c || isCommentPrefix c).
  - destruct (write_raw_safe (b ++ [92]) buffer1 c Hc Hlen1)
      as (buffer' & -> & Hlen').
    exists buffer'. rewrite <- app_assoc. auto.
  - destruct (write_raw_safe b buffer1 c Hc Hlen1) as (buffer' & -> & Hlen').
    exists buffer'. auto.
Qed.

Lemma escapeValueRune_safe ascii b buffer c :
  safe c = true -> length buffer = 12%nat ->
  exists buffer',
    escapeValueRune ascii (b, buffer) c
    = Ok (b ++ key_text (stored_value_byte c), buffer') /\
    length buffer' = 12%nat.
Proof.
  intros Hc Hlen. unfold escapeValueRune.
  destruct (escape_size_safe ascii buffer c Hc Hlen) as (buffer1 & -> & Hlen1).
  rewrite bind_Ok. cbv beta iota zeta. change (0 =? 0) with true. cbv iota.
  destruct (safe_range c Hc).
  replace (c =? 10) with false by (symmetry; apply Z.eqb_neq; lia).
  replace (c =? 13) with false by (symmetry; apply Z.eqb_neq; lia).
  unfold stored_value_byte.
  destruct (isCommentPrefix c).
  - destruct (write_raw_safe (b ++ [92]) buffer1 c Hc Hlen1)
      as (buffer' & -> & Hlen').
    exists buffer'. rewrite <- app_assoc. auto.
  - destruct (write_raw_safe b buffer1 c Hc Hlen1) as (buffer' & -> & Hlen').
    exists buffer'. auto.
Qed.

Lemma forEach_escape_safe
    (body : gostring * gostring -> Z -> outcome (gostring * gostring))
    (stored : Z -> key_byte) s :
  (forall b buffer c, safe c = true -> length buffer = 12%nat ->
     exists buffer', body (b, buffer) c = Ok (b ++ key_text (stored c), buffer')
                     /\ length buffer' = 12%nat) ->
  forall b buffer,
    forallb safe s = true -> length buffer = 12%nat ->
    exists buffer',
      forEach body s (b, buffer)
      = Ok (b ++ flat_map key_text (map stored s), buffer') /\
      length buffer' = 12%nat.
Proof.
  intros Hbody. induction s as [|c s IH]; intros b buffer Hs Hlen.
  - exists buffer. simpl. rewrite app_nil_r. auto.
  - simpl in Hs. apply andb_true_iff in Hs as [Hc Hs].
    rewrite forEach_cons.
    destruct (Hbody b buffer c Hc Hlen) as (buffer1 & -> & Hlen1).
    rewrite bind_Ok.
    destruct (IH (b ++ key_text (stored c)) buffer1 Hs Hlen1)
      as (buffer' & -> & Hlen').
    exists buffer'. simpl. rewrite <- app_assoc. auto.
Qed.

(** [escape] on safe strings, in either mode. *)
Lemma escape_safe key value ascii :
  forallb safe key = true -> forallb safe value = true ->
  escape key value ascii = Ok (stored_line key value).
Proof.
  intros Hk Hv. unfold escape. cbv zeta.
  rewrite (range_safe key Hk), (range_safe value Hv).
  destruct (forEach_escape_safe (escapeKeyRune ascii) stored_key_byte key
              (escapeKeyRune_safe ascii) [] (replicate 12 0) Hk eq_refl)
    as (buffer1 & -> & Hlen1).
  rewrite bind_Ok. cbv beta iota zeta.
  change (utf8.EncodeRune 61) with [61].
  assert (Hlead : (let '(r, _) := utf8.DecodeRune value in
                   isSpace r || isDelimiter r)
                  = match value with
                    | c :: _ => isSpace c || isDelimiter c
                    | [] => false
                    end).
  { destruct value as [|c value]; [reflexivity|].
    simpl in Hv. apply andb_true_iff in Hv as [Hc _].
    destruct (safe_range c Hc). now rewrite DecodeRune_ascii by lia. }
  destruct (utf8.DecodeRune value) as [r sz].
  rewrite Hlead.
  set (lead := match value with
               | c :: _ => isSpace c || isDelimiter c
               | [] => false
               end).
  destruct (forEach_escape_safe (escapeValueRune ascii) stored_value_byte
              value (escapeValueRune_safe ascii)
              (if lead then (([] ++ flat_map key_text (map stored_key_byte key))
                             ++ [61]) ++ [92]
               else ([] ++ flat_map key_text (map stored_key_byte key)) ++ [61])
              buffer1 Hv Hlen1) as (buffer' & Heq & _).
  rewrite Heq, bind_Ok. cbv beta iota zeta. f_equal.
  unfold stored_line. subst lead.
  destruct value as [|c value]; simpl app at 1.
  - simpl. now rewrite <- !app_assoc.
  - destruct (isSpace c || isDelimiter c); simpl; now rewrite <- !app_assoc.
Qed.

Lemma stored_line_value key value :
  stored_line key value
  = (flat_map key_text (map stored_key_byte key) ++ [61])
    ++ flat_map key_text (stored_value value).
Proof.
  unfold stored_line, stored_value. rewrite <- app_assoc. f_equal. f_equal.
  destruct value as [|c vs]; [reflexivity|].
  destruct (isSpace c || isDelimiter c) eqn:Hsep; [|reflexivity].
  assert (Hplain : stored_value_byte c = Plain c).
  { unfold stored_value_byte. replace (isCommentPrefix c) with false;
      [reflexivity|].
    unfold isSpace, isDelimiter in Hsep.
    repeat (apply orb_true_iff in Hsep as [Hsep|Hsep]);
      apply Z.eqb_eq in Hsep; subst c; reflexivity. }
  simpl map. simpl flat_map. now rewrite Hplain.
Qed.

Lemma unescape_loop_value_byte fuel k rest b n :
  value_byte_ok k = true ->
  unescape_loop (S fuel) (key_text k ++ rest) false b n
  = unescape_loop fuel rest false (b ++ [key_value k]) (n + len (key_text k)).
Proof.
  intros Hk. destruct k as [c|c]; [|now apply unescape_loop_key_byte].
  simpl in Hk. apply andb_true_iff in Hk as [Hk H92].
  apply andb_true_iff in Hk as [H0 H1].
  apply Z.leb_le in H0. apply Z.ltb_lt in H1.
  apply negb_true_iff, Z.eqb_neq in H92.
  rewrite unescape_loop_eq. simpl key_text.
  change ([c] ++ rest) with (c :: rest).
  rewrite len_cons. pose proof (len_nonneg rest).
  replace (0 <? len rest + 1) with true by (symmetry; apply Z.ltb_lt; lia).
  rewrite unescapeRune_plain by exact H92. rewrite bind_Ok.
  cbv beta iota zeta. change (0 =? 0) with true. cbv iota.
  rewrite DecodeRune_ascii by lia. simpl andb. cbv iota.
  rewrite bind_Ok. cbv beta iota zeta.
  rewrite slice_from_cons, bind_Ok, EncodeRune_ascii by lia. reflexivity.
Qed.

Lemma unescape_loop_value fuel ks : forall b n,
  forallb value_byte_ok ks = true ->
  unescape_loop (length ks + S fuel) (flat_map key_text ks) false b n
  = Ok (b ++ map key_value ks, n + len (flat_map key_text ks)).
Proof.
  induction ks as [|k ks IH]; intros b n Hks.
  - simpl. rewrite app_nil_r. f_equal. f_equal. change (len []) with 0. lia.
  - simpl in Hks. apply andb_true_iff in Hks as [Hk Hks].
    simpl length. simpl flat_map.
    change (S (length ks) + S fuel)%nat with (S (length ks + S fuel)).
    rewrite unescape_loop_value_byte by exact Hk.
    rewrite IH by exact Hks. simpl map.
    rewrite <- app_assoc, len_app. f_equal. f_equal. lia.
Qed.

Lemma unescape_value ks :
  forallb value_byte_ok ks = true ->
  unescape (flat_map key_text ks) false
  = Ok (map key_value ks, len (flat_map key_text ks)).
Proof.
  intros Hks. unfold unescape.
  pose proof (flat_map_key_text_length ks).
  replace (S (length (flat_map key_text ks)))
    with (length ks + S (length (flat_map key_text ks) - length ks))%nat by lia.
  now rewrite unescape_loop_value by exact Hks.
Qed.

Lemma stored_key_ok key :
  forallb safe key = true ->
  forallb key_byte_ok (map stored_key_byte key) = true /\
  map key_value (map stored_key_byte key) = key.
Proof.
  induction key as [|c key IH]; intros Hk; [split; reflexivity|].
  simpl in Hk. apply andb_true_iff in Hk as [Hc Hk].
  destruct (IH Hk) as [IH1 IH2]. destruct (safe_range c Hc).
  simpl. rewrite IH1, andb_true_r. split.
  - unfold stored_key_byte, isSeparator.
    destruct (isSpace c || isDelimiter c || isCommentPrefix c) eqn:Hesc; simpl.
    + unfold isSpace, isDelimiter, isCommentPrefix in Hesc.
      repeat (apply orb_true_iff in Hesc as [Hesc|Hesc]);
        apply Z.eqb_eq in Hesc; subst c; reflexivity.
    + apply orb_false_iff in Hesc as [Hesc _]. unfold isSeparator.
      rewrite Hesc.
      replace (0 <=? c) with true by (symmetry; apply Z.leb_le; lia).
      replace (c <? 128) with true by (symmetry; apply Z.ltb_lt; lia).
      replace (c =? 92) with false by (symmetry; apply Z.eqb_neq; lia).
      reflexivity.
  - f_equal; [|exact IH2]. unfold stored_key_byte.
    now destruct (isSpace c || isDelimiter c || isCommentPrefix c).
Qed.

Lemma stored_value_byte_ok c :
  safe c = true ->
  value_byte_ok (stored_value_byte c) = true /\
  key_value (stored_value_byte c) = c.
Proof.
  intros Hc. destruct (safe_range c Hc). unfold stored_value_byte.
  destruct (isCommentPrefix c) eqn:Hesc; simpl; split; try reflexivity.
  - unfold isCommentPrefix in Hesc.
    apply orb_true_iff in Hesc as [Hesc|Hesc];
      apply Z.eqb_eq in Hesc; subst c; reflexivity.
  - replace (0 <=? c) with true by (symmetry; apply Z.leb_le; lia).
    replace (c <? 128) with true by (symmetry; apply Z.ltb_lt; lia).
    replace (c =? 92) with false by (symmetry; apply Z.eqb_neq; lia).
    reflexivity.
Qed.

Lemma stored_value_ok value :
  forallb safe value = true ->
  forallb value_byte_ok (stored_value value) = true /\
  map key_value (stored_value value) = value.
Proof.
  intros Hv. destruct value as [|c vs]; [split; reflexivity|].
  simpl in Hv. apply andb_true_iff in Hv as [Hc Hvs].
  assert (Hrest : forallb value_byte_ok (map stored_value_byte vs) = true /\
                  map key_value (map stored_value_byte vs) = vs).
  { clear c Hc. induction vs as [|c vs IH]; [split; reflexivity|].
    simpl in Hvs. apply andb_true_iff in Hvs as [Hc Hvs].
    destruct (IH Hvs) as [IH1 IH2].
    destruct (stored_value_byte_ok c Hc) as [H1 H2].
    simpl. rewrite H1, IH1, H2, IH2. split; reflexivity. }
  destruct Hrest as [H1 H2].
  destruct (stored_value_byte_ok c Hc) as [H3 H4].
  unfold stored_value. simpl forallb. simpl map. rewrite H1, H2.
  destruct (isSpace c || isDelimiter c) eqn:Hsep.
  - split; [|reflexivity]. rewrite andb_true_r.
    unfold isSpace, isDelimiter in Hsep.
    repeat (apply orb_true_iff in Hsep as [Hsep|Hsep]);
      apply Z.eqb_eq in Hsep; subst c; reflexivity.
  - rewrite H3, H4. split; reflexivity.
Qed.

Lemma safe_not_eol c : safe c = true -> not_eol c = true.
Proof.
  intros Hc. destruct (safe_range c Hc). unfold not_eol.
  replace (c =? 10) with false by (symmetry; apply Z.eqb_neq; lia).
  now replace (c =? 13) with false by (symmetry; apply Z.eqb_neq; lia).
Qed.

Lemma key_text_not_eol ks :
  forallb safe (map key_value ks) = true ->
  forallb not_eol (flat_map key_text ks) = true.
Proof.
  induction ks as [|k ks IH]; intros Hks; [reflexivity|].
  simpl in Hks. apply andb_true_iff in Hks as [Hk Hks].
  simpl flat_map. rewrite forallb_app, (IH Hks), andb_true_r.
  destruct k as [c|c]; simpl in *; now rewrite (safe_not_eol c Hk).
Qed.

Lemma key_text_snoc ks k :
  flat_map key_text (ks ++ [k])
  = (flat_map key_text ks ++ removelast (key_text k)) ++ [key_value k].
Proof.
  rewrite flat_map_app. simpl flat_map. rewrite app_nil_r, <- app_assoc.
  f_equal. now destruct k.
Qed.

(** The stored line is one natural line of a key-value record: no
    end-of-line byte in it, no blank and no comment prefix in front, and
    no backslash at its end. *)
Lemma stored_line_natural key value :
  forallb safe key = true -> forallb safe value = true -> value <> [] ->
  forallb not_eol (stored_line key value) = true /\
  starts_blank (stored_line key value) = false /\
  comment_start [] (stored_line key value) = false /\
  Nat.odd (trailing_backslashes (stored_line key value)) = false.
Proof.
  intros Hk Hv Hne.
  destruct (stored_key_ok key Hk) as [_ Hkv].
  destruct (stored_value_ok value Hv) as [_ Hvv].
  split; [|split; [|split]].
  - rewrite stored_line_value, !forallb_app.
    rewrite (key_text_not_eol (map stored_key_byte key)) by now rewrite Hkv.
    rewrite (key_text_not_eol (stored_value value)) by now rewrite Hvv.
    reflexivity.
  - unfold stored_line. destruct key as [|c key]; [reflexivity|].
    simpl in Hk. apply andb_true_iff in Hk as [Hc _].
    simpl. unfold stored_key_byte.
    destruct (isSpace c || isDelimiter c || isCommentPrefix c) eqn:Hesc;
      [reflexivity|].
    simpl. apply orb_false_iff in Hesc as [Hesc _].
    now apply orb_false_iff in Hesc as [Hesc _].
  - unfold stored_line. destruct key as [|c key]; [reflexivity|].
    simpl. unfold stored_key_byte.
    destruct (isSpace c || isDelimiter c || isCommentPrefix c) eqn:Hesc;
      [reflexivity|].
    simpl. apply orb_false_iff in Hesc as [_ Hesc].
    unfold isCommentPrefix in Hesc. now rewrite Hesc.
  - rewrite stored_line_value.
    assert (Hs : stored_value value <> []) by (now destruct value).
    destruct (exists_last Hs) as (ks & k & Hlast).
    rewrite Hlast, key_text_snoc, !app_assoc, trailing_backslashes_snoc.
    rewrite Hlast, map_app in Hvv. simpl in Hvv.
    rewrite <- Hvv, forallb_app in Hv. simpl in Hv.
    apply andb_true_iff in Hv as [_ Hv]. apply andb_true_iff in Hv as [Hv _].
    destruct (safe_range _ Hv) as [_ H92].
    now replace (key_value k =? 92) with false
      by (symmetry; now apply Z.eqb_neq).
Qed.

(** The value part of a stored line starts with an ASCII byte that is
    not a separator. *)
Lemma stored_value_head value :
  forallb safe value = true -> value <> [] ->
  exists c tail, flat_map key_text (stored_value value) = c :: tail /\
                 0 <= c < 128 /\ isSeparator c = false.
Proof.
  intros Hv Hne. destruct value as [|c vs]; [contradiction|].
  simpl in Hv. apply andb_true_iff in Hv as [Hc _].
  destruct (safe_range c Hc). unfold stored_value.
  destruct (isSpace c || isDelimiter c) eqn:Hsep.
  - eexists 92, _. split; [reflexivity|]. split; [lia|reflexivity].
  - unfold stored_value_byte. destruct (isCommentPrefix c).
    + eexists 92, _. split; [reflexivity|]. split; [lia|reflexivity].
    + eexists c, _. split; [reflexivity|]. split; [lia|exact Hsep].
Qed.

(** Storing a table of one pair of safe strings, the value not empty,
    and loading what was stored gives the pair back, in either mode. *)
Lemma Store_Load_safe key value ascii :
  forallb safe key = true -> forallb safe value = true -> value <> [] ->
  Table_Store (single key value) 1%positive [] ascii
  = Ok (stored_line key value ++ [10], 1, None) /\
  Table_LoadString fresh_heap 1%positive (stored_line key value ++ [10])
  = Ok (single key value, 1, None).
Proof.
  intros Hk Hv Hne. split.
  - unfold Table_Store, single, deref. rewrite lookup_singleton_eq, bind_Ok.
    cbv beta. unfold entries. simpl data. cbv iota.
    rewrite map_to_list_singleton.
    rewrite forEach_cons. unfold storePair. simpl fst. simpl snd.
    rewrite (escape_safe key value ascii Hk Hv), bind_Ok.
    simpl forEach. rewrite bind_Ok. reflexivity.
  - destruct (stored_line_natural key value Hk Hv Hne)
      as (Hneol & Hblank & Hcomment & Hodd).
    set (line := stored_line key value) in *.
    assert (Hload : loadBytes (line ++ [10]) = Ok (line, None, [])).
    { unfold loadBytes.
      pose proof (loadBytes_natural_line (length (line ++ [10])) [] [] line
                    [10] [] eq_refl Hneol Hblank Hcomment eq_refl) as H.
      rewrite Hodd in H. simpl app in H. exact H. }
    destruct (stored_key_ok key Hk) as [Hkok Hkv].
    destruct (stored_value_ok value Hv) as [Hvok Hvv].
    destruct (stored_value_head value Hv Hne) as (c & tail & Hhead & Hc & Hsep).
    assert (Hline : line = flat_map key_text (map stored_key_byte key)
                             ++ 61 :: [] ++ c :: tail).
    { subst line. rewrite stored_line_value, Hhead, <- app_assoc. reflexivity. }
    assert (Hkey : unescape line true
                   = Ok (key, len (flat_map key_text (map stored_key_byte key)
                                   ++ [61]))).
    { rewrite Hline, (unescape_split _ 61 [] c tail Hkok eq_refl eq_refl Hc Hsep).
      rewrite Hkv, len_app. f_equal. f_equal.
      change (len [61]) with 1. change (len (@nil Z)) with 0. lia. }
    assert (Hval : slice_from line
                     (len (flat_map key_text (map stored_key_byte key) ++ [61]))
                   = Ok (flat_map key_text (stored_value value))).
    { subst line. rewrite stored_line_value. apply slice_from_app. }
    assert (Hfirst : (0 <? len line) && negb (at_ line 0 =? 35)
                     && negb (at_ line 0 =? 33) = true).
    { destruct line as [|x l] eqn:Hl.
      - destruct (flat_map key_text (map stored_key_byte key)); discriminate.
      - rewrite len_cons. pose proof (len_nonneg l).
        replace (0 <? len l + 1) with true by (symmetry; apply Z.ltb_lt; lia).
        change (at_ (x :: l) 0) with x. simpl in Hcomment.
        rewrite andb_true_r in Hcomment.
        apply orb_false_iff in Hcomment as [-> ->]. reflexivity. }
    unfold Table_LoadString, Table_Load, fresh_heap, deref.
    rewrite lookup_singleton_eq, bind_Ok.
    rewrite length_app. simpl length.
    replace (S (length line + 1)) with (S (S (length line))) by lia.
    rewrite Load_loop_eq, Hload, bind_Ok. cbv beta iota zeta.
    rewrite Hfirst, Hkey, bind_Ok. cbv beta iota zeta.
    rewrite Hval, bind_Ok, (unescape_value _ Hvok), bind_Ok.
    cbv beta iota zeta. rewrite bind_Ok. cbv beta iota zeta.
    rewrite Load_loop_eq. change (loadBytes []) with
      (Ok (@nil Z, Some EOF, @nil Z) : outcome (gostring * option error * Reader)).
    rewrite bind_Ok. cbv beta iota zeta. simpl andb. cbv iota.
    rewrite bind_Ok. cbv beta iota zeta. simpl negb. cbv iota.
    rewrite bind_Ok. unfold single, zeroTable, entries. simpl data. simpl defaults.
    rewrite Hvv, insert_empty, insert_singleton_eq. reflexivity.
Qed.

End RoundTrip.

(** ** Tables and their defaults chain *)

Section Tables.

Import properties.

(** Rewriting the table at [p] without touching its [defaults] pointer
    leaves every chain that does not pass through [p] as it was; the
    chain of [p] itself too. *)
Lemma chain_update (h : heap) (p : loc) (t t' : Table) :
  h !! p = Some t -> defaults t' = defaults t ->
  forall n p0, p ∉ chain n h p0 ->
               chain n (<[p := t']> h) p0 = chain n h p0.
Proof.
  intros Hp Hdef n. induction n as [|n IH]; intros p0 Hnot; [reflexivity|].
  simpl in *.
  destruct (decide (p = p0)) as [<-|Hne].
  - rewrite lookup_insert_eq, Hp, Hdef in *.
    destruct (defaults t) as [d|]; [|reflexivity].
    f_equal. apply IH. intros Hin. apply Hnot. now right.
  - rewrite lookup_insert_ne by exact Hne.
    destruct (h !! p0) as [t0|]; [|reflexivity].
    destruct (defaults t0) as [d|]; [|reflexivity].
    f_equal. apply IH. intros Hin. apply Hnot. now right.
Qed.

Lemma update_frame (h : heap) (p q : loc) (t' : Table) n :
  q ∈ chain n h p -> p ∉ chain n h p -> <[p := t']> h !! q = h !! q.
Proof.
  intros Hq Hp. apply lookup_insert_ne. intros ->. contradiction.
Qed.

End Tables.

(** C9: for a table [p] whose defaults chain is acyclic, [Set], [Delete]
    and [Clear] succeed and leave every table [q] down the defaults
    chain of [p] exactly as it was (its key-value contents and its own
    [defaults] pointer), and the chain itself is the same afterwards. *)
Theorem Set_Delete_Clear_frame :
  forall (h : properties.heap) (p q : properties.loc) (n : nat)
         (key value : gostring),
    is_Some (h !! p) ->
    q ∈ properties.chain n h p ->
    p ∉ properties.chain n h p ->
    (exists h', properties.Table_Set h p key value = Ok h' /\
                h' !! q = h !! q /\
                properties.chain n h' p = properties.chain n h p) /\
    (exists h', properties.Table_Delete h p key = Ok h' /\
                h' !! q = h !! q /\
                properties.chain n h' p = properties.chain n h p) /\
    (exists h', properties.Table_Clear h p = Ok h' /\
                h' !! q = h !! q /\
                properties.chain n h' p = properties.chain n h p).
Proof.
  intros h p q n key value [t Ht] Hq Hp.
  unfold properties.Table_Set, properties.Table_Delete, properties.Table_Clear,
    properties.deref.
  rewrite Ht. simpl.
  repeat split; eexists; (split; [reflexivity|]); split;
    solve [ eapply update_frame; eassumption
          | eapply chain_update; [eassumption|reflexivity|assumption] ].
Qed.

(** A table with one pair, whose defaults table has one pair and itself
    has a defaults table with one pair: clearing, setting or deleting in
    the first leaves the third as it is. *)
Lemma Set_Delete_Clear_frame_witness :
  let t3 := properties.mkTable (Some {[bytes_of "c" := bytes_of "3"]}) None in
  let t2 := properties.mkTable (Some {[bytes_of "b" := bytes_of "2"]})
                               (Some 3%positive) in
  let t1 := properties.mkTable (Some {[bytes_of "a" := bytes_of "1"]})
                               (Some 2%positive) in
  let h : properties.heap :=
    {[ 1%positive := t1; 2%positive := t2; 3%positive := t3 ]} in
  is_Some (h !! 1%positive) /\
  (3%positive ∈ properties.chain 3 h 1%positive) /\
  (1%positive ∉ properties.chain 3 h 1%positive) /\
  (exists h', properties.Table_Set h 1%positive (bytes_of "a") (bytes_of "x")
              = Ok h' /\
              h' !! 3%positive = h !! 3%positive /\
              properties.chain 3 h' 1%positive = properties.chain 3 h 1%positive) /\
  (exists h', properties.Table_Delete h 1%positive (bytes_of "a") = Ok h' /\
              h' !! 3%positive = h !! 3%positive /\
              properties.chain 3 h' 1%positive = properties.chain 3 h 1%positive) /\
  (exists h', properties.Table_Clear h 1%positive = Ok h' /\
              h' !! 3%positive = h !! 3%positive /\
              properties.chain 3 h' 1%positive = properties.chain 3 h 1%positive).
Proof.
  intros t3 t2 t1 h.
  assert (H1 : is_Some (h !! 1%positive)) by (exists t1; reflexivity).
  assert (H2 : 3%positive ∈ properties.chain 3 h 1%positive)
    by (vm_compute; right; left).
  assert (H3 : 1%positive ∉ properties.chain 3 h 1%positive).
  { vm_compute. intros H. inversion H as [|? ? ? H']; subst.
    inversion H' as [|? ? ? H'']; subst. inversion H''. }
  split; [exact H1|]. split; [exact H2|]. split; [exact H3|].
  exact (Set_Delete_Clear_frame h 1%positive 3%positive 3
           (bytes_of "a") (bytes_of "x") H1 H2 H3).
Defined.

(** [ClearAll], by contrast, empties every table down the chain. *)
Lemma ClearAll_reaches_defaults :
  let t2 := properties.mkTable (Some {[bytes_of "b" := bytes_of "2"]}) None in
  let t1 := properties.mkTable (Some {[bytes_of "a" := bytes_of "1"]})
                               (Some 2%positive) in
  let h : properties.heap := {[ 1%positive := t1; 2%positive := t2 ]} in
  properties.Table_ClearAll h 1%positive
  = Ok {[ 1%positive := properties.mkTable (Some ∅) (Some 2%positive);
          2%positive := properties.mkTable (Some ∅) None ]}.
Proof. vm_compute. reflexivity. Qed.

(** ** The option parsers *)

Section Getopt.

Import getopt_option.

Lemma Args_forget q : getopt_next.Args (forget q) = Args q.
Proof. reflexivity. Qed.

(** The two tails agree, and the tail of [Option] never sets [done]. *)
Lemma Next_option_forget q :
  getopt_next.Next_option (forget q) = forget_result (Option_option q).
Proof.
  destruct q as [a oi op o ha d].
  unfold Option_option, getopt_next.Next_option, forget_result, forget; simpl.
  destruct (index_cases a oi) as [->|[s ->]]; simpl; [reflexivity|].
  destruct (index_cases s op) as [->|[b ->]]; simpl; [reflexivity|].
  destruct (len s <=? op + 1); simpl;
    repeat match goal with
           | |- context [if ?c then _ else _] => destruct c; simpl
           end; reflexivity.
Qed.

Lemma Option_option_done q r e q' :
  Option_option q = Ok (r, e, q') -> done q' = done q.
Proof.
  destruct q as [a oi op o ha d].
  unfold Option_option; simpl.
  destruct (index_cases a oi) as [->|[s ->]]; simpl; [discriminate|].
  destruct (index_cases s op) as [->|[b ->]]; simpl; [discriminate|].
  destruct (len s <=? op + 1); simpl;
    repeat match goal with
           | |- context [if ?c then _ else _] => destruct c; simpl
           end; intros [= <- <- <-]; reflexivity.
Qed.

(** One call: as long as [done] is unset the two calls return the same
    and leave the same parser. *)
Lemma Next_forget q :
  done q = false ->
  getopt_next.Next (forget q) = forget_result (Option q).
Proof.
  intros Hd. destruct q as [a oi op o ha d]. simpl in Hd. subst d.
  unfold Option, getopt_next.Next; simpl.
  destruct ha; simpl.
  - destruct (len a <=? oi + 1); simpl; [reflexivity|].
    destruct (index_cases a (oi + 1)) as [->|[s ->]]; simpl; [reflexivity|].
    destruct ((len s <=? 1) || negb (at_ s 0 =? 45)); simpl; [reflexivity|].
    destruct ((len s =? 2) && (at_ s 1 =? 45)); simpl; [reflexivity|].
    apply (Next_option_forget (mkParser a (oi + 1) 1 o false false)).
  - destruct (len a <=? oi); simpl; [reflexivity|].
    destruct (op =? 0); simpl.
    + destruct (index_cases a oi) as [->|[s ->]]; simpl; [reflexivity|].
      destruct ((len s <=? 1) || negb (at_ s 0 =? 45)); simpl; [reflexivity|].
      destruct ((len s =? 2) && (at_ s 1 =? 45)); simpl; [reflexivity|].
      apply (Next_option_forget (mkParser a oi 1 o false false)).
    + apply (Next_option_forget (mkParser a oi op o false false)).
Qed.

(** [done] is set only by a call that returns [EndOption]. *)
Lemma Option_sets_done q r e q' :
  done q = false -> Option q = Ok (r, e, q') ->
  done q' = true -> r = EndOption.
Proof.
  intros Hd. destruct q as [a oi op o ha d]. simpl in Hd. subst d.
  unfold Option; simpl.
  assert (Htail : forall q0, done q0 = false ->
            Option_option q0 = Ok (r, e, q') -> done q' = true -> r = EndOption).
  { intros q0 H0 H1 H2. apply Option_option_done in H1. congruence. }
  destruct ha; simpl.
  - destruct (len a <=? oi + 1); simpl; [congruence|].
    destruct (index_cases a (oi + 1)) as [->|[s ->]]; simpl; [discriminate|].
    destruct ((len s <=? 1) || negb (at_ s 0 =? 45)); simpl; [congruence|].
    destruct ((len s =? 2) && (at_ s 1 =? 45)); simpl; [congruence|].
    now apply Htail.
  - destruct (len a <=? oi); simpl; [congruence|].
    destruct (op =? 0); simpl.
    + destruct (index_cases a oi) as [->|[s ->]]; simpl; [discriminate|].
      destruct ((len s <=? 1) || negb (at_ s 0 =? 45)); simpl; [congruence|].
      destruct ((len s =? 2) && (at_ s 1 =? 45)); simpl; [congruence|].
      now apply Htail.
    + now apply Htail.
Qed.

(** Once [done] is set, [Option] returns the sentinel and changes
    nothing. *)
Lemma Option_done q : done q = true -> Option q = Ok (EndOption, None, q).
Proof. intros H. unfold Option. now rewrite H. Qed.

Lemma run_sim k : forall q,
  done q = false ->
  until_end (run k q) = until_end (getopt_next.run k (forget q)).
Proof.
  induction k as [|k IH]; intros q Hd; [reflexivity|].
  simpl. rewrite (Next_forget q Hd).
  destruct (Option q) as [[[r e] q']| |] eqn:Hq; simpl; try reflexivity.
  rewrite Args_forget.
  destruct (r =? EndOption) eqn:Hr; [reflexivity|].
  f_equal. apply IH.
  destruct (done q') eqn:Hd'; [|reflexivity].
  apply Z.eqb_neq in Hr. destruct Hr.
  exact (Option_sets_done q r e q' Hd Hq Hd').
Qed.

End Getopt.

(** * Further properties *)

(** ** The escape codec on every input *)

Section CodecBounds.

Import properties.

#[local] Arguments hexDigit : simpl never.
#[local] Arguments Z.shiftr : simpl never.

#[local] Arguments hexDigit : simpl never.
#[local] Arguments Z.shiftr : simpl never.

(** X2. [unescapeRune] returns on every input.  It consumes nothing exactly
    when the input does not start with a backslash, and then reports
    [RuneError]; otherwise it consumes at most six bytes, and never
    more than the input holds. *)
Theorem unescapeRune_bounds (p : gostring) :
  exists r n, unescapeRune p = Ok (r, n) /\
              0 <= n <= 6 /\ n <= len p /\
              (n = 0 <-> p = [] \/ at_ p 0 <> 92) /\
              (n = 0 -> r = utf8.RuneError).
Proof.
  destruct (unescapeRune_total p) as (r & n & H & Hn & Hl & _ & H0).
  destruct ((len p <? 1) || negb (at_ p 0 =? 92)) eqn:Hc.
  - rewrite unescapeRune_eq in H. cbv zeta in H. rewrite Hc in H.
    injection H as <- <-. exists utf8.RuneError, 0.
    rewrite unescapeRune_eq. cbv zeta. rewrite Hc.
    split; [reflexivity|]. split; [lia|]. split; [exact Hl|].
    split; [|reflexivity]. split; [|reflexivity]. intros _.
    apply orb_true_iff in Hc as [Hc|Hc].
    + left. apply Z.ltb_lt in Hc. destruct p; [reflexivity|].
      rewrite len_cons in Hc. pose proof (len_nonneg p). lia.
    + right. apply negb_true_iff, Z.eqb_neq in Hc. exact Hc.
  - exists r, n. split; [exact H|]. split; [exact Hn|]. split; [exact Hl|].
    apply orb_false_iff in Hc as [Hlen Hat].
    apply Z.ltb_ge in Hlen. apply negb_false_iff, Z.eqb_eq in Hat.
    assert (Hne : n <> 0).
    { intros Hz. destruct (H0 Hz) as [->|Hb]; [|contradiction].
      change (len (@nil Z)) with 0 in Hlen. lia. }
    split; [|intros; contradiction]. split; [intros; contradiction|].
    intros [->|Hb]; [|contradiction].
    change (len (@nil Z)) with 0 in Hlen. lia.
Qed.

(** With the splitter off, the loop of [unescape] runs to the end of the
    input, whatever the fuel above its length. *)
Lemma unescape_loop_value_all fuel : forall p b n,
  (length p < fuel)%nat ->
  exists b', unescape_loop fuel p false b n = Ok (b', n + len p).
Proof.
  induction fuel as [|fuel IH]; intros p b n Hfuel; [lia|].
  rewrite unescape_loop_eq. destruct (0 <? len p) eqn:Hp.
  2:{ apply len_zero in Hp. subst p. exists b. f_equal. f_equal.
      change (len (@nil Z)) with 0. lia. }
  apply len_pos in Hp.
  destruct (unescapeRune_total p) as (r & size & -> & Hs6 & Hsl & _ & _).
  rewrite bind_Ok. cbv beta iota zeta.
  assert (Hstep : forall size r, 1 <= size <= len p ->
            exists b', (p0 ← slice_from p size;
                        unescape_loop fuel p0 false (b ++ utf8.EncodeRune r)
                          (n + size)) = Ok (b', n + len p)).
  { intros size0 r0 Hs. rewrite slice_from_ok by lia. rewrite bind_Ok.
    pose proof (length_drop_Z p size0 Hs) as Hd.
    destruct (IH (drop (Z.to_nat size0) p) (b ++ utf8.EncodeRune r0)
                (n + size0)) as (b' & ->); [lia|].
    exists b'. f_equal. f_equal. unfold len in *.
    rewrite length_drop. lia. }
  destruct (size =? 0) eqn:Hz.
  - pose proof (DecodeRune_size p Hp) as Hd.
    destruct (utf8.DecodeRune p) as [r' size']. simpl in Hd.
    simpl andb. cbv iota. rewrite bind_Ok. apply Hstep. lia.
  - rewrite bind_Ok. apply Z.eqb_neq in Hz. apply Hstep. lia.
Qed.

(** X4. Unescaping a value, that is with the splitter off, never panics and
    consumes the whole input: the count returned is the length of the
    input. *)
Theorem unescape_value_total (p : gostring) :
  exists b, unescape p false = Ok (b, len p).
Proof.
  destruct (unescape_loop_value_all (S (length p)) p [] 0) as (b & H); [lia|].
  exists b. exact H.
Qed.

Lemma hexDigit_range r :
  (48 <= hexDigit r <= 57) \/ (97 <= hexDigit r <= 102).
Proof.
  unfold hexDigit. cbv zeta.
  assert (0 <= Z.land 15 r < 16).
  { rewrite Z.land_comm. change 15 with (Z.ones 4).
    rewrite Z.land_ones by lia. apply Z.mod_pos_bound. lia. }
  destruct (9 <? Z.land 15 r) eqn:H9;
    [apply Z.ltb_lt in H9|apply Z.ltb_ge in H9]; lia.
Qed.

Lemma hexEscape_printable r : forallb printable (hexEscape r) = true.
Proof.
  unfold hexEscape. cbn [forallb]. unfold printable at 1 2.
  cbn [Z.leb andb].
  assert (Hd : forall x, printable (hexDigit x) = true).
  { intros x. unfold printable. destruct (hexDigit_range x);
      apply andb_true_iff; split; apply Z.leb_le; lia. }
  rewrite !Hd. reflexivity.
Qed.

Lemma escapeValue_all :
  forall_from (Z.to_nat 65536) 0
    (fun c => match escapeValue (hexEscape c) with
              | Some v => v =? c
              | None => false
              end) = true.
Proof. vm_compute. reflexivity. Qed.

Lemma escapeValue_hexEscape c :
  0 <= c <= 0xffff -> escapeValue (hexEscape c) = Some c.
Proof.
  intros Hc.
  pose proof (forall_from_spec _ _ _ escapeValue_all c ltac:(lia)) as H.
  cbv beta in H. destruct (escapeValue (hexEscape c)) as [v|]; [|discriminate].
  apply Z.eqb_eq in H. now subst.
Qed.

(** X1. What [escapeRune] writes into its twelve-byte buffer, for any
    rune: nothing for a printable ASCII character; for a rune above
    U+FFFF the escapes of its two UTF-16 surrogates, twelve bytes; for
    any other rune its one escape, six bytes, a negative rune written
    as U+FFFD.  The bytes go to the front of the buffer, the rest of
    which stays, and their number is returned.  An escape is a
    backslash, [u] and the four lowercase hexadecimal digits of the
    number, so every byte written is printable ASCII; the surrogates
    are such numbers. *)
Theorem escapeRune_writes (buffer : gostring) (r : Z) :
  length buffer = 12%nat ->
  let w := if printable r then []
           else if 0xffff <? r
                then hexEscape (utf16.EncodeRune r).1
                     ++ hexEscape (utf16.EncodeRune r).2
                else hexEscape (if r <? 0 then utf8.RuneError else r) in
  escapeRune buffer r = Ok (w ++ drop (length w) buffer, len w) /\
  len w = (if printable r then 0 else if 0xffff <? r then 12 else 6) /\
  forallb printable w = true /\
  (forall c, 0 <= c <= 0xffff -> escapeValue (hexEscape c) = Some c) /\
  0 <= (utf16.EncodeRune r).1 <= 0xffff /\
  0 <= (utf16.EncodeRune r).2 <= 0xffff.
Proof.
  intros Hlen w.
  assert (Hw : w = asciiEscape r).
  { unfold w, asciiEscape. destruct (printable r) eqn:Hp.
    - unfold printable in Hp. apply andb_true_iff in Hp as [_ Hp].
      apply Z.leb_le in Hp.
      now replace (65535 <? r) with false by (symmetry; apply Z.ltb_ge; lia).
    - reflexivity. }
  split; [|split; [|split; [|split]]].
  - rewrite Hw. unfold escapeRune, asciiEscape.
    rewrite escapeRune_rec_eq.
    destruct (65535 <? r) eqn:Hbig.
    + destruct (surrogates_range r) as (H1 & H2 & H3 & H4 & H5 & H6).
      destruct (utf16.EncodeRune r) as [r1 r2]. cbn [fst snd] in *.
      rewrite escapeRune_rec_unit by (try assumption; lia).
      rewrite bind_Ok. cbv beta iota zeta.
      change 6 with (len (hexEscape r1)) at 1.
      rewrite slice_from_app, bind_Ok.
      rewrite escapeRune_rec_unit by (try assumption; rewrite length_drop; lia).
      rewrite bind_Ok. cbv beta iota zeta.
      rewrite (take_app_length' (hexEscape r1)) by reflexivity.
      rewrite length_app, !hexEscape_length, drop_drop, len_app.
      rewrite <- app_assoc. reflexivity.
    + fold (printable r). destruct (printable r) eqn:Hp; [reflexivity|].
      rewrite escape_unit by lia. reflexivity.
  - unfold w. destruct (printable r); [reflexivity|].
    destruct (65535 <? r); reflexivity.
  - unfold w. destruct (printable r); [reflexivity|].
    destruct (65535 <? r).
    + now rewrite forallb_app, !hexEscape_printable.
    + apply hexEscape_printable.
  - apply escapeValue_hexEscape.
  - destruct (surrogates_range r) as (H1 & H2 & _ & _ & H5 & H6).
    apply Z.leb_le in H1, H2. apply Z.ltb_ge in H5, H6. lia.
Qed.

Lemma escapeRune_writes_witness :
  let w := hexEscape 0x20AC in
  escapeRune (replicate 12 0) 0x20AC
  = Ok (w ++ drop (length w) (replicate 12 0), len w) /\
  len w = 6 /\
  forallb printable w = true /\
  (forall c, 0 <= c <= 0xffff -> escapeValue (hexEscape c) = Some c) /\
  0 <= (utf16.EncodeRune 0x20AC).1 <= 0xffff /\
  0 <= (utf16.EncodeRune 0x20AC).2 <= 0xffff.
Proof. apply (escapeRune_writes (replicate 12 0) 0x20AC). reflexivity. Defined.

Lemma escapeRune_unescapeRune_bmp_witness :
  escapeRune (replicate 12 0) 0x20AC
  = Ok (hexEscape 0x20AC ++ replicate 6 0, 6) /\
  unescapeRune (hexEscape 0x20AC) = Ok (0x20AC, 6).
Proof. apply (escapeRune_unescapeRune_bmp 0x20AC). reflexivity. Defined.

End CodecBounds.

(** ** The natural-line reader on every input *)

Section ReaderInvariants.

Import properties.

Lemma skipBlanks_eof r : forall x x' err r',
  skipBlanks x r = (x', Some err, r') -> r' = [].
Proof.
  induction r as [|y r IH]; intros x x' err r'; simpl.
  - destruct ((x =? 9) || (x =? 12) || (x =? 32)); congruence.
  - destruct ((x =? 9) || (x =? 12) || (x =? 32)); [apply IH|congruence].
Qed.

Lemma copyLine_inv r : forall x esc b x' esc' b' e r',
  copyLine x esc b r = (x', esc', b', e, r') ->
  (forallb not_eol b = true -> forallb not_eol b' = true) /\
  (forall err, e = Some err -> r' = []).
Proof.
  induction r as [|y r IH]; intros x esc b x' esc' b' e r'; simpl.
  - destruct (negb (x =? 10) && negb (x =? 13)) eqn:Hx; intros [= <- <- <- <- <-].
    + split; [|reflexivity]. intros Hb. rewrite forallb_app, Hb. simpl.
      unfold not_eol. now rewrite Hx.
    + split; [auto|discriminate].
  - destruct (negb (x =? 10) && negb (x =? 13)) eqn:Hx.
    + intros H. apply IH in H as [Hb He]. split; [|exact He].
      intros Hb0. apply Hb. rewrite forallb_app, Hb0. simpl.
      unfold not_eol. now rewrite Hx.
    + intros [= <- <- <- <- <-]. split; [auto|discriminate].
Qed.

Lemma afterLine_eof x r err r' : afterLine x r = (Some err, r') -> r' = [].
Proof.
  unfold afterLine, ReadByte, UnreadByte.
  destruct (x =? 13); [|discriminate].
  destruct r as [|y r]; [congruence|].
  destruct (negb (y =? 10)); discriminate.
Qed.

Lemma take_not_eol (b : gostring) n :
  forallb not_eol b = true -> forallb not_eol (take n b) = true.
Proof.
  intros Hb. rewrite <- (take_drop n b), forallb_app in Hb.
  now apply andb_true_iff in Hb as [Hb _].
Qed.

(** The logical line holds no end-of-line byte, and an error is
    reported only once the input is used up. *)
Lemma loadBytes_loop_inv fuel : forall b r b' e r',
  forallb not_eol b = true ->
  loadBytes_loop fuel b r = Ok (b', e, r') ->
  forallb not_eol b' = true /\ (forall err, e = Some err -> r' = []).
Proof.
  induction fuel as [|fuel IH]; intros b r b' e r' Hb; [discriminate|].
  rewrite loadBytes_loop_eq. cbv zeta.
  destruct r as [|x0 r0]; simpl ReadByte; cbv iota.
  { intros [= <- <- <-]. auto. }
  destruct (skipBlanks x0 r0) as [[x1 [err|]] r1] eqn:Hskip.
  { intros [= <- <- <-]. split; [exact Hb|]. intros _ _.
    eapply skipBlanks_eof; eauto. }
  destruct (copyLine x1 false b r1) as [[[[x2 esc] b2] [err|]] r2] eqn:Hcopy;
    apply copyLine_inv in Hcopy as [Hb2 He2]; specialize (Hb2 Hb).
  { intros [= <- <- <-]. split; [exact Hb2|]. intros _ _. eapply He2; eauto. }
  destruct (afterLine x2 r2) as [[err|] r3] eqn:Hafter.
  { intros [= <- <- <-]. split; [exact Hb2|]. intros _ _.
    eapply afterLine_eof; eauto. }
  destruct (negb (((x1 =? 35) || (x1 =? 33)) && (len b =? 0))).
  2:{ intros [= <- <- <-]. split; [exact Hb2|discriminate]. }
  destruct esc.
  2:{ intros [= <- <- <-]. split; [exact Hb2|discriminate]. }
  unfold slice_to.
  destruct ((0 <=? len b2 - 1) && (len b2 - 1 <=? len b2)); [|discriminate].
  rewrite bind_Ok. apply IH. now apply take_not_eol.
Qed.

(** X5. [loadBytes] returns on every input and never panics.  The logical
    line it returns holds no line feed and no carriage return.  The
    only error it reports is [io.EOF], and then nothing is left to
    read; without an error it has consumed at least one byte. *)
Theorem loadBytes_returns (r : Reader) :
  exists b e r',
    loadBytes r = Ok (b, e, r') /\
    forallb not_eol b = true /\
    match e with
    | None => (length r' < length r)%nat
    | Some err => err = EOF /\ r' = []
    end.
Proof.
  destruct (loadBytes_ok r) as (b & e & r' & Heq & Hl & He).
  exists b, e, r'. split; [exact Heq|].
  destruct (loadBytes_loop_inv (S (length r)) [] r b e r' eq_refl Heq)
    as [Hb Hr].
  split; [exact Hb|]. destruct e as [err|]; [|now apply Hl].
  split; [now apply He|now apply (Hr err)].
Qed.

End ReaderInvariants.

(** ** Loading line by line *)

Section LoadingLines.

Import properties.

(** The reader returns a whole comment line, the blanks in front of it
    apart, whatever the line ends with. *)
Lemma loadBytes_comment_line fuel ws c body eol rest :
  forallb isSpace ws = true ->
  isCommentPrefix c = true ->
  forallb not_eol body = true ->
  eol_before eol rest = true ->
  loadBytes_loop (S fuel) [] (ws ++ (c :: body) ++ eol ++ rest)
  = Ok (c :: body, None, rest).
Proof.
  intros Hws Hc Hbody Heol.
  destruct (eol_before_split eol rest Heol)
    as (e & eol' & -> & He & Hes & Hec & Hafter).
  assert (Hcs : isSpace c = false /\ not_eol c = true).
  { unfold isCommentPrefix in Hc. apply orb_true_iff in Hc as [Hc|Hc];
      apply Z.eqb_eq in Hc; subst c; split; reflexivity. }
  destruct Hcs as [Hcs Hcn].
  change ((c :: body) ++ (e :: eol') ++ rest)
    with (c :: body ++ e :: eol' ++ rest).
  simpl loadBytes_loop.
  pose proof (read_skip ws c (body ++ e :: eol' ++ rest) Hws Hcs) as Hread.
  destruct (ReadByte (ws ++ c :: body ++ e :: eol' ++ rest))
    as [[y [err|]] r1]; [contradiction|].
  rewrite Hread. clear Hread.
  rewrite (copyLine_run body c false [] e (eol' ++ rest)).
  2:{ simpl. now rewrite Hcn, Hbody. }
  2:{ exact He. }
  rewrite Hafter. unfold isCommentPrefix in Hc. rewrite Hc.
  change (len (@nil Z) =? 0) with true. reflexivity.
Qed.

(** The first bytes of a line [Load] passes over. *)
Lemma ignored_first line :
  ignored line = true ->
  (0 <? len line) && negb (at_ line 0 =? 35) && negb (at_ line 0 =? 33) = false.
Proof.
  destruct line as [|c line]; [reflexivity|]. cbn [ignored]. intros Hc.
  change (at_ (c :: line) 0) with c. unfold isCommentPrefix in Hc.
  destruct (c =? 35); [now rewrite andb_false_r|].
  destruct (c =? 33); [now rewrite andb_false_r|discriminate].
Qed.

Lemma loadBytes_ignored_line ws line eol rest :
  forallb isSpace ws = true ->
  forallb not_eol line = true ->
  ignored line = true ->
  eol_before eol rest = true ->
  loadBytes (ws ++ line ++ eol ++ rest) = Ok (line, None, rest).
Proof.
  intros Hws Hline Hig Heol. unfold loadBytes.
  destruct line as [|c body].
  - apply (loadBytes_natural_line _ [] ws [] eol rest Hws eq_refl eq_refl
             eq_refl Heol).
  - simpl in Hline. apply andb_true_iff in Hline as [_ Hbody].
    now apply loadBytes_comment_line.
Qed.

(** Beyond the length of the input, the fuel of the loop of [Load] does
    not matter. *)
Lemma Load_loop_fuel fuel : forall fuel' d count r,
  (length r < fuel)%nat -> (length r < fuel')%nat ->
  Load_loop fuel d count r = Load_loop fuel' d count r.
Proof.
  induction fuel as [|fuel IH]; intros fuel' d count r H1 H2; [lia|].
  destruct fuel' as [|fuel']; [lia|].
  rewrite !Load_loop_eq.
  destruct (loadBytes_ok r) as (b & e & r' & -> & Hl & He).
  rewrite !bind_Ok. cbv beta iota zeta.
  match goal with
  | |- mbind _ ?m = _ => destruct m as [[d' c']| |]; try reflexivity
  end.
  rewrite !bind_Ok. cbv beta iota zeta.
  destruct e as [err|]; [reflexivity|].
  specialize (Hl eq_refl). apply IH; lia.
Qed.

Lemma Load_loop_ignored fuel d count ws line eol rest :
  forallb isSpace ws = true ->
  forallb not_eol line = true ->
  ignored line = true ->
  eol_before eol rest = true ->
  Load_loop (S fuel) d count (ws ++ line ++ eol ++ rest)
  = Load_loop fuel d count rest.
Proof.
  intros Hws Hline Hig Heol.
  rewrite Load_loop_eq, (loadBytes_ignored_line ws line eol rest) by assumption.
  rewrite bind_Ok. cbv beta iota zeta.
  rewrite (ignored_first line Hig), bind_Ok. reflexivity.
Qed.

(** X7. [Load] passes over blank lines and comment lines: a natural line
    that, after its leading blanks, is empty or starts with [#] or [!]
    changes nothing, whatever else it holds, a trailing backslash
    included; loading goes on with what follows its end-of-line
    sequence. *)
Theorem Load_ignores_line (h : heap) (p : loc) (ws line eol rest : gostring) :
  forallb isSpace ws = true ->
  forallb not_eol line = true ->
  ignored line = true ->
  eol_before eol rest = true ->
  Table_LoadString h p (ws ++ line ++ eol ++ rest) = Table_LoadString h p rest.
Proof.
  intros Hws Hline Hig Heol. unfold Table_LoadString, Table_Load.
  destruct (deref h p) as [t| |]; [|reflexivity|reflexivity].
  rewrite !bind_Ok.
  assert (Hlen : (length rest < length (ws ++ line ++ eol ++ rest))%nat).
  { rewrite !length_app.
    destruct eol as [|e eol]; [discriminate|]. simpl. lia. }
  rewrite Load_loop_ignored by assumption.
  rewrite (Load_loop_fuel _ (S (length rest))) by lia.
  reflexivity.
Qed.

Lemma Load_ignores_line_witness :
  Table_LoadString fresh_heap 1%positive
    ([32] ++ bytes_of "# k=v \" ++ [13; 10] ++ bytes_of "a=b")
  = Table_LoadString fresh_heap 1%positive (bytes_of "a=b").
Proof.
  apply (Load_ignores_line fresh_heap 1%positive [32] (bytes_of "# k=v \")
           [13; 10] (bytes_of "a=b")); reflexivity.
Defined.

Lemma storable_parts kv :
  storable kv = true ->
  forallb safe kv.1 = true /\ forallb safe kv.2 = true /\ kv.2 <> [].
Proof.
  unfold storable. intros H. apply andb_true_iff in H as [H Hne].
  apply andb_true_iff in H as [Hk Hv]. repeat split; try assumption.
  destruct kv.2; [discriminate|congruence].
Qed.

(** [Load] on one stored line: the pair is assigned and counted. *)
Lemma Load_loop_stored_line fuel d count key value rest :
  forallb safe key = true -> forallb safe value = true -> value <> [] ->
  Load_loop (S fuel) d count (stored_line key value ++ 10 :: rest)
  = Load_loop fuel (<[key := value]> d) (count + 1) rest.
Proof.
  intros Hk Hv Hne.
  destruct (stored_line_natural key value Hk Hv Hne)
    as (Hneol & Hblank & Hcomment & Hodd).
  set (line := stored_line key value) in *.
  assert (Hload : loadBytes (line ++ 10 :: rest) = Ok (line, None, rest)).
  { unfold loadBytes.
    pose proof (loadBytes_natural_line (length (line ++ 10 :: rest)) [] [] line
                  [10] rest eq_refl Hneol Hblank Hcomment eq_refl) as H.
    rewrite Hodd in H. exact H. }
  destruct (stored_key_ok key Hk) as [Hkok Hkv].
  destruct (stored_value_ok value Hv) as [Hvok Hvv].
  destruct (stored_value_head value Hv Hne) as (c & tail & Hhead & Hc & Hsep).
  assert (Hline : line = flat_map key_text (map stored_key_byte key)
                           ++ 61 :: [] ++ c :: tail).
  { subst line. rewrite stored_line_value, Hhead, <- app_assoc. reflexivity. }
  assert (Hkey : unescape line true
                 = Ok (key, len (flat_map key_text (map stored_key_byte key)
                                 ++ [61]))).
  { rewrite Hline, (unescape_split _ 61 [] c tail Hkok eq_refl eq_refl Hc Hsep).
    rewrite Hkv, len_app. f_equal. f_equal.
    change (len [61]) with 1. change (len (@nil Z)) with 0. lia. }
  assert (Hval : slice_from line
                   (len (flat_map key_text (map stored_key_byte key) ++ [61]))
                 = Ok (flat_map key_text (stored_value value))).
  { subst line. rewrite stored_line_value. apply slice_from_app. }
  assert (Hfirst : (0 <? len line) && negb (at_ line 0 =? 35)
                   && negb (at_ line 0 =? 33) = true).
  { destruct line as [|x l] eqn:Hl.
    - destruct (flat_map key_text (map stored_key_byte key)); discriminate.
    - rewrite len_cons. pose proof (len_nonneg l).
      replace (0 <? len l + 1) with true by (symmetry; apply Z.ltb_lt; lia).
      change (at_ (x :: l) 0) with x. simpl in Hcomment.
      rewrite andb_true_r in Hcomment.
      apply orb_false_iff in Hcomment as [-> ->]. reflexivity. }
  rewrite Load_loop_eq, Hload, bind_Ok. cbv beta iota zeta.
  rewrite Hfirst, Hkey, bind_Ok. cbv beta iota zeta.
  rewrite Hval, bind_Ok, (unescape_value _ Hvok), bind_Ok.
  cbv beta iota zeta. rewrite bind_Ok. cbv beta iota zeta.
  rewrite Hvv. reflexivity.
Qed.

Lemma Load_loop_stored_lines l : forall fuel d count,
  forallb storable l = true -> (length l < fuel)%nat ->
  Load_loop fuel d count (stored_lines l) =
  Ok (assign_all d l, count + len l, None).
Proof.
  induction l as [|[key value] l IH]; intros fuel d count Hl Hfuel.
  - destruct fuel; [simpl in Hfuel; lia|]. rewrite Z.add_0_r. reflexivity.
  - destruct fuel; [simpl in Hfuel; lia|].
    simpl in Hl. apply andb_true_iff in Hl as [Hkv Hl].
    destruct (storable_parts _ Hkv) as (Hk & Hv & Hne).
    unfold stored_lines. cbn [flat_map fst snd]. fold (stored_lines l).
    rewrite <- app_assoc. cbn [app].
    rewrite Load_loop_stored_line by assumption.
    rewrite IH by (try assumption; simpl in Hfuel; lia).
    cbn [assign_all foldl fst snd]. rewrite len_cons.
    f_equal. f_equal. f_equal. lia.
Qed.

Lemma stored_lines_length l : (length l <= length (stored_lines l))%nat.
Proof.
  induction l as [|kv l IH]; [reflexivity|].
  unfold stored_lines. cbn [flat_map]. fold (stored_lines l).
  rewrite !length_app. simpl. lia.
Qed.

(** X8. Loading the lines that [Store] writes for a list of pairs of safe
    strings, the values not empty: each line is one assignment into
    the table's own map, a later line overriding an earlier one with
    the same key and what the table held; the count returned is the
    number of lines, the error is nil, and the defaults stay. *)
Theorem Load_stored_lines (h : heap) (p : loc) (t : Table)
    (l : list (gostring * gostring)) :
  h !! p = Some t ->
  forallb storable l = true ->
  Table_LoadString h p (stored_lines l)
  = Ok (<[p := mkTable (Some (assign_all (entries t) l)) (defaults t)]> h,
        len l, None).
Proof.
  intros Hp Hl. unfold Table_LoadString, Table_Load, deref.
  rewrite Hp, bind_Ok.
  rewrite Load_loop_stored_lines
    by (try assumption; pose proof (stored_lines_length l); lia).
  rewrite bind_Ok. reflexivity.
Qed.

Lemma Load_stored_lines_witness :
  let t := mkTable (Some {[bytes_of "a" := bytes_of "0"]}) None in
  let l := [(bytes_of "a", bytes_of "1"); (bytes_of "b c", bytes_of " 2");
            (bytes_of "a", bytes_of "3")] in
  Table_LoadString {[ 1%positive := t ]} 1%positive (stored_lines l)
  = Ok (<[1%positive := mkTable (Some (assign_all (entries t) l)) (defaults t)]>
          {[ 1%positive := t ]}, len l, None).
Proof.
  intros t l.
  apply (Load_stored_lines {[ 1%positive := t ]} 1%positive t l);
    [apply lookup_singleton_eq|reflexivity].
Defined.

(** [Store] on pairs of safe strings: one stored line per pair. *)
Lemma forEach_storePair ascii l : forall w count,
  forallb (fun kv => forallb safe kv.1 && forallb safe kv.2) l = true ->
  forEach (storePair ascii) l (w, count)
  = Ok (w ++ stored_lines l, count + len l).
Proof.
  induction l as [|[key value] l IH]; intros w count Hl.
  - simpl. rewrite app_nil_r, Z.add_0_r. reflexivity.
  - simpl in Hl. apply andb_true_iff in Hl as [Hkv Hl].
    apply andb_true_iff in Hkv as [Hk Hv].
    rewrite forEach_cons.
    change (storePair ascii (w, count) (key, value))
      with (line ← escape key value ascii; Ok (w ++ line ++ [10], count + 1)).
    rewrite (escape_safe key value ascii Hk Hv), bind_Ok, bind_Ok.
    rewrite IH by exact Hl.
    unfold stored_lines. cbn [flat_map fst snd]. fold (stored_lines l).
    rewrite len_cons, <- !app_assoc. f_equal. f_equal. lia.
Qed.

Lemma assign_all_list_to_map l : forall d : gmap gostring gostring,
  assign_all d l = list_to_map (reverse l) ∪ d.
Proof.
  induction l as [|[k v] l IH]; intros d.
  - cbn. now rewrite (left_id_L ∅ (∪)).
  - cbn [assign_all foldl fst snd]. fold (assign_all (<[k := v]> d) l).
    rewrite IH, reverse_cons, list_to_map_app. cbn [list_to_map].
    rewrite <- (assoc_L (∪)). f_equal.
    change (list_to_map [(k, v)] : gmap gostring gostring)
      with (<[k := v]> (∅ : gmap gostring gostring)).
    rewrite insert_empty. apply insert_union_singleton_l.
Qed.

Lemma assign_all_permutation (m : gmap gostring gostring) l :
  l ≡ₚ map_to_list m -> assign_all ∅ l = m.
Proof.
  intros Hl. rewrite assign_all_list_to_map, (right_id_L ∅ (∪)).
  transitivity (list_to_map (map_to_list m) : gmap gostring gostring);
    [|apply list_to_map_to_list].
  symmetry. apply list_to_map_proper.
  - apply NoDup_fst_map_to_list.
  - rewrite <- Hl. symmetry. apply reverse_Permutation.
Qed.

(** Loading stored lines into a fresh table. *)
Lemma Load_fresh_lines (m : gmap gostring gostring) l :
  forallb storable l = true -> assign_all ∅ l = m ->
  Table_LoadString fresh_heap 1%positive (stored_lines l)
  = Ok ({[ 1%positive := mkTable (Some m) None ]}, len l, None).
Proof.
  intros Hl Hm. unfold Table_LoadString, Table_Load, fresh_heap, deref.
  rewrite lookup_singleton_eq, bind_Ok.
  rewrite Load_loop_stored_lines
    by (try assumption; pose proof (stored_lines_length l); lia).
  rewrite bind_Ok. unfold zeroTable, entries. cbn [data defaults].
  now rewrite Hm, insert_singleton_eq.
Qed.

Lemma storable_map_to_list (m : gmap gostring gostring) l :
  map_Forall (fun key value => storable (key, value) = true) m ->
  l ≡ₚ map_to_list m -> forallb storable l = true.
Proof.
  intros Hm Hl. apply forallb_forall. intros [k v] Hin. apply (Hm k v).
  apply elem_of_map_to_list. rewrite <- Hl. apply list_elem_of_In, Hin.
Qed.

(** X11. A table of pairs of safe strings, the values not empty, survives
    [Store] followed by [Load] into a fresh table, in either mode and
    whatever the number of pairs: [Store] writes one stored line per
    pair and returns their number; and in whichever order the pairs
    are written, [Load] returns that number too and rebuilds the same
    map. *)
Theorem Store_Load_table (m : gmap gostring gostring) (ascii : bool) :
  map_Forall (fun key value => storable (key, value) = true) m ->
  Table_Store {[ 1%positive := mkTable (Some m) None ]} 1%positive [] ascii
  = Ok (stored_lines (map_to_list m), Z.of_nat (size m), None) /\
  forall l, l ≡ₚ map_to_list m ->
    Table_LoadString fresh_heap 1%positive (stored_lines l)
    = Ok ({[ 1%positive := mkTable (Some m) None ]}, Z.of_nat (size m), None).
Proof.
  intros Hm. split.
  - unfold Table_Store, deref. rewrite lookup_singleton_eq, bind_Ok.
    unfold entries. cbn [data].
    rewrite (forEach_storePair ascii (map_to_list m) [] 0), bind_Ok.
    + cbn [app]. f_equal. f_equal. f_equal.
      unfold len. now rewrite length_map_to_list.
    + pose proof (storable_map_to_list m _ Hm (reflexivity _)) as Hl.
      apply forallb_forall. intros kv Hin.
      rewrite forallb_forall in Hl. specialize (Hl kv Hin).
      unfold storable in Hl. now apply andb_true_iff in Hl as [Hl _].
  - intros l Hl.
    rewrite (Load_fresh_lines m l (storable_map_to_list m l Hm Hl)
               (assign_all_permutation m l Hl)).
    f_equal. f_equal. f_equal. unfold len.
    now rewrite Hl, length_map_to_list.
Qed.

End LoadingLines.

(** ** The serializer on every pair *)

Section SerializerLines.

Import properties.

#[local] Arguments hexDigit : simpl never.
#[local] Arguments Z.shiftr : simpl never.

#[local] Arguments hexDigit : simpl never.
#[local] Arguments Z.shiftr : simpl never.

(** The size [escape] gets from the scratch buffer: that of the escapes
    in ASCII-safe mode, zero otherwise. *)
Lemma escape_size (ascii : bool) buffer r :
  length buffer = 12%nat ->
  exists buffer',
    (if ascii then escapeRune buffer r else Ok (buffer, 0))
    = Ok (buffer', if ascii && negb (printable r)
                   then len (asciiEscape r) else 0) /\
    length buffer' = 12%nat /\
    (ascii && negb (printable r) = true ->
     slice_to buffer' (len (asciiEscape r)) = Ok (asciiEscape r)).
Proof.
  intros Hlen. destruct ascii; cbn [andb].
  - destruct (escapeRune_ok buffer r Hlen) as (buffer' & Heq & Hlen' & Hs).
    exists buffer'. split; [|auto]. rewrite Heq.
    destruct (printable r) eqn:Hp; [|reflexivity].
    now rewrite (asciiEscape_printable r Hp).
  - exists buffer. split; [reflexivity|]. split; [assumption|discriminate].
Qed.

Lemma write_raw (b buffer : gostring) r :
  length buffer = 12%nat ->
  exists buffer',
    ('(buffer0, size) ← utf8.EncodeRuneTo buffer r;
     w ← slice_to buffer0 size; Ok (b ++ w, buffer0))
    = Ok (b ++ utf8.EncodeRune r, buffer') /\ length buffer' = 12%nat.
Proof.
  intros Hlen.
  destruct (EncodeRuneTo_ok buffer r Hlen) as (buffer' & -> & Hlen' & Hslice).
  rewrite bind_Ok. cbv beta iota zeta. rewrite Hslice, bind_Ok. eauto.
Qed.

Lemma escapeKeyRune_ok ascii b buffer r :
  length buffer = 12%nat ->
  exists buffer',
    escapeKeyRune ascii (b, buffer) r
    = Ok (b ++ escapedRune ascii true r, buffer') /\
    length buffer' = 12%nat.
Proof.
  intros Hlen. unfold escapeKeyRune, escapedRune.
  destruct (escape_size ascii buffer r Hlen) as (buffer1 & -> & Hlen1 & Hs).
  rewrite bind_Ok. cbv beta iota zeta. cbn [andb].
  destruct (ascii && negb (printable r)) eqn:Hesc.
  - apply andb_true_iff in Hesc as [_ Hp]. apply negb_true_iff in Hp.
    rewrite (asciiEscape_nonempty r Hp), (Hs eq_refl), bind_Ok. eauto.
  - change (0 =? 0) with true. cbv iota.
    destruct (r =? 10); [eauto|]. destruct (r =? 13); [eauto|].
    destruct (isSpace r || isDelimiter r || isCommentPrefix r).
    + destruct (write_raw (b ++ [92]) buffer1 r Hlen1) as (buffer' & -> & Hlen').
      exists buffer'. rewrite <- app_assoc. auto.
    + destruct (write_raw b buffer1 r Hlen1) as (buffer' & -> & Hlen').
      exists buffer'. auto.
Qed.

Lemma escapeValueRune_ok ascii b buffer r :
  length buffer = 12%nat ->
  exists buffer',
    escapeValueRune ascii (b, buffer) r
    = Ok (b ++ escapedRune ascii false r, buffer') /\
    length buffer' = 12%nat.
Proof.
  intros Hlen. unfold escapeValueRune, escapedRune.
  destruct (escape_size ascii buffer r Hlen) as (buffer1 & -> & Hlen1 & Hs).
  rewrite bind_Ok. cbv beta iota zeta. cbn [andb orb].
  destruct (ascii && negb (printable r)) eqn:Hesc.
  - apply andb_true_iff in Hesc as [_ Hp]. apply negb_true_iff in Hp.
    rewrite (asciiEscape_nonempty r Hp), (Hs eq_refl), bind_Ok. eauto.
  - change (0 =? 0) with true. cbv iota.
    destruct (r =? 10); [eauto|]. destruct (r =? 13); [eauto|].
    destruct (isCommentPrefix r).
    + destruct (write_raw (b ++ [92]) buffer1 r Hlen1) as (buffer' & -> & Hlen').
      exists buffer'. rewrite <- app_assoc. auto.
    + destruct (write_raw b buffer1 r Hlen1) as (buffer' & -> & Hlen').
      exists buffer'. auto.
Qed.

Lemma forEach_escape
    (body : gostring * gostring -> Z -> outcome (gostring * gostring))
    (text : Z -> gostring) :
  (forall b buffer r, length buffer = 12%nat ->
     exists buffer', body (b, buffer) r = Ok (b ++ text r, buffer')
                     /\ length buffer' = 12%nat) ->
  forall s b buffer,
    length buffer = 12%nat ->
    exists buffer',
      forEach body s (b, buffer) = Ok (b ++ flat_map text s, buffer') /\
      length buffer' = 12%nat.
Proof.
  intros Hbody. induction s as [|r s IH]; intros b buffer Hlen.
  - exists buffer. simpl. rewrite app_nil_r. auto.
  - rewrite forEach_cons.
    destruct (Hbody b buffer r Hlen) as (buffer1 & -> & Hlen1).
    rewrite bind_Ok.
    destruct (IH (b ++ text r) buffer1 Hlen1) as (buffer' & -> & Hlen').
    exists buffer'. simpl. rewrite <- app_assoc. auto.
Qed.

(** [escape] returns on every pair, in either mode, and writes the
    line scalar by scalar. *)
Lemma escape_ok key value ascii :
  escape key value ascii = Ok (escapedLine key value ascii).
Proof.
  unfold escape, escapedLine. cbv zeta.
  destruct (forEach_escape (escapeKeyRune ascii) (escapedRune ascii true)
              (escapeKeyRune_ok ascii) (utf8.range key) [] (replicate 12 0)
              eq_refl) as (buffer1 & -> & Hlen1).
  rewrite bind_Ok. cbv beta iota zeta.
  change (utf8.EncodeRune 61) with [61].
  destruct (utf8.DecodeRune value) as [r sz].
  destruct (forEach_escape (escapeValueRune ascii) (escapedRune ascii false)
              (escapeValueRune_ok ascii) (utf8.range value)
              (if isSpace r || isDelimiter r
               then (([] ++ flat_map (escapedRune ascii true) (utf8.range key))
                     ++ [61]) ++ [92]
               else ([] ++ flat_map (escapedRune ascii true) (utf8.range key))
                    ++ [61])
              buffer1 Hlen1) as (buffer' & -> & _).
  rewrite bind_Ok. cbv beta iota zeta. f_equal.
  destruct (isSpace r || isDelimiter r); simpl; now rewrite <- !app_assoc.
Qed.

Lemma asciiEscape_all_printable r : forallb printable (asciiEscape r) = true.
Proof.
  unfold asciiEscape. destruct (65535 <? r).
  - now rewrite forallb_app, !hexEscape_printable.
  - destruct (printable r); [reflexivity|apply hexEscape_printable].
Qed.

Lemma escapedRune_printable in_key r :
  forallb printable (escapedRune true in_key r) = true.
Proof.
  unfold escapedRune. cbn [andb].
  destruct (printable r) eqn:Hp; cbn [negb]; [|apply asciiEscape_all_printable].
  assert (Hr : 32 <= r <= 126).
  { unfold printable in Hp. apply andb_true_iff in Hp as [H0 H1].
    apply Z.leb_le in H0, H1. lia. }
  replace (r =? 10) with false by (symmetry; apply Z.eqb_neq; lia).
  replace (r =? 13) with false by (symmetry; apply Z.eqb_neq; lia).
  rewrite EncodeRune_ascii by lia.
  destruct (_ || _); cbn [app forallb]; rewrite Hp; reflexivity.
Qed.

Lemma escapedLine_printable key value :
  forallb printable (escapedLine key value true) = true.
Proof.
  assert (Hruns : forall in_key rs,
            forallb printable (flat_map (escapedRune true in_key) rs) = true).
  { intros in_key rs. induction rs as [|r rs IH]; [reflexivity|].
    cbn [flat_map]. now rewrite forallb_app, escapedRune_printable, IH. }
  unfold escapedLine. rewrite !forallb_app, !Hruns.
  destruct (utf8.DecodeRune value) as [r sz].
  destruct (isSpace r || isDelimiter r); reflexivity.
Qed.

(** The loop of [Store]: one line per pair, each closed by a line
    feed. *)
Lemma forEach_storePair_ok ascii l : forall w count,
  forEach (storePair ascii) l (w, count)
  = Ok (w ++ flat_map (fun kv => escapedLine kv.1 kv.2 ascii ++ [10]) l,
        count + len l).
Proof.
  induction l as [|[key value] l IH]; intros w count.
  - simpl. rewrite app_nil_r, Z.add_0_r. reflexivity.
  - rewrite forEach_cons.
    change (storePair ascii (w, count) (key, value))
      with (line ← escape key value ascii; Ok (w ++ line ++ [10], count + 1)).
    rewrite escape_ok, bind_Ok, bind_Ok, IH.
    cbn [flat_map fst snd].
    rewrite len_cons, <- !app_assoc. f_equal. f_equal. lia.
Qed.

End SerializerLines.

(** ** One line per pair *)

Section OneLine.

Import properties.

Lemma lor_lt a b n :
  0 < n -> 0 <= a < 2 ^ n -> 0 <= b < 2 ^ n -> 0 <= Z.lor a b < 2 ^ n.
Proof.
  intros Hn Ha Hb. split; [apply Z.lor_nonneg; lia|].
  destruct (Z.eq_dec (Z.lor a b) 0) as [->|Hne]; [lia|].
  assert (0 <= Z.lor a b) by (apply Z.lor_nonneg; lia).
  apply Z.log2_lt_pow2; [lia|]. rewrite Z.log2_lor by lia.
  apply Z.max_lub_lt.
  - destruct (Z.eq_dec a 0) as [->|]; [simpl; lia|].
    apply Z.log2_lt_pow2; lia.
  - destruct (Z.eq_dec b 0) as [->|]; [simpl; lia|].
    apply Z.log2_lt_pow2; lia.
Qed.

Lemma land_mask a k :
  0 <= k -> 0 <= Z.land a (Z.ones k) < 2 ^ k.
Proof. intros Hk. rewrite Z.land_ones by lia. apply Z.mod_pos_bound. lia. Qed.

Lemma shiftl_lt a k n :
  0 <= k -> 0 <= n -> 0 <= a < 2 ^ k -> 0 <= Z.shiftl a n < 2 ^ (k + n).
Proof.
  intros Hk Hn Ha. rewrite Z.shiftl_mul_pow2, Z.pow_add_r by lia.
  assert (0 < 2 ^ n) by lia. nia.
Qed.

Lemma at_byte (p : gostring) i :
  forallb is_byte p = true -> 0 <= at_ p i.
Proof.
  intros Hp. unfold at_.
  destruct (nth_in_or_default (Z.to_nat i) p 0) as [Hin| ->]; [|lia].
  rewrite forallb_forall in Hp. specialize (Hp _ Hin).
  unfold is_byte in Hp. apply andb_true_iff in Hp as [H0 _].
  now apply Z.leb_le in H0.
Qed.

(** The scalar [DecodeRune] returns for a string of bytes is a
    non-negative number of at most 21 bits. *)
Lemma DecodeRune_range (p : gostring) :
  forallb is_byte p = true -> 0 <= (utf8.DecodeRune p).1 < 2 ^ 21.
Proof.
  intros Hp. pose proof (at_byte p 0 Hp) as H0.
  unfold utf8.DecodeRune. cbv zeta.
  assert (Hm2 := land_mask (at_ p 0) 5 ltac:(lia)).
  assert (Hm3 := land_mask (at_ p 0) 4 ltac:(lia)).
  assert (Hm4 := land_mask (at_ p 0) 3 ltac:(lia)).
  assert (Hx1 := land_mask (at_ p 1) 6 ltac:(lia)).
  assert (Hx2 := land_mask (at_ p 2) 6 ltac:(lia)).
  assert (Hx3 := land_mask (at_ p 3) 6 ltac:(lia)).
  change (Z.ones 5) with utf8.mask2 in Hm2.
  change (Z.ones 4) with utf8.mask3 in Hm3.
  change (Z.ones 3) with utf8.mask4 in Hm4.
  change (Z.ones 6) with utf8.maskx in Hx1, Hx2, Hx3.
  assert (Hre : 0 <= utf8.RuneError < 2 ^ 21) by (unfold utf8.RuneError; lia).
  destruct (len p <? 1); [exact Hre|].
  destruct (utf8.as_ <=? utf8.first (at_ p 0)).
  { cbn [fst]. destruct (utf8.first (at_ p 0) =? utf8.as_) eqn:Has;
      [|exact Hre].
    unfold utf8.first in Has.
    destruct (at_ p 0 <? 128) eqn:Hlt; [apply Z.ltb_lt in Hlt; lia|].
    exfalso. revert Has.
    repeat match goal with
           | |- context [if ?c then _ else _] => destruct c
           end; discriminate. }
  destruct (len p <? _); [exact Hre|].
  destruct (_ || _); [exact Hre|].
  destruct (_ <=? 2).
  { cbn [fst]. apply (lor_lt _ _ 21); [lia| |lia].
    pose proof (shiftl_lt _ 5 6 ltac:(lia) ltac:(lia) Hm2).
    change (5 + 6) with 11 in *. lia. }
  destruct (_ || _); [exact Hre|].
  destruct (_ <=? 3).
  { cbn [fst].
    pose proof (shiftl_lt _ 4 12 ltac:(lia) ltac:(lia) Hm3).
    pose proof (shiftl_lt _ 6 6 ltac:(lia) ltac:(lia) Hx1).
    change (4 + 12) with 16 in *. change (6 + 6) with 12 in *.
    apply (lor_lt _ _ 21); [lia| |lia].
    apply (lor_lt _ _ 21); lia. }
  destruct (_ || _); [exact Hre|].
  cbn [fst].
  pose proof (shiftl_lt _ 3 18 ltac:(lia) ltac:(lia) Hm4).
  pose proof (shiftl_lt _ 6 12 ltac:(lia) ltac:(lia) Hx1).
  pose proof (shiftl_lt _ 6 6 ltac:(lia) ltac:(lia) Hx2).
  change (3 + 18) with 21 in *. change (6 + 12) with 18 in *.
  change (6 + 6) with 12 in *.
  apply (lor_lt _ _ 21); [lia| |lia].
  apply (lor_lt _ _ 21); [lia| |lia].
  apply (lor_lt _ _ 21); lia.
Qed.

Lemma range_aux_range fuel : forall s,
  forallb is_byte s = true ->
  Forall (fun r => 0 <= r < 2 ^ 21) (utf8.range_aux fuel s).
Proof.
  induction fuel as [|fuel IH]; intros s Hs; [constructor|].
  destruct s as [|c s]; [constructor|].
  cbn [utf8.range_aux].
  pose proof (DecodeRune_range (c :: s) Hs) as Hr.
  destruct (utf8.DecodeRune (c :: s)) as [r size]. cbn [fst] in Hr.
  constructor; [exact Hr|]. apply IH.
  rewrite <- (take_drop (Z.to_nat size) (c :: s)), forallb_app in Hs.
  now apply andb_true_iff in Hs as [_ Hs].
Qed.

(** A byte with its top bit set is no end-of-line byte. *)
Lemma lor_high_not_eol t x :
  Z.testbit t 7 = true -> not_eol (Z.lor t x) = true.
Proof.
  intros Ht. unfold not_eol.
  assert (Hb : Z.testbit (Z.lor t x) 7 = true)
    by (rewrite Z.lor_spec, Ht; reflexivity).
  apply andb_true_iff. split; apply negb_true_iff, Z.eqb_neq;
    intros Heq; rewrite Heq in Hb; discriminate.
Qed.

Lemma EncodeRune_not_eol r :
  0 <= r < 2 ^ 21 -> r <> 10 -> r <> 13 ->
  forallb not_eol (utf8.EncodeRune r) = true.
Proof.
  intros Hr H10 H13. unfold utf8.EncodeRune. cbv zeta.
  rewrite Z.mod_small by lia.
  destruct (r <=? 127) eqn:Hlow.
  - apply Z.leb_le in Hlow. unfold utf8.byte_.
    change 255 with (Z.ones 8). rewrite Z.land_ones, Z.mod_small by lia.
    cbn [forallb]. unfold not_eol.
    replace (r =? 10) with false by (symmetry; apply Z.eqb_neq; lia).
    replace (r =? 13) with false by (symmetry; apply Z.eqb_neq; lia).
    reflexivity.
  - unfold utf8.encode3.
    repeat match goal with
           | |- context [if ?c then _ else _] => destruct c
           end; cbn [forallb];
      rewrite ?lor_high_not_eol by reflexivity; reflexivity.
Qed.

Lemma printable_not_eol l :
  forallb printable l = true -> forallb not_eol l = true.
Proof.
  intros Hl. apply forallb_forall. intros x Hx.
  rewrite forallb_forall in Hl. specialize (Hl x Hx).
  unfold printable in Hl. apply andb_true_iff in Hl as [H0 _].
  apply Z.leb_le in H0. unfold not_eol.
  apply andb_true_iff. split; apply negb_true_iff, Z.eqb_neq; lia.
Qed.

Lemma escapedRune_not_eol ascii in_key r :
  0 <= r < 2 ^ 21 -> forallb not_eol (escapedRune ascii in_key r) = true.
Proof.
  intros Hr. unfold escapedRune.
  destruct (ascii && negb (printable r));
    [apply printable_not_eol, asciiEscape_all_printable|].
  destruct (r =? 10) eqn:H10; [reflexivity|].
  destruct (r =? 13) eqn:H13; [reflexivity|].
  apply Z.eqb_neq in H10, H13.
  rewrite forallb_app, EncodeRune_not_eol by assumption.
  destruct (_ || _); reflexivity.
Qed.

Lemma escapedLine_not_eol key value ascii :
  forallb is_byte key = true -> forallb is_byte value = true ->
  forallb not_eol (escapedLine key value ascii) = true.
Proof.
  intros Hk Hv.
  assert (Hruns : forall in_key s,
            forallb is_byte s = true ->
            forallb not_eol (flat_map (escapedRune ascii in_key) (utf8.range s))
            = true).
  { intros in_key s Hs. unfold utf8.range.
    pose proof (range_aux_range (length s) s Hs) as Hr.
    induction Hr as [|r rs Hr _ IH]; [reflexivity|].
    cbn [flat_map]. now rewrite forallb_app, escapedRune_not_eol, IH. }
  unfold escapedLine. rewrite !forallb_app, !Hruns by assumption.
  destruct (utf8.DecodeRune value) as [r sz].
  destruct (isSpace r || isDelimiter r); reflexivity.
Qed.

(** X9. [escape] writes a pair of byte strings as one natural line: it
    never fails, and no line feed and no carriage return is among the
    bytes it returns, whatever the key and the value hold and in either
    mode. *)
Theorem escape_one_line (key value : gostring) (ascii : bool) :
  forallb is_byte key = true -> forallb is_byte value = true ->
  exists line, escape key value ascii = Ok line /\
               forallb not_eol line = true.
Proof.
  intros Hk Hv. exists (escapedLine key value ascii).
  split; [apply escape_ok|now apply escapedLine_not_eol].
Qed.

Lemma escape_one_line_witness :
  exists line, escape [107; 10; 233] [13; 226; 130; 172] false = Ok line /\
               forallb not_eol line = true.
Proof.
  apply (escape_one_line [107; 10; 233] [13; 226; 130; 172] false);
    reflexivity.
Defined.

End OneLine.

(** ** Saving and loading back *)

Section SaveLoad.

Import properties.

(** X10. [Store] on any table never fails.  For each pair of the table's
    own map, in the order the map is ranged over, it appends the line
    that [escape] returns for this pair and a line feed, after what the
    writer held, and it returns the number of pairs with a nil error.
    In ASCII-safe mode every byte of every line is printable ASCII; and
    when the keys and values are strings of bytes, no line holds a line
    feed or a carriage return, so that the text has exactly one line
    per pair. *)
Theorem Store_writes_lines (h : heap) (p : loc) (t : Table) (w : gostring)
    (ascii : bool) :
  h !! p = Some t ->
  exists lines,
    Forall2 (fun kv line => escape kv.1 kv.2 ascii = Ok line)
            (map_to_list (entries t)) lines /\
    Table_Store h p w ascii
    = Ok (w ++ flat_map (fun line => line ++ [10]) lines,
          Z.of_nat (size (entries t)), None) /\
    (ascii = true -> Forall (fun line => forallb printable line = true) lines) /\
    (map_Forall (fun key value => forallb is_byte key = true /\
                                  forallb is_byte value = true) (entries t) ->
     Forall (fun line => forallb not_eol line = true) lines).
Proof.
  intros Hp.
  exists (map (fun kv => escapedLine kv.1 kv.2 ascii) (map_to_list (entries t))).
  split; [|split; [|split]].
  - induction (map_to_list (entries t)) as [|kv l IH]; [constructor|].
    cbn [map]. constructor; [apply escape_ok|exact IH].
  - unfold Table_Store, deref. rewrite Hp, bind_Ok.
    rewrite forEach_storePair_ok, bind_Ok.
    unfold len. rewrite length_map_to_list. cbn [Z.add].
    f_equal. f_equal. f_equal. f_equal.
    induction (map_to_list (entries t)) as [|kv l IH]; [reflexivity|].
    cbn [flat_map map]. now rewrite IH.
  - intros ->. apply Forall_forall. intros line Hin.
    apply list_elem_of_In, in_map_iff in Hin as (kv & <- & _).
    apply escapedLine_printable.
  - intros Hbytes. apply Forall_forall. intros line Hin.
    apply list_elem_of_In, in_map_iff in Hin as ([k v] & <- & Hin).
    apply list_elem_of_In, elem_of_map_to_list in Hin.
    destruct (Hbytes k v Hin) as [Hk Hv].
    now apply escapedLine_not_eol.
Qed.

Lemma Store_writes_lines_witness :
  let t := mkTable (Some {[bytes_of "k" := [233; 10]]}) None in
  exists lines,
    Forall2 (fun kv line => escape kv.1 kv.2 true = Ok line)
            (map_to_list (entries t)) lines /\
    Table_Store {[ 1%positive := t ]} 1%positive [35; 10] true
    = Ok ([35; 10] ++ flat_map (fun line => line ++ [10]) lines,
          Z.of_nat (size (entries t)), None) /\
    (true = true -> Forall (fun line => forallb printable line = true) lines) /\
    (map_Forall (fun key value => forallb is_byte key = true /\
                                  forallb is_byte value = true) (entries t) ->
     Forall (fun line => forallb not_eol line = true) lines).
Proof.
  intros t.
  apply (Store_writes_lines {[ 1%positive := t ]} 1%positive t [35; 10] true).
  apply lookup_singleton_eq.
Defined.

Lemma Store_Load_table_witness :
  let m : gmap gostring gostring :=
    <[bytes_of "a" := bytes_of "1"]> {[bytes_of "b c" := bytes_of " 2"]} in
  Table_Store {[ 1%positive := mkTable (Some m) None ]} 1%positive [] true
  = Ok (stored_lines (map_to_list m), Z.of_nat (size m), None) /\
  forall l, l ≡ₚ map_to_list m ->
    Table_LoadString fresh_heap 1%positive (stored_lines l)
    = Ok ({[ 1%positive := mkTable (Some m) None ]}, Z.of_nat (size m), None).
Proof.
  intros m. apply (Store_Load_table m true).
  apply map_Forall_insert_2; [reflexivity|].
  apply map_Forall_singleton. reflexivity.
Defined.

(** The loop of [String]: the lines of [Store] in the other mode. *)
Lemma forEach_String l : forall b,
  forEach (fun b kv => line ← escape kv.1 kv.2 false; Ok (b ++ line ++ [10]))
          l b
  = Ok (b ++ flat_map (fun kv => escapedLine kv.1 kv.2 false ++ [10]) l).
Proof.
  induction l as [|[key value] l IH]; intros b.
  - simpl. now rewrite app_nil_r.
  - rewrite forEach_cons. cbv beta.
    change ((key, value).1) with key. change ((key, value).2) with value.
    rewrite escape_ok, !bind_Ok, IH. cbn [flat_map fst snd].
    now rewrite <- !app_assoc.
Qed.

(** On safe strings the line [escape] writes, scalar by scalar, is the
    stored line. *)
Lemma escapedLine_safe key value ascii :
  forallb safe key = true -> forallb safe value = true ->
  escapedLine key value ascii = stored_line key value.
Proof.
  intros Hk Hv. pose proof (escape_ok key value ascii) as H.
  rewrite (escape_safe key value ascii Hk Hv) in H. now injection H.
Qed.

(** X12. The text [String] returns can be reused by [LoadString]: for a
    table of pairs of safe strings, the values not empty, [String]
    returns a text that loads into a fresh table as the same map, with
    the number of pairs as the count. *)
Theorem String_Load_table (m : gmap gostring gostring) :
  map_Forall (fun key value => storable (key, value) = true) m ->
  exists s,
    Table_String {[ 1%positive := mkTable (Some m) None ]} 1%positive = Ok s /\
    Table_LoadString fresh_heap 1%positive s
    = Ok ({[ 1%positive := mkTable (Some m) None ]}, Z.of_nat (size m), None).
Proof.
  intros Hm.
  pose proof (storable_map_to_list m _ Hm (reflexivity _)) as Hl.
  exists (stored_lines (map_to_list m)). split.
  - unfold Table_String, deref. rewrite lookup_singleton_eq, bind_Ok.
    unfold entries. cbn [data]. rewrite forEach_String. cbn [app].
    f_equal. unfold stored_lines.
    induction (map_to_list m) as [|[k v] l IH]; [reflexivity|].
    cbn [forallb] in Hl. apply andb_true_iff in Hl as [Hkv Hl].
    destruct (storable_parts _ Hkv) as (Hk & Hv & _).
    cbn [flat_map fst snd] in *.
    now rewrite (escapedLine_safe k v false Hk Hv), (IH Hl).
  - rewrite (Load_fresh_lines m (map_to_list m) Hl
               (assign_all_permutation m _ (reflexivity _))).
    unfold len. now rewrite length_map_to_list.
Qed.

Lemma String_Load_table_witness :
  let m : gmap gostring gostring :=
    <[bytes_of "a" := bytes_of "1"]> {[bytes_of "b c" := bytes_of " 2"]} in
  exists s,
    Table_String {[ 1%positive := mkTable (Some m) None ]} 1%positive = Ok s /\
    Table_LoadString fresh_heap 1%positive s
    = Ok ({[ 1%positive := mkTable (Some m) None ]}, Z.of_nat (size m), None).
Proof.
  intros m. apply (String_Load_table m).
  apply map_Forall_insert_2; [reflexivity|].
  apply map_Forall_singleton. reflexivity.
Defined.

(** The comment block of a one-line comment of safe characters. *)
Lemma escapeComment_safe text ascii :
  forallb safe text = true ->
  exists c, escapeComment text ascii = Ok c /\
            ignored c = true /\ forallb not_eol c = true.
Proof.
  intros Ht. unfold escapeComment. rewrite (range_safe text Ht).
  assert (Hrun : forall s b buffer last,
            forallb safe s = true -> length buffer = 12%nat ->
            exists buffer' last',
              forEach (escapeCommentRune ascii) s (b, buffer, last)
              = Ok (b ++ match s with
                         | r :: _ => if is_eol last && negb (isCommentPrefix r)
                                     then [35] else []
                         | [] => []
                         end ++ s, buffer', last')).
  { induction s as [|r s IH]; intros b buffer last Hs Hlen.
    - exists buffer, last. simpl. now rewrite app_nil_r.
    - simpl in Hs. apply andb_true_iff in Hs as [Hr Hs].
      destruct (safe_range r Hr).
      assert (Heol : is_eol r = false).
      { unfold is_eol. apply orb_false_iff; split; apply Z.eqb_neq; lia. }
      rewrite forEach_cons.
      destruct (escapeCommentRune_content ascii b buffer last r Heol Hlen)
        as (buffer1 & -> & Hlen1).
      rewrite bind_Ok.
      destruct (IH (b ++ (if is_eol last && negb (isCommentPrefix r)
                          then [35] else []) ++ commentRune ascii r)
                  buffer1 r Hs Hlen1) as (buffer' & last' & ->).
      exists buffer', last'. f_equal. f_equal. f_equal.
      rewrite Heol. cbn [andb].
      assert (Hc : commentRune ascii r = [r]).
      { unfold commentRune. rewrite (safe_printable r Hr), andb_false_r.
        apply EncodeRune_ascii. lia. }
      rewrite Hc, <- !app_assoc. f_equal. f_equal.
      destruct s; reflexivity. }
  destruct (Hrun text [] (replicate 12 0) 10 Ht eq_refl)
    as (buffer' & last' & ->).
  rewrite bind_Ok. cbv beta iota zeta. eexists. split; [reflexivity|].
  cbn [app]. destruct text as [|r s]; [split; reflexivity|].
  change (is_eol 10) with true. cbn [andb].
  assert (Hne : forallb not_eol (r :: s) = true).
  { apply forallb_forall. intros x Hx. rewrite forallb_forall in Ht.
    apply safe_not_eol, Ht, Hx. }
  destruct (isCommentPrefix r) eqn:Hr; cbn [negb app]; split;
    try assumption; reflexivity.
Qed.

(** X13. A table of pairs of safe strings, the values not empty, saved with
    a one-line comment of safe characters loads back as it was:
    [SaveString] writes the comment line, which starts with [#] or [!]
    or is empty, and then the stored lines; and in whichever order the
    pairs are written, [Load] passes over the comment line, rebuilds
    the same map and returns the number of pairs. *)
Theorem Save_Load_table (m : gmap gostring gostring) (comments : gostring)
    (ascii : bool) :
  forallb safe comments = true ->
  map_Forall (fun key value => storable (key, value) = true) m ->
  exists c,
    ignored c = true /\
    Table_SaveString {[ 1%positive := mkTable (Some m) None ]} 1%positive
      comments ascii
    = Ok (c ++ 10 :: stored_lines (map_to_list m), None) /\
    forall l, l ≡ₚ map_to_list m ->
      Table_LoadString fresh_heap 1%positive (c ++ 10 :: stored_lines l)
      = Ok ({[ 1%positive := mkTable (Some m) None ]}, Z.of_nat (size m), None).
Proof.
  intros Hc Hm.
  destruct (escapeComment_safe comments ascii Hc) as (c & Hesc & Hig & Hne).
  exists c. split; [exact Hig|]. split.
  - pose proof (storable_map_to_list m _ Hm (reflexivity _)) as Hl.
    unfold Table_SaveString, Table_Save. rewrite Hesc, bind_Ok.
    unfold Table_Store, deref. rewrite lookup_singleton_eq, bind_Ok.
    unfold entries. cbn [data].
    rewrite (forEach_storePair ascii (map_to_list m)), !bind_Ok.
    + cbn [app]. rewrite <- app_assoc. reflexivity.
    + apply forallb_forall. intros kv Hin.
      rewrite forallb_forall in Hl. specialize (Hl kv Hin).
      unfold storable in Hl. now apply andb_true_iff in Hl as [Hl _].
  - intros l Hperm.
    pose proof (storable_map_to_list m l Hm Hperm) as Hl.
    unfold Table_LoadString, Table_Load, fresh_heap, deref.
    rewrite lookup_singleton_eq, bind_Ok.
    pose proof (Load_loop_ignored
                  (length (c ++ 10 :: stored_lines l))
                  (entries zeroTable) 0 [] c [10]
                  (stored_lines l) eq_refl Hne Hig eq_refl) as H.
    cbn [app] in H |- *. rewrite H.
    rewrite Load_loop_stored_lines.
    + rewrite bind_Ok. unfold zeroTable, entries. cbn [data defaults].
      rewrite (assign_all_permutation m l Hperm), insert_singleton_eq.
      unfold len. now rewrite Hperm, length_map_to_list.
    + exact Hl.
    + rewrite length_app. cbn [length].
      pose proof (stored_lines_length l). lia.
Qed.

Lemma Save_Load_table_witness :
  let m : gmap gostring gostring :=
    <[bytes_of "a" := bytes_of "1"]> {[bytes_of "b c" := bytes_of " 2"]} in
  exists c,
    ignored c = true /\
    Table_SaveString {[ 1%positive := mkTable (Some m) None ]} 1%positive
      (bytes_of "saved by hand") false
    = Ok (c ++ 10 :: stored_lines (map_to_list m), None) /\
    forall l, l ≡ₚ map_to_list m ->
      Table_LoadString fresh_heap 1%positive (c ++ 10 :: stored_lines l)
      = Ok ({[ 1%positive := mkTable (Some m) None ]}, Z.of_nat (size m), None).
Proof.
  intros m. apply (Save_Load_table m (bytes_of "saved by hand") false).
  - reflexivity.
  - apply map_Forall_insert_2; [reflexivity|].
    apply map_Forall_singleton. reflexivity.
Defined.

End SaveLoad.

(** ** Lookups down the defaults chain *)

Section Lookups.

Import properties.

Lemma chain_ok_eq n h p :
  chain_ok n h p
  = match h !! p with
    | Some t =>
        match defaults t with
        | None => true
        | Some d => match n with
                    | O => false
                    | S n => chain_ok n h d
                    end
        end
    | None => false
    end.
Proof. destruct n; reflexivity. Qed.

Lemma chain_ok_mono n : forall h p,
  chain_ok n h p = true -> chain_ok (S n) h p = true.
Proof.
  induction n as [|n IH]; intros h p H.
  - simpl in *. destruct (h !! p) as [t|]; [|discriminate].
    destruct (defaults t); [discriminate|reflexivity].
  - rewrite chain_ok_eq in H. rewrite chain_ok_eq.
    destruct (h !! p) as [t|]; [|discriminate].
    destruct (defaults t) as [d|]; [|reflexivity]. now apply IH.
Qed.

Lemma chain_ok_le n m h p :
  (n <= m)%nat -> chain_ok n h p = true -> chain_ok m h p = true.
Proof.
  induction 1 as [|m Hle IH]; [auto|]. intros H. now apply chain_ok_mono, IH.
Qed.

(** Every table down a chain that ends has a chain that ends sooner. *)
Lemma chain_ok_below m : forall n h p q,
  chain_ok n h p = true -> q ∈ chain m h p ->
  exists n', n = S n' /\ chain_ok n' h q = true.
Proof.
  induction m as [|m IH]; intros n h p q Hok Hq; [inversion Hq|].
  simpl in Hq. rewrite chain_ok_eq in Hok.
  destruct (h !! p) as [t|]; [|discriminate].
  destruct (defaults t) as [d|]; [|inversion Hq].
  destruct n as [|n]; [discriminate|].
  exists n. split; [reflexivity|].
  apply elem_of_cons in Hq as [->|Hq]; [exact Hok|].
  destruct (IH n h d q Hok Hq) as (n' & -> & Hq').
  now apply chain_ok_mono.
Qed.

(** A chain that ends is acyclic. *)
Lemma chain_ok_acyclic n : forall m h p,
  chain_ok n h p = true -> p ∉ chain m h p.
Proof.
  induction n as [|n IH]; intros m h p Hok Hin.
  - destruct (chain_ok_below m 0 h p p Hok Hin) as (n' & Hn' & _). discriminate.
  - destruct (chain_ok_below m (S n) h p p Hok Hin) as (n' & [= <-] & Hok').
    exact (IH m h p Hok' Hin).
Qed.

Lemma chain_NoDup m : forall n (h : heap) p,
  chain_ok n h p = true -> NoDup (p :: chain m h p).
Proof.
  induction m as [|m IH]; intros n h p Hok.
  - apply NoDup_singleton.
  - apply NoDup_cons. split; [now apply (chain_ok_acyclic n)|].
    simpl. rewrite chain_ok_eq in Hok.
    destruct (h !! p) as [t|]; [|apply NoDup_nil_2].
    destruct (defaults t) as [d|]; [|apply NoDup_nil_2].
    destruct n as [|n]; [discriminate|]. now apply (IH n).
Qed.

Lemma chain_allocated n m (h : heap) p q :
  chain_ok n h p = true -> q ∈ p :: chain m h p -> q ∈ dom h.
Proof.
  intros Hok Hq. apply elem_of_dom.
  apply elem_of_cons in Hq as [->|Hq].
  - rewrite chain_ok_eq in Hok. destruct (h !! p); [eauto|discriminate].
  - destruct (chain_ok_below _ _ h p q Hok Hq) as (n' & _ & Hq').
    rewrite chain_ok_eq in Hq'. destruct (h !! q); [eauto|discriminate].
Qed.

Lemma chain_ok_length n : forall (h : heap) p,
  chain_ok n h p = true -> chain_ok (length (chain n h p)) h p = true.
Proof.
  induction n as [|n IH]; intros h p Hok; [exact Hok|].
  rewrite chain_ok_eq in Hok. simpl chain.
  destruct (h !! p) as [t|] eqn:Hp; [|discriminate].
  destruct (defaults t) as [d|] eqn:Hd.
  - simpl length. rewrite chain_ok_eq, Hp, Hd. now apply IH.
  - simpl. now rewrite Hp, Hd.
Qed.

(** A chain that ends does so within as many steps as there are tables. *)
Lemma chain_ok_size n (h : heap) p :
  chain_ok n h p = true -> chain_ok (size h) h p = true.
Proof.
  intros Hok. apply (chain_ok_le (length (chain n h p))); [|now apply chain_ok_length].
  assert (Hsub : p :: chain n h p ⊆+ elements (dom h)).
  { apply NoDup_submseteq; [now apply (chain_NoDup n n)|].
    intros q Hq. apply elem_of_elements. now apply (chain_allocated n n h p). }
  apply submseteq_length in Hsub. simpl in Hsub.
  assert (length (elements (dom h)) = size h) by (rewrite <- size_dom; reflexivity).
  lia.
Qed.

Lemma Lookup_rec_eq fuel h p key :
  Lookup_rec (S fuel) h p key
  = (t ← deref h p;
     match entries t !! key with
     | Some value => Ok (value, true)
     | None =>
         match defaults t with
         | Some d =>
             '(value, found) ← Lookup_rec fuel h d key;
             if (found : bool) then Ok (value, true) else Ok ([], false)
         | None => Ok ([], false)
         end
     end).
Proof. reflexivity. Qed.

(** On a chain that ends, [Lookup] returns a found value or the empty
    string, whatever fuel above the length of the chain it is given. *)
Lemma Lookup_rec_ok n : forall h p key fuel,
  chain_ok n h p = true -> (n < fuel)%nat ->
  Lookup_rec fuel h p key = Lookup_rec (S n) h p key /\
  ((exists v, Lookup_rec fuel h p key = Ok (v, true)) \/
   Lookup_rec fuel h p key = Ok ([], false)).
Proof.
  induction n as [|n IH]; intros h p key fuel Hok Hfuel;
    (destruct fuel as [|fuel]; [lia|]);
    rewrite chain_ok_eq in Hok; rewrite !Lookup_rec_eq; unfold deref;
    destruct (h !! p) as [t|]; try discriminate; rewrite !bind_Ok;
    (destruct (entries t !! key) as [v|]; [split; [reflexivity|left; eauto]|]);
    (destruct (defaults t) as [d|]; [|split; [reflexivity|now right]]);
    [discriminate|].
  destruct (IH h d key fuel Hok ltac:(lia)) as [Heq Hres].
  rewrite Heq. split; [reflexivity|].
  rewrite <- Heq.
  destruct Hres as [[v ->]| ->]; rewrite bind_Ok; [left; eauto|now right].
Qed.

(** [Lookup], unfolded once: the local map first, then the defaults
    table's own [Lookup], then nothing. *)
Lemma Table_Lookup_unfold h p t key :
  chain_ok (size h) h p = true -> h !! p = Some t ->
  Table_Lookup h p key
  = match entries t !! key with
    | Some value => Ok (value, true)
    | None =>
        match defaults t with
        | Some d => Table_Lookup h d key
        | None => Ok ([], false)
        end
    end.
Proof.
  intros Hok Hp. unfold Table_Lookup. rewrite Lookup_rec_eq. unfold deref.
  rewrite Hp, bind_Ok. destruct (entries t !! key) as [v|]; [reflexivity|].
  destruct (defaults t) as [d|] eqn:Hd; [|reflexivity].
  rewrite chain_ok_eq, Hp, Hd in Hok.
  destruct (size h) as [|n] eqn:Hn; [discriminate|].
  destruct (Lookup_rec_ok n h d key (S n) Hok ltac:(lia)) as [_ Hres].
  destruct (Lookup_rec_ok n h d key (S (S n)) Hok ltac:(lia)) as [Heq _].
  rewrite Heq.
  destruct Hres as [[v ->]| ->]; now rewrite bind_Ok.
Qed.

(** X14. [Lookup] on a table whose defaults chain ends: it returns, with the
    value of the table's own map when the key is there, with what
    [Lookup] on the defaults table returns when it is not, and with the
    empty string and [false] when there are no defaults either; [Get]
    returns the same value, the empty string for a key not found. *)
Theorem Lookup_local_then_defaults (h : heap) p t key n :
  chain_ok n h p = true -> h !! p = Some t ->
  Table_Lookup h p key
  = match entries t !! key with
    | Some value => Ok (value, true)
    | None =>
        match defaults t with
        | Some d => Table_Lookup h d key
        | None => Ok ([], false)
        end
    end /\
  exists value found,
    Table_Lookup h p key = Ok (value, found) /\
    Table_Get h p key = Ok value /\
    (found = false -> value = []).
Proof.
  intros Hok Hp. apply chain_ok_size in Hok.
  split; [now apply Table_Lookup_unfold|].
  unfold Table_Get.
  destruct (Lookup_rec_ok (size h) h p key (S (size h)) Hok ltac:(lia))
    as [_ [[v Hv]|Hnone]]; unfold Table_Lookup.
  - exists v, true. rewrite Hv, bind_Ok. repeat split. discriminate.
  - exists [], false. rewrite Hnone, bind_Ok. repeat split.
Qed.

Lemma Lookup_local_then_defaults_witness :
  let t := mkTable (Some {[bytes_of "a" := bytes_of "1"]}) (Some 2%positive) in
  Table_Lookup two_tables 1%positive (bytes_of "b")
  = match entries t !! bytes_of "b" with
    | Some value => Ok (value, true)
    | None =>
        match defaults t with
        | Some d => Table_Lookup two_tables d (bytes_of "b")
        | None => Ok ([], false)
        end
    end /\
  exists value found,
    Table_Lookup two_tables 1%positive (bytes_of "b") = Ok (value, found) /\
    Table_Get two_tables 1%positive (bytes_of "b") = Ok value /\
    (found = false -> value = []).
Proof.
  intros t.
  apply (Lookup_local_then_defaults two_tables 1%positive t (bytes_of "b") 1);
    vm_compute; reflexivity.
Defined.

(** Two heaps with the same pointers have the same chains. *)
Lemma chain_same_pointers (h h' : heap) :
  (forall q, defaults <$> h' !! q = defaults <$> h !! q) ->
  forall n p, chain n h' p = chain n h p /\ chain_ok n h' p = chain_ok n h p.
Proof.
  intros Hdef n. induction n as [|n IH]; intros p.
  - split; [reflexivity|]. simpl. specialize (Hdef p).
    destruct (h' !! p) as [t'|], (h !! p) as [t|]; simpl in Hdef;
      try discriminate; [|reflexivity].
    injection Hdef as ->. reflexivity.
  - simpl. specialize (Hdef p).
    destruct (h' !! p) as [t'|], (h !! p) as [t|]; simpl in Hdef;
      try discriminate; [|split; reflexivity].
    injection Hdef as ->. destruct (defaults t) as [d|]; [|split; reflexivity].
    destruct (IH d) as [-> ->]. split; reflexivity.
Qed.

Lemma update_same_pointers (h : heap) p t t' :
  h !! p = Some t -> defaults t' = defaults t ->
  forall q, defaults <$> <[p := t']> h !! q = defaults <$> h !! q.
Proof.
  intros Hp Hd q. destruct (decide (p = q)) as [<-|Hne].
  - rewrite lookup_insert_eq, Hp. simpl. now rewrite Hd.
  - now rewrite lookup_insert_ne.
Qed.

Lemma update_size (h : heap) p t t' :
  h !! p = Some t -> size (<[p := t']> h) = size h.
Proof. intros Hp. apply map_size_insert_Some. eauto. Qed.

(** A lookup that never visits [p] does not see a change at [p]. *)
Lemma Lookup_rec_update fuel : forall (h : heap) p t' p0 key,
  p <> p0 -> p ∉ chain fuel h p0 ->
  Lookup_rec fuel (<[p := t']> h) p0 key = Lookup_rec fuel h p0 key.
Proof.
  induction fuel as [|fuel IH]; intros h p t' p0 key Hne Hnot; [reflexivity|].
  rewrite !Lookup_rec_eq. unfold deref. rewrite lookup_insert_ne by exact Hne.
  destruct (h !! p0) as [t0|] eqn:H0; [|reflexivity]. rewrite !bind_Ok.
  destruct (entries t0 !! key); [reflexivity|].
  destruct (defaults t0) as [d|] eqn:Hd; [|reflexivity].
  simpl in Hnot. rewrite H0, Hd in Hnot.
  apply not_elem_of_cons in Hnot as [Hpd Hnot].
  now rewrite IH.
Qed.

(** [Lookup] at [p] after the table at [p] was replaced by one with the
    same defaults: the new local map first, then the defaults chain as
    it was. *)
Lemma Lookup_after_update (h : heap) p t t' key :
  chain_ok (size h) h p = true -> h !! p = Some t ->
  defaults t' = defaults t ->
  Table_Lookup (<[p := t']> h) p key
  = match entries t' !! key with
    | Some value => Ok (value, true)
    | None =>
        match defaults t with
        | Some d => Table_Lookup h d key
        | None => Ok ([], false)
        end
    end.
Proof.
  intros Hok Hp Hd.
  assert (Hok' : chain_ok (size (<[p := t']> h)) (<[p := t']> h) p = true).
  { rewrite (update_size h p t t' Hp).
    destruct (chain_same_pointers h (<[p := t']> h)
                (update_same_pointers h p t t' Hp Hd) (size h) p) as [_ ->].
    exact Hok. }
  rewrite (Table_Lookup_unfold _ p t' key Hok' (lookup_insert_eq _ _ _)).
  destruct (entries t' !! key); [reflexivity|]. rewrite Hd.
  destruct (defaults t) as [d|] eqn:Hdt; [|reflexivity].
  unfold Table_Lookup. rewrite (update_size h p t t' Hp).
  pose proof (chain_ok_acyclic _ (S (size h)) h p Hok) as Hacyc.
  simpl in Hacyc. rewrite Hp, Hdt in Hacyc.
  apply not_elem_of_cons in Hacyc as [Hpd Hacyc].
  assert (Hokd : chain_ok (size h) h d = true).
  { rewrite chain_ok_eq, Hp, Hdt in Hok.
    destruct (size h); [discriminate|]. now apply chain_ok_mono. }
  pose proof (chain_ok_acyclic _ (S (S (size h))) h p Hok) as Hacyc2.
  change (chain (S (S (size h))) h p)
    with (match h !! p with
          | Some t => match defaults t with
                      | Some d => d :: chain (S (size h)) h d
                      | None => []
                      end
          | None => []
          end) in Hacyc2.
  rewrite Hp, Hdt in Hacyc2. apply not_elem_of_cons in Hacyc2 as [_ Hacyc2].
  now apply Lookup_rec_update.
Qed.

(** X15. [Set] and [Lookup]: the key set is found with its new value, and
    every other key looks up as before. *)
Theorem Set_Lookup (h : heap) p key value n :
  chain_ok n h p = true ->
  exists h', Table_Set h p key value = Ok h' /\
             Table_Lookup h' p key = Ok (value, true) /\
             Table_Get h' p key = Ok value /\
             forall key', key' <> key ->
                          Table_Lookup h' p key' = Table_Lookup h p key'.
Proof.
  intros Hok. apply chain_ok_size in Hok.
  assert (Hp : exists t, h !! p = Some t).
  { rewrite chain_ok_eq in Hok. destruct (h !! p); [eauto|discriminate]. }
  destruct Hp as [t Hp]. unfold Table_Set, deref. rewrite Hp, bind_Ok.
  eexists. split; [reflexivity|].
  assert (Hl : forall k,
            Table_Lookup
              (<[p := mkTable (Some (<[key := value]> (entries t))) (defaults t)]> h)
              p k
            = match <[key := value]> (entries t) !! k with
              | Some v => Ok (v, true)
              | None => match defaults t with
                        | Some d => Table_Lookup h d k
                        | None => Ok ([], false)
                        end
              end).
  { intros k. now apply Lookup_after_update. }
  split; [|split].
  - now rewrite Hl, lookup_insert_eq.
  - unfold Table_Get. now rewrite Hl, lookup_insert_eq.
  - intros key' Hne. rewrite Hl, lookup_insert_ne by congruence.
    now rewrite (Table_Lookup_unfold h p t key' Hok Hp).
Qed.

Lemma Set_Lookup_witness :
  exists h', Table_Set two_tables 1%positive (bytes_of "b") (bytes_of "x")
             = Ok h' /\
             Table_Lookup h' 1%positive (bytes_of "b") = Ok (bytes_of "x", true) /\
             Table_Get h' 1%positive (bytes_of "b") = Ok (bytes_of "x") /\
             forall key', key' <> bytes_of "b" ->
                          Table_Lookup h' 1%positive key'
                          = Table_Lookup two_tables 1%positive key'.
Proof.
  apply (Set_Lookup two_tables 1%positive (bytes_of "b") (bytes_of "x") 1).
  vm_compute. reflexivity.
Defined.

(** X16. [Delete] and [Lookup]: the deleted key is looked up in the defaults
    chain alone, and every other key looks up as before. *)
Theorem Delete_Lookup (h : heap) p t key n :
  chain_ok n h p = true -> h !! p = Some t ->
  exists h', Table_Delete h p key = Ok h' /\
             Table_Lookup h' p key
             = match defaults t with
               | Some d => Table_Lookup h d key
               | None => Ok ([], false)
               end /\
             forall key', key' <> key ->
                          Table_Lookup h' p key' = Table_Lookup h p key'.
Proof.
  intros Hok Hp. apply chain_ok_size in Hok. unfold Table_Delete, deref. rewrite Hp, bind_Ok.
  eexists. split; [reflexivity|].
  assert (Hl : forall k,
            Table_Lookup (<[p := mkTable (delete key <$> data t) (defaults t)]> h)
              p k
            = match entries (mkTable (delete key <$> data t) (defaults t)) !! k with
              | Some v => Ok (v, true)
              | None => match defaults t with
                        | Some d => Table_Lookup h d k
                        | None => Ok ([], false)
                        end
              end).
  { intros k. now apply Lookup_after_update. }
  assert (He : forall k, entries (mkTable (delete key <$> data t) (defaults t)) !! k
                         = delete key (entries t) !! k).
  { intros k. unfold entries. simpl. destruct (data t); simpl; [reflexivity|].
    now rewrite delete_empty. }
  split.
  - now rewrite Hl, He, lookup_delete_eq.
  - intros key' Hne. rewrite Hl, He, lookup_delete_ne by congruence.
    now rewrite (Table_Lookup_unfold h p t key' Hok Hp).
Qed.

Lemma Delete_Lookup_witness :
  let t := mkTable (Some {[bytes_of "a" := bytes_of "1"]}) (Some 2%positive) in
  exists h', Table_Delete two_tables 1%positive (bytes_of "a") = Ok h' /\
             Table_Lookup h' 1%positive (bytes_of "a")
             = match defaults t with
               | Some d => Table_Lookup two_tables d (bytes_of "a")
               | None => Ok ([], false)
               end /\
             forall key', key' <> bytes_of "a" ->
                          Table_Lookup h' 1%positive key'
                          = Table_Lookup two_tables 1%positive key'.
Proof.
  intros t.
  apply (Delete_Lookup two_tables 1%positive t (bytes_of "a") 1);
    vm_compute; reflexivity.
Defined.

(** X17. [Clear] and [Lookup]: every key is looked up in the defaults chain
    alone. *)
Theorem Clear_Lookup (h : heap) p t n :
  chain_ok n h p = true -> h !! p = Some t ->
  exists h', Table_Clear h p = Ok h' /\
             forall key,
               Table_Lookup h' p key
               = match defaults t with
                 | Some d => Table_Lookup h d key
                 | None => Ok ([], false)
                 end.
Proof.
  intros Hok Hp. apply chain_ok_size in Hok. unfold Table_Clear, deref. rewrite Hp, bind_Ok.
  eexists. split; [reflexivity|]. intros key.
  rewrite (Lookup_after_update h p t (mkTable (Some ∅) (defaults t)) key Hok Hp
             eq_refl).
  unfold entries. simpl. now rewrite lookup_empty.
Qed.

Lemma Clear_Lookup_witness :
  let t := mkTable (Some {[bytes_of "a" := bytes_of "1"]}) (Some 2%positive) in
  exists h', Table_Clear two_tables 1%positive = Ok h' /\
             forall key,
               Table_Lookup h' 1%positive key
               = match defaults t with
                 | Some d => Table_Lookup two_tables d key
                 | None => Ok ([], false)
                 end.
Proof.
  intros t.
  apply (Clear_Lookup two_tables 1%positive t 1); vm_compute; reflexivity.
Defined.

Lemma ClearAll_rec_eq fuel h p :
  ClearAll_rec (S fuel) h p
  = (h ← Table_Clear h p;
     t ← deref h p;
     match defaults t with
     | Some d => ClearAll_rec fuel h d
     | None => Ok h
     end).
Proof. reflexivity. Qed.

Lemma ClearAll_rec_ok n : forall (h : heap) p fuel,
  chain_ok n h p = true -> (n < fuel)%nat ->
  exists h', ClearAll_rec fuel h p = Ok h' /\
             forall q, h' !! q
                       = if bool_decide (q ∈ p :: chain n h p)
                         then cleared <$> h !! q else h !! q.
Proof.
  assert (Hlast : forall (h : heap) p t l,
            h !! p = Some t -> defaults t = None -> l = [] ->
            forall q, <[p := mkTable (Some ∅) None]> h !! q
                      = if bool_decide (q ∈ p :: l)
                        then cleared <$> h !! q else h !! q).
  { intros h p t l Hp Hd -> q. destruct (decide (q = p)) as [->|Hne].
    - rewrite lookup_insert_eq, Hp, bool_decide_eq_true_2 by left.
      unfold cleared. simpl. now rewrite Hd.
    - rewrite lookup_insert_ne by congruence.
      rewrite bool_decide_eq_false_2; [reflexivity|].
      intros Hq%list_elem_of_singleton. contradiction. }
  induction n as [|n IH]; intros h p fuel Hok Hfuel.
  - destruct fuel as [|fuel]; [lia|].
    rewrite chain_ok_eq in Hok. rewrite ClearAll_rec_eq.
    unfold Table_Clear, deref.
    destruct (h !! p) as [t|] eqn:Hp; [|discriminate].
    destruct (defaults t) as [d|] eqn:Hd; [discriminate|].
    rewrite !bind_Ok, lookup_insert_eq, bind_Ok. cbn [defaults].
    rewrite Hd. eexists. split; [reflexivity|]. now apply (Hlast h p t).
  - destruct fuel as [|fuel]; [lia|].
    pose proof (chain_ok_acyclic _ (S n) h p Hok) as Hacyc.
    rewrite chain_ok_eq in Hok. rewrite ClearAll_rec_eq.
    unfold Table_Clear, deref. simpl chain in *.
    destruct (h !! p) as [t|] eqn:Hp; [|discriminate].
    rewrite !bind_Ok, lookup_insert_eq, bind_Ok. cbn [defaults].
    destruct (defaults t) as [d|] eqn:Hd;
      [|eexists; split; [reflexivity|]; now apply (Hlast h p t)].
    apply not_elem_of_cons in Hacyc as [Hpd Hacyc].
    set (h1 := <[p := mkTable (Some ∅) (Some d)]> h).
    assert (Hsame : forall q, defaults <$> h1 !! q = defaults <$> h !! q).
    { apply (update_same_pointers h p t); [exact Hp|]. simpl. now rewrite Hd. }
    destruct (chain_same_pointers h h1 Hsame n d) as [Hch Hcok].
    destruct (IH h1 d fuel ltac:(now rewrite Hcok) ltac:(lia))
      as (h' & -> & Hh').
    exists h'. split; [reflexivity|]. intros q. rewrite Hh', Hch.
    destruct (decide (q = p)) as [->|Hne].
    + rewrite bool_decide_eq_false_2
        by (apply not_elem_of_cons; split; assumption).
      rewrite bool_decide_eq_true_2 by left.
      subst h1. rewrite lookup_insert_eq, Hp. unfold cleared. simpl.
      now rewrite Hd.
    + subst h1. rewrite lookup_insert_ne by congruence.
      destruct (decide (q ∈ d :: chain n h d)) as [Hin|Hnin].
      * rewrite !bool_decide_eq_true_2 by (exact Hin || (right; exact Hin)).
        reflexivity.
      * rewrite !bool_decide_eq_false_2
          by (exact Hnin || (apply not_elem_of_cons; split; assumption)).
        reflexivity.
Qed.

(** On a chain of tables without pairs, [Lookup] finds nothing. *)
Lemma Lookup_rec_empty n : forall (h : heap) p key,
  chain_ok n h p = true ->
  (forall q, q ∈ p :: chain n h p -> entries <$> h !! q = Some ∅) ->
  Lookup_rec (S n) h p key = Ok ([], false).
Proof.
  induction n as [|n IH]; intros h p key Hok Hempty;
    rewrite chain_ok_eq in Hok; rewrite Lookup_rec_eq; unfold deref;
    pose proof (Hempty p ltac:(left)) as Hpe; simpl chain in Hempty;
    destruct (h !! p) as [t|] eqn:Hp; try discriminate;
    injection Hpe as Hpe; rewrite bind_Ok, Hpe, lookup_empty;
    destruct (defaults t) as [d|] eqn:Hd; try reflexivity; [discriminate|].
  rewrite (IH h d key Hok), bind_Ok; [reflexivity|].
  intros q Hq. apply Hempty. now right.
Qed.

(** X18. [ClearAll] on a chain that ends: it succeeds, leaves every table of
    the chain, the first included, without pairs and with the defaults
    it had, leaves every other table as it was, and after it [Lookup]
    finds no key. *)
Theorem ClearAll_clears_chain (h : heap) p n :
  chain_ok n h p = true ->
  exists h', Table_ClearAll h p = Ok h' /\
             (forall q, q ∈ p :: chain (size h) h p ->
                        h' !! q = cleared <$> h !! q) /\
             (forall q, q ∉ p :: chain (size h) h p -> h' !! q = h !! q) /\
             (forall key, Table_Lookup h' p key = Ok ([], false)).
Proof.
  intros Hok. apply chain_ok_size in Hok. unfold Table_ClearAll.
  destruct (ClearAll_rec_ok (size h) h p (S (size h)) Hok ltac:(lia))
    as (h' & -> & Hh').
  exists h'. split; [reflexivity|].
  assert (Hsame : forall q, defaults <$> h' !! q = defaults <$> h !! q).
  { intros q. rewrite Hh'. destruct (bool_decide _); [|reflexivity].
    now destruct (h !! q). }
  assert (Hsize : size h' = size h).
  { rewrite <- !size_dom. f_equal. apply set_eq. intros q.
    rewrite !elem_of_dom, Hh'. destruct (bool_decide _); [|reflexivity].
    now rewrite fmap_is_Some. }
  split; [|split].
  - intros q Hq. now rewrite Hh', bool_decide_eq_true_2.
  - intros q Hq. now rewrite Hh', bool_decide_eq_false_2.
  - intros key. unfold Table_Lookup. rewrite Hsize.
    destruct (chain_same_pointers h h' Hsame (size h) p) as [Hch Hcok].
    apply Lookup_rec_empty; [now rewrite Hcok|].
    intros q Hq. rewrite Hch in Hq. rewrite Hh', bool_decide_eq_true_2 by exact Hq.
    assert (Hsome : is_Some (h !! q)).
    { apply elem_of_cons in Hq as [->|Hq].
      - rewrite chain_ok_eq in Hok. destruct (h !! p); [eauto|discriminate].
      - destruct (chain_ok_below _ _ h p q Hok Hq) as (n' & _ & Hq').
        rewrite chain_ok_eq in Hq'. destruct (h !! q); [eauto|discriminate]. }
    destruct Hsome as [t ->]. reflexivity.
Qed.

Lemma ClearAll_clears_chain_witness :
  exists h', Table_ClearAll two_tables 1%positive = Ok h' /\
             (forall q, q ∈ 1%positive
                            :: chain (size two_tables) two_tables 1%positive ->
                        h' !! q = cleared <$> two_tables !! q) /\
             (forall q, q ∉ 1%positive
                            :: chain (size two_tables) two_tables 1%positive ->
                        h' !! q = two_tables !! q) /\
             (forall key, Table_Lookup h' 1%positive key = Ok ([], false)).
Proof.
  apply (ClearAll_clears_chain two_tables 1%positive 1).
  vm_compute. reflexivity.
Defined.

Lemma Keys_loop_eq (fuel : nat) (h : heap) (p : option loc)
    (t : gset gostring) :
  Keys_loop (S fuel) h p t
  = match p with
    | Some p =>
        tb ← deref h p;
        Keys_loop fuel h (defaults tb) (t ∪ dom (entries tb))
    | None => Ok t
    end.
Proof. reflexivity. Qed.

(** The loop of [Keys] collects the keys [Lookup] finds. *)
Lemma Keys_loop_ok n : forall (h : heap) p (t : gset gostring) fuel,
  chain_ok n h p = true -> (S n < fuel)%nat ->
  exists s, Keys_loop fuel h (Some p) t = Ok s /\
            forall key, key ∈ s <->
                        key ∈ t \/ exists v, Lookup_rec (S n) h p key = Ok (v, true).
Proof.
  induction n as [|n IH]; intros h p t fuel Hok Hfuel.
  - destruct fuel as [|[|fuel]]; [lia|lia|].
    rewrite chain_ok_eq in Hok. rewrite Keys_loop_eq.
    unfold deref. destruct (h !! p) as [tb|] eqn:Hp; [|discriminate].
    destruct (defaults tb) as [d|] eqn:Hd; [discriminate|].
    rewrite bind_Ok. cbv beta. rewrite Hd, Keys_loop_eq.
    eexists. split; [reflexivity|]. intros key.
    rewrite Lookup_rec_eq. unfold deref. rewrite Hp, bind_Ok, Hd.
    rewrite elem_of_union, elem_of_dom.
    split; (intros [H|H]; [now left|right]).
    + destruct H as [v Hv]. exists v. now rewrite Hv.
    + destruct H as [v Hv].
      destruct (entries tb !! key); [eauto|discriminate].
  - destruct fuel as [|fuel]; [lia|].
    rewrite chain_ok_eq in Hok. rewrite Keys_loop_eq.
    unfold deref. destruct (h !! p) as [tb|] eqn:Hp; [|discriminate].
    rewrite bind_Ok. cbv beta.
    destruct (defaults tb) as [d|] eqn:Hd.
    + destruct (IH h d (t ∪ dom (entries tb)) fuel Hok ltac:(lia))
        as (s & -> & Hs).
      exists s. split; [reflexivity|]. intros key.
      rewrite Lookup_rec_eq. unfold deref. rewrite Hp, bind_Ok, Hd.
      rewrite Hs, elem_of_union, elem_of_dom.
      destruct (Lookup_rec_ok n h d key (S n) Hok ltac:(lia)) as [_ Hres].
      destruct (entries tb !! key) as [v0|] eqn:Hloc.
      * split; [intros _|intros _; left; right]; eauto.
      * split.
        -- intros [[H|[v Hv]]|[v Hv]]; [now left|discriminate|].
           right. exists v. now rewrite Hv, bind_Ok.
        -- intros [H|[v Hv]]; [now left; left|]. right.
           destruct Hres as [[v' Hv']|Hnone].
           ++ eauto.
           ++ rewrite Hnone, bind_Ok in Hv. discriminate.
    + destruct fuel as [|fuel]; [lia|]. rewrite Keys_loop_eq.
      eexists. split; [reflexivity|]. intros key.
      rewrite Lookup_rec_eq. unfold deref. rewrite Hp, bind_Ok, Hd.
      rewrite elem_of_union, elem_of_dom.
      split; (intros [H|H]; [now left|right]).
      * destruct H as [v Hv]. exists v. now rewrite Hv.
      * destruct H as [v Hv].
        destruct (entries tb !! key); [eauto|discriminate].
Qed.

(** X19. [Keys] on a chain that ends: it lists, each once, exactly the keys
    that [Lookup] finds. *)
Theorem Keys_are_found_keys (h : heap) p n :
  chain_ok n h p = true ->
  exists l, Table_Keys h p = Ok l /\ NoDup l /\
            forall key, key ∈ l <-> exists v, Table_Lookup h p key = Ok (v, true).
Proof.
  intros Hok. apply chain_ok_size in Hok. unfold Table_Keys, Table_Lookup.
  destruct (Keys_loop_ok (size h) h p ∅ (S (S (size h))) Hok ltac:(lia))
    as (s & -> & Hs).
  rewrite bind_Ok. eexists. split; [reflexivity|].
  split; [apply NoDup_elements|].
  intros key. rewrite elem_of_elements, Hs. split; [|now right].
  intros [H|H]; [|exact H]. now apply elem_of_empty in H.
Qed.

Lemma Keys_are_found_keys_witness :
  exists l, Table_Keys two_tables 1%positive = Ok l /\ NoDup l /\
            forall key, key ∈ l <->
                        exists v, Table_Lookup two_tables 1%positive key
                                  = Ok (v, true).
Proof.
  apply (Keys_are_found_keys two_tables 1%positive 1).
  vm_compute. reflexivity.
Defined.

(** X20. [NewTableDefaults] allocates a table of its own: the tables there
    were stay as they are, and through the new table every key looks up
    as in the defaults table. *)
Theorem NewTableDefaults_Lookup (h : heap) d n :
  chain_ok n h d = true ->
  let '(h', p) := NewTableDefaults h (Some d) in
  h !! p = None /\
  (forall q, q <> p -> h' !! q = h !! q) /\
  h' !! p = Some (mkTable (Some ∅) (Some d)) /\
  forall key, Table_Lookup h' p key = Table_Lookup h d key.
Proof.
  intros Hok. apply chain_ok_size in Hok. unfold NewTableDefaults, alloc.
  set (p := fresh (dom h)).
  assert (Hfresh : h !! p = None).
  { apply not_elem_of_dom. subst p. apply is_fresh. }
  split; [exact Hfresh|]. split; [|split].
  - intros q Hq. now rewrite lookup_insert_ne by congruence.
  - apply lookup_insert_eq.
  - intros key. unfold Table_Lookup.
    rewrite map_size_insert_None by exact Hfresh.
    rewrite Lookup_rec_eq. unfold deref. rewrite lookup_insert_eq, bind_Ok.
    unfold entries. cbn [data defaults]. rewrite lookup_empty.
    assert (Hpd : p <> d).
    { intros ->. rewrite chain_ok_eq, Hfresh in Hok. discriminate. }
    assert (Hnot : p ∉ chain (S (size h)) h d).
    { intros Hin.
      destruct (chain_ok_below _ _ h d p Hok Hin) as (n' & _ & Hp').
      rewrite chain_ok_eq, Hfresh in Hp'. discriminate. }
    rewrite Lookup_rec_update by assumption.
    destruct (Lookup_rec_ok (size h) h d key (S (size h)) Hok ltac:(lia))
      as [_ Hres].
    destruct Hres as [[v ->]| ->]; now rewrite bind_Ok.
Qed.

Lemma NewTableDefaults_Lookup_witness :
  let '(h', p) := NewTableDefaults two_tables (Some 1%positive) in
  two_tables !! p = None /\
  (forall q, q <> p -> h' !! q = two_tables !! q) /\
  h' !! p = Some (mkTable (Some ∅) (Some 1%positive)) /\
  forall key, Table_Lookup h' p key = Table_Lookup two_tables 1%positive key.
Proof.
  apply (NewTableDefaults_Lookup two_tables 1%positive 1).
  vm_compute. reflexivity.
Defined.

End Lookups.

(** ** The option parsers on every command line *)

Section GetoptInvariant.

Import getopt_next.

Lemma index_ok {A} (p : list A) i :
  0 <= i < len p -> exists x, index p i = Ok x /\ nth_error p (Z.to_nat i) = Some x.
Proof.
  intros Hi. unfold index.
  replace ((0 <=? i) && (i <? len p)) with true
    by (symmetry; apply andb_true_iff; split; lia).
  destruct (nth_error p (Z.to_nat i)) as [x|] eqn:Hx; [eauto|].
  apply nth_error_None in Hx. unfold len in Hi. lia.
Qed.

Lemma index_at (s : gostring) i :
  0 <= i < len s -> index s i = Ok (at_ s i).
Proof.
  intros Hi. destruct (index_ok s i Hi) as (x & -> & Hx).
  f_equal. unfold at_. symmetry. now apply nth_error_nth.
Qed.

Lemma nth_error_len {A} (p : list A) i x :
  0 <= i -> nth_error p (Z.to_nat i) = Some x -> i < len p.
Proof.
  intros Hi Hx. assert (Z.to_nat i < length p)%nat
    by (apply nth_error_Some; congruence).
  unfold len. lia.
Qed.

(** The tail of [Next], started at a valid position of an argument. *)
Lemma Next_option_ok (p : Parser) s :
  0 <= optIndex p ->
  nth_error (args p) (Z.to_nat (optIndex p)) = Some s ->
  0 < optPos p < len s -> hasArg p = false ->
  exists e p', Next_option p = Ok (at_ s (optPos p), e, p') /\
               parser_ok p' = true /\
               args p' = args p /\ opts p' = opts p /\
               optIndex p <= optIndex p' <= len (args p).
Proof.
  intros Hi Hs Hpos Hh. destruct p as [a oi op o ha]. simpl in *. subst ha.
  pose proof (nth_error_len a oi s Hi Hs) as Hlt.
  unfold Next_option. simpl.
  destruct (index_ok a oi ltac:(lia)) as (s' & -> & Hs').
  rewrite Hs in Hs'. injection Hs' as <-.
  rewrite bind_Ok, index_at by lia. rewrite bind_Ok.
  assert (Hstay : (len s <=? op + 1) = false ->
            parser_ok (mkParser a oi (op + 1) o false) = true).
  { intros Hle. apply Z.leb_gt in Hle. unfold parser_ok. simpl. rewrite Hs.
    replace (0 <=? oi) with true by (symmetry; apply Z.leb_le; lia).
    replace (0 <? op + 1) with true by (symmetry; apply Z.ltb_lt; lia).
    replace (op + 1 <? len s) with true by (symmetry; apply Z.ltb_lt; lia).
    now rewrite orb_true_r. }
  assert (Hnext : forall ha, implb ha (oi + 1 <? len a) = true ->
            parser_ok (mkParser a (oi + 1) 0 o ha) = true).
  { intros ha Hha. unfold parser_ok. simpl. rewrite Hha.
    now replace (0 <=? oi + 1) with true by (symmetry; apply Z.leb_le; lia). }
  destruct (len s <=? op + 1) eqn:Hend; simpl;
    repeat match goal with
           | |- context [if ?c then _ else _] => destruct c eqn:?; simpl
           end;
    eexists _, _; (split; [reflexivity|]); simpl;
    repeat split; try lia; auto.
  - apply Hnext. simpl.
    match goal with H : (len a <=? oi + 1) = false |- _ =>
      apply Z.leb_gt in H; now apply Z.ltb_lt end.
  - unfold parser_ok. simpl. rewrite Hs.
    apply Z.leb_gt in Hend.
    replace (0 <=? oi) with true by (symmetry; apply Z.leb_le; lia).
    replace (0 <? op + 1) with true by (symmetry; apply Z.ltb_lt; lia).
    replace (op + 1 <? len s) with true by (symmetry; apply Z.ltb_lt; lia).
    replace (oi <? len a) with true by (symmetry; apply Z.ltb_lt; lia).
    now rewrite orb_true_r.
Qed.

Lemma Next_ok (p : Parser) :
  parser_ok p = true ->
  exists r e p', Next p = Ok (r, e, p') /\ parser_ok p' = true /\
                 args p' = args p /\ opts p' = opts p /\
                 optIndex p <= optIndex p' /\
                 (optIndex p <= len (args p) -> optIndex p' <= len (args p)).
Proof.
  intros Hok. destruct p as [a oi op o ha].
  unfold parser_ok in Hok. simpl in Hok.
  apply andb_true_iff in Hok as [Hok Hha].
  apply andb_true_iff in Hok as [Hi Hpos]. apply Z.leb_le in Hi.
  unfold Next. simpl.
  destruct ha; simpl.
  - apply Z.ltb_lt in Hha.
    destruct (len a <=? oi + 1) eqn:Hend.
    + eexists _, _, _. split; [reflexivity|]. simpl.
      unfold parser_ok. simpl.
      replace (0 <=? oi + 1) with true by (symmetry; apply Z.leb_le; lia).
      repeat split; auto; lia.
    + apply Z.leb_gt in Hend.
      destruct (index_ok a (oi + 1) ltac:(lia)) as (s & -> & Hs).
      rewrite bind_Ok.
      destruct ((len s <=? 1) || negb (at_ s 0 =? 45)) eqn:Hdash.
      { eexists _, _, _. split; [reflexivity|]. simpl.
        unfold parser_ok. simpl.
        replace (0 <=? oi + 1) with true by (symmetry; apply Z.leb_le; lia).
        repeat split; auto; lia. }
      apply orb_false_iff in Hdash as [Hlen _]. apply Z.leb_gt in Hlen.
      destruct ((len s =? 2) && (at_ s 1 =? 45)).
      { eexists _, _, _. split; [reflexivity|]. simpl.
        unfold parser_ok. simpl.
        replace (0 <=? oi + 1 + 1) with true by (symmetry; apply Z.leb_le; lia).
        repeat split; auto; lia. }
      destruct (Next_option_ok (mkParser a (oi + 1) 1 o false) s)
        as (e & p' & -> & Hp' & Ha & Ho & Hio); simpl; auto; try lia.
      simpl in *. eexists _, _, _. split; [reflexivity|].
      repeat split; auto; lia.
  - clear Hha. destruct (len a <=? oi) eqn:Hend.
    + eexists _, _, _. split; [reflexivity|]. simpl.
      unfold parser_ok. simpl.
      apply Z.leb_le in Hend.
      destruct (op =? 0) eqn:Hop.
      * replace (0 <=? oi) with true by (symmetry; apply Z.leb_le; lia).
        repeat split; auto; lia.
      * simpl in Hpos. destruct (nth_error a (Z.to_nat oi)) as [s|] eqn:Hs;
          [|discriminate].
        pose proof (nth_error_len a oi s Hi Hs). lia.
    + apply Z.leb_gt in Hend.
      destruct (op =? 0) eqn:Hop.
      * apply Z.eqb_eq in Hop. subst op.
        destruct (index_ok a oi ltac:(lia)) as (s & -> & Hs).
        rewrite bind_Ok.
        destruct ((len s <=? 1) || negb (at_ s 0 =? 45)) eqn:Hdash.
        { eexists _, _, _. split; [reflexivity|]. simpl.
          unfold parser_ok. simpl.
          replace (0 <=? oi) with true by (symmetry; apply Z.leb_le; lia).
          repeat split; auto; lia. }
        apply orb_false_iff in Hdash as [Hlen _]. apply Z.leb_gt in Hlen.
        destruct ((len s =? 2) && (at_ s 1 =? 45)).
        { eexists _, _, _. split; [reflexivity|]. simpl.
          unfold parser_ok. simpl.
          replace (0 <=? oi + 1) with true by (symmetry; apply Z.leb_le; lia).
          repeat split; auto; lia. }
        destruct (Next_option_ok (mkParser a oi 1 o false) s)
          as (e & p' & -> & Hp' & Ha & Ho & Hio); simpl; auto; try lia.
        simpl in *. eexists _, _, _. split; [reflexivity|].
        repeat split; auto; lia.
      * simpl in Hpos. destruct (nth_error a (Z.to_nat oi)) as [s|] eqn:Hs;
          [|discriminate].
        apply andb_true_iff in Hpos as [H1 H2].
        apply Z.ltb_lt in H1. apply Z.ltb_lt in H2.
        destruct (Next_option_ok (mkParser a oi op o false) s)
          as (e & p' & -> & Hp' & Ha & Ho & Hio); simpl; auto; try lia.
        simpl in *. eexists _, _, _. split; [reflexivity|].
        repeat split; auto; lia.
Qed.

Lemma Args_ok (p : Parser) :
  parser_ok p = true -> optIndex p <= len (args p) ->
  exists i, Args p = Ok (drop i (args p)).
Proof.
  intros Hok Hle. unfold parser_ok in Hok.
  apply andb_true_iff in Hok as [Hok Hha].
  apply andb_true_iff in Hok as [Hi _]. apply Z.leb_le in Hi.
  unfold Args. destruct (hasArg p); simpl in Hha.
  - apply Z.ltb_lt in Hha. rewrite slice_from_ok by lia. eauto.
  - rewrite slice_from_ok by lia. eauto.
Qed.

Lemma run_ok k : forall p,
  parser_ok p = true ->
  Forall (fun o => exists r e a, o = Ok (r, e, a) /\
            (optIndex p <= len (args p) -> exists i, a = Ok (drop i (args p))))
         (run k p).
Proof.
  induction k as [|k IH]; intros p Hok; simpl; [constructor|].
  destruct (Next_ok p Hok) as (r & e & p' & -> & Hok' & Ha & _ & _ & Hle).
  constructor.
  - exists r, e, (Args p'). split; [reflexivity|]. intros H.
    rewrite <- Ha. apply Args_ok; [assumption|]. rewrite Ha. auto.
  - specialize (IH p' Hok'). rewrite Ha in IH.
    eapply Forall_impl; [exact IH|]. simpl.
    intros o (r' & e' & a' & -> & H). exists r', e', a'.
    split; [reflexivity|]. intros Hp. apply H. auto.
Qed.

(** X21. However many times [Next] is called on a parser made by [NewParser],
    it returns and never panics; and when the argument list is not empty
    (it holds the program's name), each [Args()] in between returns a
    suffix of the arguments. *)
Theorem Next_never_panics (a : list gostring) (o : gostring) (k : nat) :
  Forall (fun x => exists r e rest, x = Ok (r, e, rest) /\
            (a <> [] -> exists i, rest = Ok (drop i a)))
         (run k (NewParser a o)).
Proof.
  eapply Forall_impl; [apply run_ok; reflexivity|]. simpl.
  intros x (r & e & rest & -> & H). exists r, e, rest.
  split; [reflexivity|]. intros Ha. apply H.
  destruct a; [congruence|]. rewrite len_cons. pose proof (len_nonneg a). lia.
Qed.

Lemma IndexByte_cases (s : gostring) c :
  (IndexByte s c = -1 /\ ~ In c s) \/
  (0 <= IndexByte s c < len s /\ at_ s (IndexByte s c) = c /\ In c s).
Proof.
  induction s as [|x s IH]; [left; split; [reflexivity|intros []]|].
  cbn [IndexByte]. destruct (x =? c) eqn:Hx.
  - apply Z.eqb_eq in Hx. right. rewrite len_cons. pose proof (len_nonneg s).
    repeat split; try lia; [now subst|now left].
  - apply Z.eqb_neq in Hx.
    destruct IH as [[-> Hn]|(Hr & Hat & Hin)].
    + left. split; [reflexivity|]. intros [?|?]; tauto.
    + right. replace (IndexByte s c <? 0) with false
        by (symmetry; apply Z.ltb_ge; lia).
      rewrite len_cons. repeat split; try lia; [|now right].
      unfold at_ in *. replace (Z.to_nat (IndexByte s c + 1))
        with (S (Z.to_nat (IndexByte s c))) by lia. exact Hat.
Qed.

Lemma Next_option_result (p : Parser) r e p' :
  Next_option p = Ok (r, e, p') ->
  match e with
  | None => In r (opts p) /\ 0x20 < r < 0x7f /\ r <> 58 /\ r <> 45 /\
            hasArg p' = hasArg p || takes_argument (opts p) r
  | Some ErrOption =>
      hasArg p' = hasArg p /\
      (~ In r (opts p) \/ r <= 0x20 \/ r = 58 \/ r = 45 \/ 0x7f <= r)
  | Some ErrNoArg =>
      hasArg p' = hasArg p /\ takes_argument (opts p) r = true /\
      len (args p) <= optIndex p'
  end.
Proof.
  destruct p as [a oi op o ha]. unfold Next_option. simpl.
  destruct (index_cases a oi) as [->|[s ->]]; [discriminate|].
  rewrite bind_Ok.
  destruct (index_cases s op) as [->|[b ->]]; [discriminate|].
  rewrite bind_Ok. unfold takes_argument.
  destruct ((b <=? 32) || (b =? 58) || (b =? 45) || (127 <=? b)) eqn:Hb.
  { intros Hr. injection Hr as <- <- <-. split.
    - now destruct (len s <=? op + 1).
    - right. repeat (apply orb_true_iff in Hb as [Hb|Hb]);
        [apply Z.leb_le in Hb|apply Z.eqb_eq in Hb|apply Z.eqb_eq in Hb
        |apply Z.leb_le in Hb]; lia. }
  repeat (apply orb_false_iff in Hb as [Hb ?]).
  apply Z.leb_gt in Hb.
  repeat match goal with
         | H : (_ =? _) = false |- _ => apply Z.eqb_neq in H
         | H : (_ <=? _) = false |- _ => apply Z.leb_gt in H
         end.
  assert (Ho : forall q : Parser,
            opts (if len s <=? op + 1 then mkParser a (oi + 1) 0 o ha
                  else mkParser a oi (op + 1) o ha) = o)
    by (now destruct (len s <=? op + 1)).
  assert (Hh : hasArg (if len s <=? op + 1 then mkParser a (oi + 1) 0 o ha
                       else mkParser a oi (op + 1) o ha) = ha)
    by (now destruct (len s <=? op + 1)).
  assert (Ha : args (if len s <=? op + 1 then mkParser a (oi + 1) 0 o ha
                     else mkParser a oi (op + 1) o ha) = a)
    by (now destruct (len s <=? op + 1)).
  specialize (Ho (mkParser a oi op o ha)).
  set (q := if len s <=? op + 1 then _ else _) in *.
  rewrite Ho, Ha.
  destruct (IndexByte_cases o b) as [[Hi Hn]|(Hi & Hat & Hin)].
  - rewrite Hi. simpl. intros Hr. injection Hr as <- <- <-.
    split; [exact Hh|now left].
  - replace (IndexByte o b <? 0) with false by (symmetry; apply Z.ltb_ge; lia).
    assert (Hnn : (0 <=? IndexByte o b) = true) by (apply Z.leb_le; lia).
    destruct ((IndexByte o b + 1 <? len o) && (at_ o (IndexByte o b + 1) =? 58))
      eqn:Hcolon.
    + destruct (len a <=? optIndex q) eqn:Hend.
      * intros Hr. injection Hr as <- <- <-. apply Z.leb_le in Hend.
        rewrite Hnn. cbn [andb]. rewrite Hcolon. repeat split; auto.
      * intros Hr. injection Hr as <- <- <-. simpl.
        rewrite Hnn. cbn [andb]. rewrite Hcolon.
        repeat split; auto; try lia; now rewrite orb_true_r.
    + intros Hr. injection Hr as <- <- <-.
      rewrite Hnn. cbn [andb]. rewrite Hcolon.
      repeat split; auto; try lia; now rewrite orb_false_r.
Qed.

(** X22. What the results of [Next] mean.  Without an error, the rune is
    [EndOption] or a byte of the definition string that is a graphic
    ASCII character other than the colon and the dash, and the parser
    then holds an argument exactly when the definition string follows
    that byte by a colon.  [ErrOption] comes with a byte that is not in
    the definition string or is not such a character.  [ErrNoArg] comes
    with an option that takes an argument when the command line ended
    with it. *)
Theorem Next_result (p : Parser) r e p' :
  Next p = Ok (r, e, p') ->
  match e with
  | None => (r = EndOption /\ hasArg p' = false) \/
            (In r (opts p) /\ 0x20 < r < 0x7f /\ r <> 58 /\ r <> 45 /\
             hasArg p' = takes_argument (opts p) r)
  | Some ErrOption =>
      hasArg p' = false /\
      (~ In r (opts p) \/ r <= 0x20 \/ r = 58 \/ r = 45 \/ 0x7f <= r)
  | Some ErrNoArg =>
      hasArg p' = false /\ takes_argument (opts p) r = true /\
      len (args p) <= optIndex p'
  end.
Proof.
  unfold Next.
  set (q := if hasArg p then _ else p).
  assert (Hq : args q = args p /\ opts q = opts p /\ hasArg q = false).
  { unfold q. destruct (hasArg p) eqn:Hh; simpl; auto. }
  destruct Hq as (Ha & Ho & Hh). clearbody q.
  assert (Hopt : forall q0, args q0 = args p -> opts q0 = opts p ->
            hasArg q0 = false -> Next_option q0 = Ok (r, e, p') ->
            match e with
            | None => (r = EndOption /\ hasArg p' = false) \/
                      (In r (opts p) /\ 0x20 < r < 0x7f /\ r <> 58 /\ r <> 45 /\
                       hasArg p' = takes_argument (opts p) r)
            | Some ErrOption =>
                hasArg p' = false /\
                (~ In r (opts p) \/ r <= 0x20 \/ r = 58 \/ r = 45 \/ 0x7f <= r)
            | Some ErrNoArg =>
                hasArg p' = false /\ takes_argument (opts p) r = true /\
                len (args p) <= optIndex p'
            end).
  { intros q0 Ha0 Ho0 Hh0 H. apply Next_option_result in H.
    rewrite Ha0, Ho0, Hh0 in H. destruct e as [[]|]; [exact H|exact H|].
    right. exact H. }
  destruct (len (args q) <=? optIndex q).
  { intros H. injection H as <- <- <-. left. auto. }
  destruct (optPos q =? 0); [|now apply Hopt].
  destruct (index_cases (args q) (optIndex q)) as [->|[s ->]]; [discriminate|].
  rewrite bind_Ok.
  destruct ((len s <=? 1) || negb (at_ s 0 =? 45)).
  { intros H. injection H as <- <- <-. left. auto. }
  destruct ((len s =? 2) && (at_ s 1 =? 45)).
  { intros H. injection H as <- <- <-. left. auto. }
  now apply Hopt.
Qed.

Lemma Next_result_witness :
  let o := [97; 98; 58] in
  let p' := mkParser [[112]; [45; 98; 120]] 1 2 o true in
  (98 = EndOption /\ hasArg p' = false) \/
  (In 98 o /\ 0x20 < 98 < 0x7f /\ 98 <> 58 /\ 98 <> 45 /\
   hasArg p' = takes_argument o 98).
Proof.
  exact (Next_result (NewParser [[112]; [45; 98; 120]] [97; 98; 58])
           98 None (mkParser [[112]; [45; 98; 120]] 1 2 [97; 98; 58] true)
           eq_refl).
Defined.

(** X23. An option that takes an argument finds it in the rest of its own
    command-line argument, or, when nothing follows the option there,
    in the next command-line argument; [Args()] then starts after it.
    When the command line ends with the option, [Next] returns
    [ErrNoArg]. *)
Theorem OptArg_attached_or_next (pre : list gostring) (b : Z)
    (rest : gostring) (more : list gostring) (o : gostring) :
  0x20 < b < 0x7f -> b <> 58 -> b <> 45 ->
  takes_argument o b = true ->
  let p := mkParser (pre ++ (45 :: b :: rest) :: more) (len pre) 0 o false in
  match rest, more with
  | _ :: _, _ =>
      exists p', Next p = Ok (b, None, p') /\
                 OptArg p' = Ok rest /\ Args p' = Ok more
  | [], a :: more' =>
      exists p', Next p = Ok (b, None, p') /\
                 OptArg p' = Ok a /\ Args p' = Ok more'
  | [], [] => exists p', Next p = Ok (b, Some ErrNoArg, p')
  end.
Proof.
  intros Hb H58 H45 Ht p.
  pose proof (len_nonneg pre) as Hpre. pose proof (len_nonneg more) as Hmore.
  pose proof (len_nonneg rest) as Hrest.
  set (s := 45 :: b :: rest). set (a := pre ++ s :: more).
  assert (Hs : index a (len pre) = Ok s).
  { unfold index, a. rewrite len_app, len_cons.
    replace ((0 <=? len pre) && (len pre <? len pre + (len more + 1)))
      with true by (symmetry; apply andb_true_iff; split; lia).
    unfold len. rewrite Nat2Z.id, nth_error_app2 by lia.
    now rewrite Nat.sub_diag. }
  assert (Hla : len a = len pre + len more + 1)
    by (unfold a; rewrite len_app, len_cons; lia).
  assert (Hls : len s = len rest + 2)
    by (unfold s; rewrite !len_cons; lia).
  unfold takes_argument in Ht.
  apply andb_true_iff in Ht as [Ht Hc]. apply andb_true_iff in Ht as [Hi Hl].
  apply Z.leb_le in Hi.
  assert (Hn : Next p =
    Next_option (mkParser a (len pre) 1 o false)).
  { unfold Next, p. simpl. fold s a.
    replace (len a <=? len pre) with false by (symmetry; apply Z.leb_gt; lia).
    rewrite Hs, bind_Ok.
    replace (len s <=? 1) with false by (symmetry; apply Z.leb_gt; lia).
    change (at_ s 0) with 45. change (at_ s 1) with b. simpl negb.
    replace (b =? 45) with false by (symmetry; apply Z.eqb_neq; lia).
    now rewrite andb_false_r. }
  assert (Hbyte : index s 1 = Ok b) by (rewrite index_at by lia; reflexivity).
  assert (Hvalid : (b <=? 32) || (b =? 58) || (b =? 45) || (127 <=? b) = false).
  { replace (b <=? 32) with false by (symmetry; apply Z.leb_gt; lia).
    replace (b =? 58) with false by (symmetry; apply Z.eqb_neq; lia).
    replace (b =? 45) with false by (symmetry; apply Z.eqb_neq; lia).
    replace (127 <=? b) with false by (symmetry; apply Z.leb_gt; lia).
    reflexivity. }
  assert (Hno : Next_option (mkParser a (len pre) 1 o false) =
    let q := if len s <=? 2 then mkParser a (len pre + 1) 0 o false
             else mkParser a (len pre) 2 o false in
    if len a <=? optIndex q then Ok (b, Some ErrNoArg, q)
    else Ok (b, None, mkParser a (optIndex q) (optPos q) o true)).
  { unfold Next_option. simpl. rewrite Hs, bind_Ok, Hbyte, bind_Ok, Hvalid.
    change (1 + 1) with 2.
    destruct (len s <=? 2); simpl;
      replace (IndexByte o b <? 0) with false
        by (symmetry; apply Z.ltb_ge; lia);
      rewrite Hl, Hc; reflexivity. }
  rewrite Hn, Hno. clear Hn Hno.
  destruct rest as [|c rest].
  - replace (len s <=? 2) with true by (symmetry; apply Z.leb_le;
      change (len (@nil Z)) with 0 in Hls; lia).
    cbv zeta. cbn [optIndex optPos].
    destruct more as [|x more].
    + replace (len a <=? len pre + 1) with true
        by (symmetry; apply Z.leb_le; change (len (@nil gostring)) with 0 in Hla;
            lia).
      eauto.
    + rewrite len_cons in Hla. pose proof (len_nonneg more).
      replace (len a <=? len pre + 1) with false
        by (symmetry; apply Z.leb_gt; lia).
      eexists. split; [reflexivity|].
      assert (Ha' : a = (pre ++ [s]) ++ x :: more)
        by (unfold a; now rewrite <- app_assoc).
      assert (Hl' : len pre + 1 = len (pre ++ [s]))
        by (rewrite len_app; reflexivity).
      split.
      * unfold OptArg. simpl.
        assert (Hx : index a (len pre + 1) = Ok x).
        { unfold index. rewrite Hla.
          replace ((0 <=? len pre + 1) && (len pre + 1 <? len pre + (len more + 1) + 1))
            with true by (symmetry; apply andb_true_iff; split; lia).
          rewrite Ha', Hl'. unfold len. rewrite Nat2Z.id.
          rewrite nth_error_app2 by lia. now rewrite Nat.sub_diag. }
        rewrite Hx, bind_Ok. apply (slice_from_app [] x).
      * unfold Args. simpl.
        replace (len pre + 1 + 1) with (len ((pre ++ [s]) ++ [x]))
          by (rewrite !len_app; change (len [s]) with 1;
              change (len [x]) with 1; lia).
        rewrite Ha'. replace ((pre ++ [s]) ++ x :: more)
          with (((pre ++ [s]) ++ [x]) ++ more) by (now rewrite <- !app_assoc).
        apply slice_from_app.
  - rewrite len_cons in Hls. pose proof (len_nonneg rest).
    replace (len s <=? 2) with false by (symmetry; apply Z.leb_gt; lia).
    cbv zeta. cbn [optIndex optPos].
    replace (len a <=? len pre) with false by (symmetry; apply Z.leb_gt; lia).
    eexists. split; [reflexivity|]. split.
    + unfold OptArg. simpl. rewrite Hs, bind_Ok.
      apply (slice_from_app [45; b] (c :: rest)).
    + unfold Args. simpl.
      replace (len pre + 1) with (len (pre ++ [s]))
        by (rewrite len_app; reflexivity).
      unfold a. replace (pre ++ s :: more) with ((pre ++ [s]) ++ more)
        by (now rewrite <- app_assoc).
      apply slice_from_app.
Qed.

Lemma OptArg_attached_or_next_witness :
  exists p', Next (NewParser [[112]; [45; 111]; [102]; [120]] [111; 58]) =
               Ok (111, None, p') /\
             OptArg p' = Ok [102] /\ Args p' = Ok [[120]].
Proof.
  apply (OptArg_attached_or_next [[112]] 111 [] [[102]; [120]] [111; 58]);
    [lia|lia|lia|reflexivity].
Defined.

Lemma Option_ok (q : getopt_option.Parser) :
  parser_ok (forget q) = true ->
  exists r e q', getopt_option.Option q = Ok (r, e, q') /\
                 parser_ok (forget q') = true /\
                 getopt_option.args q' = getopt_option.args q /\
                 (getopt_option.optIndex q <= len (getopt_option.args q) ->
                  getopt_option.optIndex q' <= len (getopt_option.args q)).
Proof.
  intros Hok. destruct (getopt_option.done q) eqn:Hd.
  - rewrite (Option_done q Hd). eexists _, _, _. split; [reflexivity|]. auto.
  - destruct (Next_ok (forget q) Hok) as (r & e & p' & Hn & Hp' & Ha & _ & _ & Hle).
    rewrite (Next_forget q Hd) in Hn.
    destruct (getopt_option.Option q) as [[[r0 e0] q']| |]; try discriminate.
    simpl in Hn. injection Hn as -> -> <-.
    exists r, e, q'. split; [reflexivity|]. split; [exact Hp'|].
    split; [exact Ha|exact Hle].
Qed.

Lemma Option_run_ok k : forall q,
  parser_ok (forget q) = true ->
  Forall (fun o => exists r e a, o = Ok (r, e, a) /\
            (getopt_option.optIndex q <= len (getopt_option.args q) ->
             exists i, a = Ok (drop i (getopt_option.args q))))
         (getopt_option.run k q).
Proof.
  induction k as [|k IH]; intros q Hok; simpl; [constructor|].
  destruct (Option_ok q Hok) as (r & e & q' & -> & Hok' & Ha & Hle).
  constructor.
  - exists r, e, (getopt_option.Args q'). split; [reflexivity|]. intros H.
    rewrite <- Ha. apply (Args_ok (forget q')); [assumption|].
    change (args (forget q')) with (getopt_option.args q'). rewrite Ha.
    apply Hle, H.
  - specialize (IH q' Hok'). rewrite Ha in IH.
    eapply Forall_impl; [exact IH|]. simpl.
    intros o (r' & e' & a' & -> & H). exists r', e', a'.
    split; [reflexivity|]. intros Hp. apply H. auto.
Qed.

(** X25. The variant with [Option] and the [done] flag: however many times
    [Option] is called on a parser made by [NewParser], it returns and
    never panics, and with a non-empty argument list each [Args()] in
    between returns a suffix of the arguments. *)
Theorem Option_never_panics (a : list gostring) (o : gostring) (k : nat) :
  Forall (fun x => exists r e rest, x = Ok (r, e, rest) /\
            (a <> [] -> exists i, rest = Ok (drop i a)))
         (getopt_option.run k (getopt_option.NewParser a o)).
Proof.
  eapply Forall_impl; [apply Option_run_ok; reflexivity|]. simpl.
  intros x (r & e & rest & -> & H). exists r, e, rest.
  split; [reflexivity|]. intros Ha. apply H.
  destruct a; [congruence|]. rewrite len_cons. pose proof (len_nonneg a). lia.
Qed.

Lemma is_flag_parts o b :
  is_flag o b = true ->
  (b <=? 32) || (b =? 58) || (b =? 45) || (127 <=? b) = false /\
  b <> 45 /\
  (IndexByte o b <? 0) = false /\
  (IndexByte o b + 1 <? len o) && (at_ o (IndexByte o b + 1) =? 58) = false.
Proof.
  unfold is_flag, takes_argument. cbv zeta. intros H.
  apply andb_true_iff in H as [H Ht]. apply andb_true_iff in H as [H Hi].
  apply andb_true_iff in H as [H H45]. apply andb_true_iff in H as [H H58].
  apply andb_true_iff in H as [Hlo Hhi].
  apply Z.ltb_lt in Hlo, Hhi. apply Z.leb_le in Hi.
  apply negb_true_iff, Z.eqb_neq in H45. apply negb_true_iff, Z.eqb_neq in H58.
  apply negb_true_iff in Ht.
  replace (0 <=? IndexByte o b) with true in Ht
    by (symmetry; apply Z.leb_le; lia).
  cbn [andb] in Ht.
  repeat split.
  - replace (b <=? 32) with false by (symmetry; apply Z.leb_gt; lia).
    replace (b =? 58) with false by (symmetry; apply Z.eqb_neq; lia).
    replace (b =? 45) with false by (symmetry; apply Z.eqb_neq; lia).
    replace (127 <=? b) with false by (symmetry; apply Z.leb_gt; lia).
    reflexivity.
  - exact H45.
  - apply Z.ltb_ge. lia.
  - exact Ht.
Qed.

Lemma index_app_middle {A} (pre : list A) (x : A) more :
  index (pre ++ x :: more) (len pre) = Ok x.
Proof.
  unfold index. rewrite len_app, len_cons.
  pose proof (len_nonneg pre). pose proof (len_nonneg more).
  replace ((0 <=? len pre) && (len pre <? len pre + (len more + 1)))
    with true by (symmetry; apply andb_true_iff; split; lia).
  unfold len. rewrite Nat2Z.id, nth_error_app2 by lia.
  now rewrite Nat.sub_diag.
Qed.

(** One flag in the middle of an argument. *)
Lemma Next_flag pre seen b rest more o :
  is_flag o b = true ->
  let s := 45 :: seen ++ b :: rest in
  let a := pre ++ s :: more in
  Next (mkParser a (len pre) (len seen + 1) o false)
  = Ok (b, None,
        match rest with
        | [] => mkParser a (len pre + 1) 0 o false
        | _ :: _ => mkParser a (len pre) (len seen + 1 + 1) o false
        end).
Proof.
  intros Hb s a. destruct (is_flag_parts o b Hb) as (Hvalid & _ & Hi & Hc).
  pose proof (len_nonneg pre). pose proof (len_nonneg more).
  pose proof (len_nonneg seen). pose proof (len_nonneg rest).
  assert (Hla : len a = len pre + len more + 1)
    by (unfold a; rewrite len_app, len_cons; lia).
  assert (Hls : len s = len seen + len rest + 2)
    by (unfold s; rewrite len_cons, len_app, len_cons; lia).
  unfold Next. cbn [hasArg args optIndex optPos].
  replace (len a <=? len pre) with false by (symmetry; apply Z.leb_gt; lia).
  replace (len seen + 1 =? 0) with false by (symmetry; apply Z.eqb_neq; lia).
  unfold Next_option. cbn [hasArg args optIndex optPos opts].
  assert (Hidx : index a (len pre) = Ok s) by apply index_app_middle.
  rewrite Hidx, bind_Ok.
  assert (Hat : index s (len seen + 1) = Ok b).
  { rewrite index_at by lia. f_equal. unfold s.
    change (45 :: seen ++ b :: rest) with ((45 :: seen) ++ b :: rest).
    replace (len seen + 1) with (len (45 :: seen)) by (rewrite len_cons; lia).
    apply at_app. }
  rewrite Hat, bind_Ok, Hvalid.
  destruct rest as [|c rest].
  - change (len (@nil Z)) with 0 in Hls.
    replace (len s <=? len seen + 1 + 1) with true
      by (symmetry; apply Z.leb_le; lia).
    cbn [opts args optIndex optPos hasArg]. now rewrite Hi, Hc.
  - rewrite len_cons in Hls. pose proof (len_nonneg rest).
    replace (len s <=? len seen + 1 + 1) with false
      by (symmetry; apply Z.leb_gt; lia).
    cbn [opts args optIndex optPos hasArg]. now rewrite Hi, Hc.
Qed.

(** At the start of an argument that holds flags, [Next] does what it
    does just past the dash. *)
Lemma Next_enters pre b rest more o :
  b <> 45 ->
  let a := pre ++ (45 :: b :: rest) :: more in
  Next (mkParser a (len pre) 0 o false) = Next (mkParser a (len pre) 1 o false).
Proof.
  intros Hb a.
  pose proof (len_nonneg pre). pose proof (len_nonneg more).
  pose proof (len_nonneg rest).
  assert (Hla : len a = len pre + len more + 1)
    by (unfold a; rewrite len_app, len_cons; lia).
  unfold Next. cbn [hasArg args optIndex optPos].
  replace (len a <=? len pre) with false by (symmetry; apply Z.leb_gt; lia).
  change (0 =? 0) with true. change (1 =? 0) with false. cbv iota.
  assert (Hidx : index a (len pre) = Ok (45 :: b :: rest))
    by apply index_app_middle.
  rewrite Hidx, bind_Ok.
  rewrite !len_cons.
  replace (len rest + 1 + 1 <=? 1) with false by (symmetry; apply Z.leb_gt; lia).
  change (at_ (45 :: b :: rest) 0) with 45. change (at_ (45 :: b :: rest) 1) with b.
  replace (b =? 45) with false by (symmetry; apply Z.eqb_neq; lia).
  now rewrite andb_false_r.
Qed.

Lemma Args_at pre (s : gostring) more o pos :
  Args (mkParser (pre ++ s :: more) (len pre) pos o false) = Ok (s :: more) /\
  Args (mkParser (pre ++ s :: more) (len pre + 1) pos o false) = Ok more.
Proof.
  unfold Args. cbn [hasArg optIndex args]. split.
  - apply slice_from_app.
  - replace (len pre + 1) with (len (pre ++ [s]))
      by (rewrite len_app; reflexivity).
    replace (pre ++ s :: more) with ((pre ++ [s]) ++ more)
      by (now rewrite <- app_assoc).
    apply slice_from_app.
Qed.

Lemma run_flags k pre more o : forall fl seen,
  forallb (is_flag o) fl = true ->
  let s := 45 :: seen ++ fl in
  let a := pre ++ s :: more in
  fl <> [] ->
  run (length fl + k) (mkParser a (len pre) (len seen + 1) o false)
  = flags_seen s more fl ++ run k (mkParser a (len pre + 1) 0 o false).
Proof.
  induction fl as [|b fl IH]; intros seen Hfl s a Hne; [contradiction|].
  cbn [forallb] in Hfl. apply andb_true_iff in Hfl as [Hb Hfl].
  cbn [length Nat.add run].
  unfold a, s. rewrite (Next_flag pre seen b fl more o Hb).
  destruct fl as [|c fl].
  - cbn [flags_seen app length Nat.add].
    destruct (Args_at pre (45 :: seen ++ [b]) more o 0) as [_ ->].
    reflexivity.
  - destruct (Args_at pre (45 :: seen ++ b :: c :: fl) more o
                (len seen + 1 + 1)) as [-> _].
    cbn [flags_seen app]. f_equal.
    specialize (IH (seen ++ [b]) Hfl ltac:(discriminate)).
    cbv zeta in IH. rewrite <- !app_assoc in IH. cbn [app] in IH.
    rewrite len_app in IH. change (len [b]) with 1 in IH.
    exact IH.
Qed.

(** X24. A cluster of flags: on an argument [-abc] whose bytes after the
    dash are all options without argument, successive calls of [Next]
    return the flags one by one, in order, each with a nil error;
    [Args()] starts at this argument until its last flag has been
    returned; parsing then goes on at the next argument. *)
Theorem Next_flag_cluster (pre : list gostring) (fl : list Z)
    (more : list gostring) (o : gostring) (k : nat) :
  fl <> [] -> forallb (is_flag o) fl = true ->
  let a := pre ++ (45 :: fl) :: more in
  run (length fl + k) (mkParser a (len pre) 0 o false)
  = flags_seen (45 :: fl) more fl
    ++ run k (mkParser a (len pre + 1) 0 o false).
Proof.
  intros Hne Hfl a. unfold a. clear a.
  pose proof (run_flags k pre more o fl [] Hfl Hne) as H.
  cbv zeta in H. cbn [app] in H. change (len (@nil Z) + 1) with 1 in H.
  rewrite <- H. destruct fl as [|b fl]; [contradiction|].
  cbn [forallb] in Hfl. apply andb_true_iff in Hfl as [Hb _].
  destruct (is_flag_parts o b Hb) as (_ & H45 & _).
  cbn [length Nat.add run].
  now rewrite (Next_enters pre b fl more o H45).
Qed.

Lemma Next_flag_cluster_witness :
  let a := [[112]; [45; 97; 98]; [120]] in
  run 3 (NewParser a [97; 98])
  = flags_seen [45; 97; 98] [[120]] [97; 98]
    ++ run 1 (mkParser a 2 0 [97; 98] false).
Proof.
  apply (Next_flag_cluster [[112]] [97; 98] [[120]] [97; 98] 1);
    [discriminate|reflexivity].
Defined.

End GetoptInvariant.

(** ** The two option parsers side by side *)

Section GetoptAgreement.

Import getopt_next.

(** The tail of [Next] never says that the options are over. *)
Lemma Next_option_not_end (p : Parser) r e p' :
  Next_option p = Ok (r, e, p') -> is_end r e = false.
Proof.
  intros H. apply Next_option_result in H. unfold is_end.
  destruct e as [err|]; [apply andb_false_r|].
  destruct H as (_ & Hr & _). rewrite andb_true_r.
  apply Z.eqb_neq. unfold EndOption. lia.
Qed.

(** [Option] sets [done] exactly when it says that the options are
    over. *)
Lemma Option_done_iff q r e q' :
  getopt_option.done q = false ->
  getopt_option.Option q = Ok (r, e, q') ->
  getopt_option.done q' = is_end r e.
Proof.
  intros Hd Hq.
  assert (Htail : forall q0, getopt_option.done q0 = false ->
            getopt_option.Option_option q0 = Ok (r, e, q') ->
            getopt_option.done q' = is_end r e).
  { intros q0 H0 H1.
    rewrite (Option_option_done q0 r e q' H1), H0. symmetry.
    pose proof (Next_option_forget q0) as Hf. rewrite H1 in Hf.
    simpl in Hf. now apply Next_option_not_end in Hf. }
  destruct q as [a oi op o ha d]. simpl in Hd. subst d.
  revert Hq. unfold getopt_option.Option; simpl.
  destruct ha; simpl.
  - destruct (len a <=? oi + 1); simpl; [intros [= <- <- <-]; reflexivity|].
    destruct (index_cases a (oi + 1)) as [->|[s ->]]; simpl; [discriminate|].
    destruct ((len s <=? 1) || negb (at_ s 0 =? 45)); simpl;
      [intros [= <- <- <-]; reflexivity|].
    destruct ((len s =? 2) && (at_ s 1 =? 45)); simpl;
      [intros [= <- <- <-]; reflexivity|].
    now apply Htail.
  - destruct (len a <=? oi); simpl; [intros [= <- <- <-]; reflexivity|].
    destruct (op =? 0); simpl.
    + destruct (index_cases a oi) as [->|[s ->]]; simpl; [discriminate|].
      destruct ((len s <=? 1) || negb (at_ s 0 =? 45)); simpl;
        [intros [= <- <- <-]; reflexivity|].
      destruct ((len s =? 2) && (at_ s 1 =? 45)); simpl;
        [intros [= <- <- <-]; reflexivity|].
      now apply Htail.
    + now apply Htail.
Qed.

(** Once [done] is set, every call of [Option] gives the same. *)
Lemma Option_run_done k q :
  getopt_option.done q = true ->
  getopt_option.run k q
  = repeat (Ok (EndOption, None, getopt_option.Args q)) k.
Proof.
  intros Hd. induction k as [|k IH]; [reflexivity|].
  cbn [getopt_option.run repeat]. rewrite (Option_done q Hd). now rewrite IH.
Qed.

Lemma Next_run_length k : forall p,
  parser_ok p = true -> length (run k p) = k.
Proof.
  induction k as [|k IH]; intros p Hok; [reflexivity|].
  cbn [run]. destruct (Next_ok p Hok) as (r & e & p' & -> & Hok' & _).
  cbn [length]. now rewrite IH.
Qed.

Lemma map_const_repeat {A B} (x : B) (l : list A) :
  map (fun _ => x) l = repeat x (length l).
Proof. induction l as [|a l IH]; [reflexivity|]. cbn. now rewrite IH. Qed.

(** The results of [Option] are those of [Next] with the first result
    that says the options are over held from then on. *)
Lemma Option_run_hold k : forall q,
  getopt_option.done q = false -> parser_ok (forget q) = true ->
  getopt_option.run k q = hold_end (run k (forget q)).
Proof.
  induction k as [|k IH]; intros q Hd Hok; [reflexivity|].
  cbn [getopt_option.run run].
  destruct (Option_ok q Hok) as (r & e & q' & Hq & Hok' & _).
  rewrite (Next_forget q Hd), Hq. cbn [forget_result mbind outcome_bind].
  rewrite Args_forget.
  cbn [hold_end]. f_equal.
  pose proof (Option_done_iff q r e q' Hd Hq) as Hdone.
  destruct (is_end r e) eqn:Hend.
  - rewrite (Option_run_done k q' Hdone), map_const_repeat,
      (Next_run_length k (forget q') Hok').
    unfold is_end in Hend. apply andb_true_iff in Hend as [Hr He].
    apply Z.eqb_eq in Hr. subst r. destruct e; [discriminate|reflexivity].
  - now apply IH.
Qed.

(** [Next] once a pending option argument has been skipped. *)
Lemma Next_rest (q : Parser) :
  hasArg q = false ->
  Next q
  = if len (args q) <=? optIndex q then Ok (EndOption, None, q)
    else if optPos q =? 0 then
      s ← index (args q) (optIndex q);
      if (len s <=? 1) || negb (at_ s 0 =? 45) then Ok (EndOption, None, q)
      else if (len s =? 2) && (at_ s 1 =? 45) then
        Ok (EndOption, None,
            mkParser (args q) (optIndex q + 1) (optPos q) (opts q) (hasArg q))
      else Next_option (mkParser (args q) (optIndex q) 1 (opts q) (hasArg q))
    else Next_option q.
Proof.
  destruct q as [a oi op o ha]. cbn [hasArg]. intros ->. reflexivity.
Qed.

Lemma Next_skip (p : Parser) :
  Next p = Next (if hasArg p
                 then mkParser (args p) (optIndex p + 1) 0 (opts p) false
                 else p).
Proof. destruct p as [a oi op o [|]]; reflexivity. Qed.

(** A call of [Next] that says the options are over is followed by the
    same result, unless it has stepped over the argument [--]. *)
Lemma Next_end_cases (p p' : Parser) :
  Next p = Ok (EndOption, None, p') ->
  Next p' = Ok (EndOption, None, p') \/
  exists i, index (args p) i = Ok [45; 45] /\ optIndex p' = i + 1.
Proof.
  rewrite Next_skip.
  set (q := if hasArg p then _ else p).
  assert (Hq : args q = args p /\ hasArg q = false)
    by (unfold q; destruct (hasArg p) eqn:Hh; simpl; auto).
  destruct Hq as [Ha Hh]. clearbody q. rewrite <- Ha. clear Ha p.
  pose proof (Next_rest q Hh) as Hnext. rewrite Hnext.
  assert (Hopt : forall q0, Next_option q0 = Ok (EndOption, None, p') -> False).
  { intros q0 H0. apply Next_option_not_end in H0. discriminate. }
  destruct (len (args q) <=? optIndex q) eqn:Hlen.
  { intros H. injection H as <-. left. exact Hnext. }
  destruct (optPos q =? 0) eqn:Hpos; [|intros H; destruct (Hopt _ H)].
  destruct (index_cases (args q) (optIndex q)) as [Hs|[s Hs]]; rewrite Hs in *;
    [discriminate|].
  rewrite bind_Ok in *.
  destruct ((len s <=? 1) || negb (at_ s 0 =? 45)) eqn:Hplain.
  { intros H. injection H as <-. left. exact Hnext. }
  destruct ((len s =? 2) && (at_ s 1 =? 45)) eqn:Hterm;
    [|intros H; destruct (Hopt _ H)].
  intros H. injection H as <-. right. exists (optIndex q).
  split; [|reflexivity]. f_equal.
  apply orb_false_iff in Hplain as [_ H0].
  apply negb_false_iff, Z.eqb_eq in H0.
  apply andb_true_iff in Hterm as [H2 H1].
  apply Z.eqb_eq in H2, H1.
  destruct s as [|x [|y [|z s]]]; unfold len in H2; simpl in H2; try lia.
  unfold at_ in H0, H1. simpl in H0, H1. now subst.
Qed.

Lemma index_In {A} (l : list A) i x : index l i = Ok x -> In x l.
Proof.
  unfold index. destruct ((0 <=? i) && (i <? len l)); [|discriminate].
  destruct (nth_error l (Z.to_nat i)) as [y|] eqn:Hy; [|discriminate].
  intros [= <-]. eapply nth_error_In, Hy.
Qed.

(** Without an argument [--], the two parsers give the same results on
    every call. *)
Lemma runs_agree k : forall q,
  ~ In [45; 45] (getopt_option.args q) ->
  parser_ok (forget q) = true ->
  (getopt_option.done q = true ->
   Next (forget q) = Ok (EndOption, None, forget q)) ->
  getopt_option.run k q = run k (forget q).
Proof.
  induction k as [|k IH]; intros q Hno Hok Hstable; [reflexivity|].
  cbn [getopt_option.run run].
  destruct (getopt_option.done q) eqn:Hd.
  - rewrite (Option_done q Hd), (Hstable eq_refl), Args_forget.
    f_equal. apply IH; assumption || (intros _; now apply Hstable).
  - destruct (Option_ok q Hok) as (r & e & q' & Hq & Hok' & Ha & _).
    pose proof (Next_forget q Hd) as Hn. rewrite Hq in Hn.
    cbn [forget_result mbind outcome_bind] in Hn.
    rewrite Hq, Hn, Args_forget. f_equal.
    apply IH; [now rewrite Ha|exact Hok'|].
    intros Hd'. rewrite (Option_done_iff q r e q' Hd Hq) in Hd'.
    unfold is_end in Hd'. apply andb_true_iff in Hd' as [Hr He].
    apply Z.eqb_eq in Hr. subst r. destruct e; [discriminate|].
    destruct (Next_end_cases _ _ Hn) as [Hs|(i & Hi & _)]; [exact Hs|].
    destruct Hno. apply (index_In _ i). exact Hi.
Qed.

End GetoptAgreement.

(** C10, as it holds by design of the [done] flag, for every argument
    list and option-spec string.  [Args()] returns the same before the
    first call.  The results of successive calls of [Option] (rune,
    error, and what [Args()] returns after the call) are those of the
    same calls of [Next] up to and including the first call that
    returns [EndOption] with a nil error; from then on every call of
    [Option] returns that result again, with the same remaining
    arguments.  A call of [Next] that returns [EndOption] with a nil
    error is followed by the same result again too, unless that call
    has stepped over the argument [--].  So for an argument list
    without [--] the two parsers return the same on every call. *)
Theorem Next_Option_agree_until_end :
  forall (args : list gostring) (opts : gostring),
    getopt_next.Args (getopt_next.NewParser args opts)
    = getopt_option.Args (getopt_option.NewParser args opts) /\
    (forall k,
        until_end (getopt_next.run k (getopt_next.NewParser args opts))
        = until_end (getopt_option.run k (getopt_option.NewParser args opts))) /\
    (forall q, getopt_option.done q = true ->
               getopt_option.Option q = Ok (EndOption, None, q)) /\
    (forall k,
        getopt_option.run k (getopt_option.NewParser args opts)
        = hold_end (getopt_next.run k (getopt_next.NewParser args opts))) /\
    (forall p p',
        getopt_next.Next p = Ok (EndOption, None, p') ->
        getopt_next.Next p' = Ok (EndOption, None, p') \/
        exists i, index (getopt_next.args p) i = Ok [45; 45] /\
                  getopt_next.optIndex p' = i + 1) /\
    (~ In [45; 45] args ->
     forall k,
       getopt_option.run k (getopt_option.NewParser args opts)
       = getopt_next.run k (getopt_next.NewParser args opts)).
Proof.
  intros args opts. split; [reflexivity|]. split; [|split; [|split; [|split]]].
  - intros k. symmetry.
    apply (run_sim k (getopt_option.NewParser args opts)). reflexivity.
  - apply Option_done.
  - intros k.
    apply (Option_run_hold k (getopt_option.NewParser args opts));
      reflexivity.
  - apply Next_end_cases.
  - intros Hno k.
    apply (runs_agree k (getopt_option.NewParser args opts));
      [exact Hno|reflexivity|discriminate].
Qed.

(** The two parsers on [prog -a x -b], where [x] ends the options: the
    same results on every call. *)
Lemma Next_Option_agree_witness :
  let args := [bytes_of "prog"; bytes_of "-a"; bytes_of "x"; bytes_of "-b"] in
  let opts := bytes_of "ab" in
  getopt_option.run 4 (getopt_option.NewParser args opts)
  = getopt_next.run 4 (getopt_next.NewParser args opts).
Proof.
  intros args opts.
  apply (proj2 (proj2 (proj2 (proj2 (proj2
           (Next_Option_agree_until_end args opts)))))).
  vm_compute. intros H.
  repeat (destruct H as [H|H]; [discriminate H|]). exact H.
Defined.

(** C10 as stated fails: after the terminator [--], the second call of
    [Next] parses [-a] while the second call of [Option] returns
    [EndOption] again, and [Args()] differs too. *)
Lemma Next_Option_differ_after_end :
  let args := [bytes_of "prog"; bytes_of "--"; bytes_of "-a"] in
  let opts := bytes_of "a" in
  getopt_next.run 2 (getopt_next.NewParser args opts)
  = [Ok (EndOption, None, Ok [bytes_of "-a"]); Ok (97, None, Ok [])] /\
  getopt_option.run 2 (getopt_option.NewParser args opts)
  = [Ok (EndOption, None, Ok [bytes_of "-a"]);
     Ok (EndOption, None, Ok [bytes_of "-a"])] /\
  getopt_next.run 2 (getopt_next.NewParser args opts)
  <> getopt_option.run 2 (getopt_option.NewParser args opts).
Proof.
  cbv zeta. repeat split; try reflexivity. vm_compute. discriminate.
Qed.
